(** * Pixel mappers of rpi-rgb-led-matrix (lib/pixel-mapper.cc)

    A shallow embedding of the seven pixel mappers and of the mapper
    registry, with the properties of the specification stated about them.

    Conventions.
    - A C++ [int] is a [Z] in the range [INT_MIN .. INT_MAX].  Signed
      arithmetic that leaves that range, and division or remainder by zero,
      is undefined behaviour: the operation yields [None].  Division
      truncates towards zero ([Z.quot], [Z.rem]).
    - A C string is the [string] of the characters before its terminating
      NUL; a [const char *] that may be NULL is an [option string].
    - A member function takes the object ([self]) and returns the updated
      object next to its result.  What is written to stderr is returned as
      a list of diagnostics.
    - Output parameters ([int *matrix_x], [int *matrix_y]) are returned;
      a path that never stores to them returns [NotWritten]. *)

From Stdlib Require Import ZArith Lia String Ascii List Bool.
From stdpp Require Import base option list gmap strings sorting.

Local Open Scope string_scope.
Local Open Scope list_scope.
Local Open Scope Z_scope.

(** ** C++ [int] arithmetic *)

Module Int.

Definition INT_MIN : Z := -2147483648.
Definition INT_MAX : Z := 2147483647.

Definition in_range (z : Z) : bool := (INT_MIN <=? z) && (z <=? INT_MAX).

(** The value of an arithmetic result, undefined when not representable. *)
Definition of_Z (z : Z) : option Z := if in_range z then Some z else None.

(** Operands are either values already computed ([Z]) or sub-expressions
    ([option Z]); an undefined operand makes the expression undefined. *)
Class Operand (A : Type) := eval : A → option Z.
#[global] Instance operand_value : Operand Z := Some.
#[global] Instance operand_expr : Operand (option Z) := id.

Definition add `{Operand A, Operand B} (a : A) (b : B) : option Z :=
  x ← eval a; y ← eval b; of_Z (x + y).
Definition sub `{Operand A, Operand B} (a : A) (b : B) : option Z :=
  x ← eval a; y ← eval b; of_Z (x - y).
Definition mul `{Operand A, Operand B} (a : A) (b : B) : option Z :=
  x ← eval a; y ← eval b; of_Z (x * y).
Definition div `{Operand A, Operand B} (a : A) (b : B) : option Z :=
  x ← eval a; y ← eval b;
  if decide (y = 0) then None else of_Z (x ÷ y).
(** [a % b] is undefined whenever [a / b] is. *)
Definition rem `{Operand A, Operand B} (a : A) (b : B) : option Z :=
  x ← eval a; y ← eval b;
  if decide (y = 0) then None else _ ← of_Z (x ÷ y); Some (Z.rem x y).

End Int.

Notation "a +ᵢ b" := (Int.add a b) (at level 50, left associativity).
Notation "a -ᵢ b" := (Int.sub a b) (at level 50, left associativity).
Notation "a *ᵢ b" := (Int.mul a b) (at level 40, left associativity).
Notation "a /ᵢ b" := (Int.div a b) (at level 40, left associativity).
Notation "a %ᵢ b" := (Int.rem a b) (at level 40, left associativity).

(** ** The C library functions the mappers call *)

Module CString.

Definition isdigit (c : ascii) : bool :=
  let n := N_of_ascii c in (48 <=? n)%N && (n <=? 57)%N.

(** [isspace] in the C locale: space, \t, \n, \v, \f, \r. *)
Definition isspace (c : ascii) : bool :=
  let n := N_of_ascii c in (n =? 32)%N || ((9 <=? n)%N && (n <=? 13)%N).

Definition tolower (c : ascii) : ascii :=
  let n := N_of_ascii c in
  if (65 <=? n)%N && (n <=? 90)%N then ascii_of_N (n + 32) else c.

Fixpoint lower (s : string) : string :=
  match s with
  | EmptyString => EmptyString
  | String c s' => String (tolower c) (lower s')
  end.

Definition digit_value (c : ascii) : Z := Z.of_N (N_of_ascii c) - 48.

Fixpoint all_digits (s : string) : bool :=
  match s with
  | EmptyString => true
  | String c s' => isdigit c && all_digits s'
  end.

(** The number written by the leading digits of [s], continuing from
    [acc], and the rest of [s]. *)
Fixpoint digits (acc : Z) (s : string) : Z * string :=
  match s with
  | String c s' =>
      if isdigit c then digits (10 * acc + digit_value c) s' else (acc, s)
  | EmptyString => (acc, s)
  end.

Fixpoint skip_space (s : string) : string :=
  match s with
  | String c s' => if isspace c then skip_space s' else s
  | EmptyString => s
  end.

(** [strtol(s, &end, 10)] assigned to an [int]: the value and the
    unparsed rest [end].  Without a digit nothing is consumed and the
    value is 0.  A number outside [int] is clamped to the range of [long]
    and then converted, which depends on the platform: it is left
    undefined here. *)
Definition strtol (s : string) : option Z * string :=
  let body := skip_space s in
  let '(neg, ds) :=
    match body with
    | String "-" r => (true, r)
    | String "+" r => (false, r)
    | _ => (false, body)
    end in
  match ds with
  | String c _ =>
      if isdigit c then
        let '(v, rest) := digits 0 ds in
        (Int.of_Z (if neg then - v else v), rest)
      else (Some 0, s)
  | EmptyString => (Some 0, s)
  end.

(** [atoi] of a string; the mappers only call it on strings of digits.
    A value that does not fit [int] is undefined behaviour. *)
Definition atoi (s : string) : option Z :=
  let '(v, _) := strtol s in v.

(** The characters of [s] up to its first delimiter, and what follows
    that delimiter. *)
Fixpoint span (delim : ascii) (s : string) : string * string :=
  match s with
  | EmptyString => (EmptyString, EmptyString)
  | String c s' =>
      if Ascii.eqb c delim then (EmptyString, s')
      else let '(tok, rest) := span delim s' in (String c tok, rest)
  end.

(** One call of [strtok_r] with a single delimiter: skip the leading
    delimiters, return the token up to the next delimiter and the rest
    saved for the next call; [None] is the NULL result. *)
Fixpoint strtok_r (delim : ascii) (s : string) : option (string * string) :=
  match s with
  | EmptyString => None
  | String c s' =>
      if Ascii.eqb c delim then strtok_r delim s' else Some (span delim s)
  end.

(** The fields of [s] between delimiters, empty ones included. *)
Fixpoint fields (delim : ascii) (s : string) : list string :=
  match s with
  | EmptyString => [EmptyString]
  | String c s' =>
      if Ascii.eqb c delim then EmptyString :: fields delim s'
      else match fields delim s' with
           | f :: fs => String c f :: fs
           | [] => [String c EmptyString]
           end
  end.

Definition nonempty (s : string) : bool :=
  match s with EmptyString => false | String _ _ => true end.

(** All tokens that successive calls of [strtok_r] return, that is what
    [for (t = strtok_r(s, d, &p); t != NULL; t = strtok_r(NULL, d, &p))]
    iterates over: the non-empty fields (lemma [tokens_strtok_r]). *)
Definition tokens (delim : ascii) (s : string) : list string :=
  List.filter nonempty (fields delim s).

(** [*s], the first character of a C string (NUL when it is empty). *)
Definition first_char (s : string) : ascii :=
  match s with String c _ => c | EmptyString => "000"%char end.

Definition strlen (s : string) : Z := Z.of_nat (String.length s).

(** [strcasecmp(a, b) == 0] *)
Definition strcasecmp_eq (a b : string) : bool :=
  String.eqb (lower a) (lower b).

End CString.

(** ** What the mappers print and return *)

(** The messages written to stderr, with the values they print. *)
Inductive diagnostic : Type :=
| need_parallel_2 (mapper : string)
| single_character_expected (mapper : string)
| V_or_H_expected (mapper : string)
| found_non_digit (mapper token : string)
| panel_index_too_high (mapper : string) (index max : Z)
| invalid_rotation_value (mapper : string) (angle : Z)
| invalid_rotate_parameter (param : string)
| rotation_not_multiple_of_90
| need_chain_for_folding
| chain_not_divisible_by_two
| height_not_divisible (mapper : string) (parallel height : Z)
| no_such_mapper (name : string).

(** The contents of [*matrix_x], [*matrix_y] after a call of
    [MapVisibleToMatrix], when the call stored to them. *)
Inductive mapped : Type :=
| Written (matrix_x matrix_y : Z)
| NotWritten.

(** ** Row-mapper *)

Module RowArrangementMapper.

Inductive Mode : Type := normal | band_horizontal | band_vertical.

Record t : Type := { chain_ : Z; parallel_ : Z; mode_ : Mode }.

(** [RowArrangementMapper() : parallel_(1) {}]; the other members keep
    whatever the allocated memory [raw] holds. *)
Definition new (raw : t) : t :=
  {| chain_ := chain_ raw; parallel_ := 1; mode_ := mode_ raw |}.

Definition GetName : string := "Row-mapper".

Definition SetParameters (self : t) (chain parallel : Z)
    (param : option string) : option (bool * t * list diagnostic) :=
  if decide (parallel < 2) then
    Some (false, self, [need_parallel_2 GetName])
  else
    let store (mode : Mode) (log : list diagnostic) :=
      Some (true,
            {| chain_ := chain; parallel_ := parallel; mode_ := mode |},
            log) in
    match param with
    | None => store normal []
    | Some p =>
        if decide (CString.strlen p = 0) then store normal []
        else if decide (CString.strlen p ≠ 1) then
          store normal [single_character_expected GetName]
        else
          match CString.first_char p with
          | "V"%char | "v"%char => store band_vertical []
          | "H"%char | "h"%char => store band_horizontal []
          | _ => Some (false, self, [V_or_H_expected GetName])
          end
    end.

Definition GetSizeMapping (self : t) (matrix_width matrix_height : Z)
    : option (bool * (Z * Z) * list diagnostic) :=
  panel_width ← matrix_width /ᵢ chain_ self;
  match mode_ self with
  | normal =>
      visible_height ← matrix_height /ᵢ parallel_ self;
      visible_width ← matrix_width *ᵢ parallel_ self;
      Some (true, (visible_width, visible_height), [])
  | band_vertical =>
      visible_height ← matrix_height /ᵢ parallel_ self;
      visible_width ←
        (matrix_width *ᵢ parallel_ self) -ᵢ (panel_width *ᵢ 2);
      Some (true, (visible_width, visible_height), [])
  | band_horizontal =>
      visible_height ← matrix_height /ᵢ parallel_ self;
      visible_width ←
        (matrix_width *ᵢ parallel_ self) -ᵢ (panel_width *ᵢ 2);
      Some (true, (visible_width, visible_height), [])
  end.

Definition MapVisibleToMatrix (self : t) (matrix_width matrix_height : Z)
    (x y : Z) : option mapped :=
  panel_height ← matrix_height /ᵢ parallel_ self;
  panel_width ← matrix_width /ᵢ chain_ self;
  y_diff ← x /ᵢ matrix_width;
  match mode_ self with
  | normal =>
      matrix_x ← x %ᵢ matrix_width;
      matrix_y ← (y_diff *ᵢ panel_height) +ᵢ y;
      Some (Written matrix_x matrix_y)
  | band_vertical =>
      matrix_x ← (x +ᵢ panel_width) %ᵢ matrix_width;
      matrix_y ←
        ((x +ᵢ panel_width) /ᵢ matrix_width *ᵢ panel_height) +ᵢ y;
      Some (Written matrix_x matrix_y)
  | band_horizontal =>
      matrix_x ← x %ᵢ matrix_width;
      matrix_y ← (y_diff *ᵢ panel_height) +ᵢ y;
      Some (Written matrix_x matrix_y)
  end.

End RowArrangementMapper.

(** ** Function-local statics

    [static const int v = e;] inside a function is initialised the first
    time control passes its declaration and keeps that value for the rest
    of the process, for every object of the class.  A slot holds [None]
    until then. *)
Definition static_init (slot : option Z) (initializer : option Z)
    : option Z :=
  match slot with
  | Some v => Some v
  | None => initializer
  end.

(** ** The parameter list of Rotate-panel and Reorder

    Both [SetParameters] run the same two nested [strtok_r] loops; the
    locals that outlive an iteration are kept in a record. *)
Record parse_locals : Type := {
  first : Z;               (* panel_index, panel_index_from *)
  second : Z;              (* panel_angle, panel_index_to *)
  panels : gmap Z Z;       (* panels_ *)
  log : list diagnostic
}.

Definition with_first (v : Z) (l : parse_locals) : parse_locals :=
  {| first := v; second := second l; panels := panels l; log := log l |}.
Definition with_second (v : Z) (l : parse_locals) : parse_locals :=
  {| first := first l; second := v; panels := panels l; log := log l |}.
Definition with_panel (k v : Z) (l : parse_locals) : parse_locals :=
  {| first := first l; second := second l;
     panels := <[k := v]> (panels l); log := log l |}.
Definition with_diagnostic (d : diagnostic) (l : parse_locals)
    : parse_locals :=
  {| first := first l; second := second l; panels := panels l;
     log := log l ++ [d] |}.

(** ** Rotate-panel *)

Module RotatePanelPixelMapper.

Record t : Type := { chain_ : Z; parallel_ : Z; panels_ : gmap Z Z }.

(** [RotatePanelPixelMapper() {}]: an empty map, the two ints as found. *)
Definition new (raw : t) : t :=
  {| chain_ := chain_ raw; parallel_ := parallel_ raw; panels_ := ∅ |}.

Definition GetName : string := "Rotate-panel".

(** The inner loop [while (token2 != NULL)] over the [|]-separated tokens
    of one item.  Returning without a recursive call is the [break].  The
    counter [i] of the loop counts the tokens of one item; it is kept as a
    number, since only a parameter string of 2^31 tokens could make it
    overflow. *)
Fixpoint pair_loop (panel_count : Z) (tokens2 : list string) (i : Z)
    (l : parse_locals) : option parse_locals :=
  match tokens2 with
  | [] => Some l
  | token2 :: rest =>
      if negb (CString.all_digits token2) then
        Some (with_diagnostic (found_non_digit GetName token2) l)
      else if decide (Z.rem i 2 = 0) then
        panel_index ← CString.atoi token2;
        max ← panel_count -ᵢ 1;
        let l := with_first panel_index l in
        if decide (panel_index > max) then
          Some (with_diagnostic
                  (panel_index_too_high GetName panel_index max) l)
        else pair_loop panel_count rest (i + 1) l
      else
        panel_angle ← CString.atoi token2;
        let l := with_second panel_angle l in
        r ← panel_angle %ᵢ 90;
        if decide (r ≠ 0) then
          pair_loop panel_count rest (i + 1)
            (with_diagnostic (invalid_rotation_value GetName panel_angle) l)
        else
          pair_loop panel_count rest (i + 1)
            (with_panel (first l) panel_angle l)
  end.

(** The outer loop [while (token1 != NULL)] over the [,]-separated items. *)
Fixpoint item_loop (panel_count : Z) (tokens1 : list string)
    (l : parse_locals) : option parse_locals :=
  match tokens1 with
  | [] => Some l
  | token1 :: rest =>
      l ← pair_loop panel_count (CString.tokens "|" token1) 0 l;
      item_loop panel_count rest l
  end.

Definition SetParameters (self : t) (chain parallel : Z)
    (param : option string) : option (bool * t * list diagnostic) :=
  match param with
  | None =>
      Some (true,
            {| chain_ := chain; parallel_ := parallel;
               panels_ := panels_ self |}, [])
  | Some param =>
      panel_count ← chain *ᵢ parallel;
      l ← item_loop panel_count (CString.tokens "," param)
            {| first := 0; second := 0; panels := panels_ self;
               log := [] |};
      Some (true,
            {| chain_ := chain; parallel_ := parallel;
               panels_ := panels l |}, log l)
  end.

Definition GetSizeMapping (self : t) (matrix_width matrix_height : Z)
    : option (bool * (Z * Z) * list diagnostic) :=
  Some (true, (matrix_width, matrix_height), []).

(** The two [static const int] locals of [MapVisibleToMatrix]. *)
Record statics : Type := {
  panel_cols_ : option Z;
  panel_rows_ : option Z
}.

Definition uninitialised : statics :=
  {| panel_cols_ := None; panel_rows_ := None |}.

Definition MapVisibleToMatrix (self : t) (s : statics)
    (matrix_width matrix_height : Z) (x y : Z)
    : option (statics * mapped) :=
  panel_cols ←
    static_init (panel_cols_ s) (matrix_width /ᵢ chain_ self);
  panel_rows ←
    static_init (panel_rows_ s) (matrix_height /ᵢ parallel_ self);
  let s := {| panel_cols_ := Some panel_cols;
              panel_rows_ := Some panel_rows |} in
  panel_x_nr ← x /ᵢ panel_cols;
  panel_y_nr ← y /ᵢ panel_rows;
  panel_nr ← (panel_y_nr *ᵢ chain_ self) +ᵢ panel_x_nr;
  match panels_ self !! panel_nr with
  | Some angle =>
      panel_x ← (if decide (panel_x_nr = 0) then Some x
                 else x %ᵢ (panel_x_nr *ᵢ panel_cols));
      panel_y ← (if decide (panel_y_nr = 0) then Some y
                 else y %ᵢ (panel_y_nr *ᵢ panel_rows));
      match angle with
      | 0 => Some (s, Written x y)
      | 90 =>
          matrix_x ←
            (panel_x_nr *ᵢ panel_cols) +ᵢ (panel_cols -ᵢ panel_y -ᵢ 1);
          matrix_y ← (panel_y_nr *ᵢ panel_rows) +ᵢ panel_x;
          Some (s, Written matrix_x matrix_y)
      | 180 =>
          matrix_x ←
            (panel_x_nr *ᵢ panel_cols) +ᵢ (panel_rows -ᵢ panel_x -ᵢ 1);
          matrix_y ←
            (panel_y_nr *ᵢ panel_rows) +ᵢ (panel_cols -ᵢ panel_y -ᵢ 1);
          Some (s, Written matrix_x matrix_y)
      | 270 =>
          matrix_x ← (panel_x_nr *ᵢ panel_cols) +ᵢ panel_y;
          matrix_y ←
            (panel_y_nr *ᵢ panel_rows) +ᵢ (panel_rows -ᵢ panel_x -ᵢ 1);
          Some (s, Written matrix_x matrix_y)
      | _ => Some (s, NotWritten)
      end
  | None => Some (s, Written x y)
  end.

End RotatePanelPixelMapper.

(** ** Reorder *)

Module ReorderPixelMapper.

Record t : Type := { chain_ : Z; parallel_ : Z; panels_ : gmap Z Z }.

Definition new (raw : t) : t :=
  {| chain_ := chain_ raw; parallel_ := parallel_ raw; panels_ := ∅ |}.

Definition GetName : string := "Reorder".

Fixpoint pair_loop (panel_count : Z) (tokens2 : list string) (i : Z)
    (l : parse_locals) : option parse_locals :=
  match tokens2 with
  | [] => Some l
  | token2 :: rest =>
      if negb (CString.all_digits token2) then
        Some (with_diagnostic (found_non_digit GetName token2) l)
      else if decide (Z.rem i 2 = 0) then
        panel_index_from ← CString.atoi token2;
        max ← panel_count -ᵢ 1;
        let l := with_first panel_index_from l in
        if decide (panel_index_from > max) then
          Some (with_diagnostic
                  (panel_index_too_high GetName panel_index_from max) l)
        else pair_loop panel_count rest (i + 1) l
      else
        panel_index_to ← CString.atoi token2;
        max ← panel_count -ᵢ 1;
        let l := with_second panel_index_to l in
        if decide (panel_index_to > max) then
          Some (with_diagnostic
                  (panel_index_too_high GetName panel_index_to max) l)
        else
          pair_loop panel_count rest (i + 1)
            (with_panel (first l) panel_index_to l)
  end.

Fixpoint item_loop (panel_count : Z) (tokens1 : list string)
    (l : parse_locals) : option parse_locals :=
  match tokens1 with
  | [] => Some l
  | token1 :: rest =>
      l ← pair_loop panel_count (CString.tokens "|" token1) 0 l;
      item_loop panel_count rest l
  end.

Definition SetParameters (self : t) (chain parallel : Z)
    (param : option string) : option (bool * t * list diagnostic) :=
  match param with
  | None =>
      Some (true,
            {| chain_ := chain; parallel_ := parallel;
               panels_ := panels_ self |}, [])
  | Some param =>
      panel_count ← chain *ᵢ parallel;
      l ← item_loop panel_count (CString.tokens "," param)
            {| first := 0; second := 0; panels := panels_ self;
               log := [] |};
      Some (true,
            {| chain_ := chain; parallel_ := parallel;
               panels_ := panels l |}, log l)
  end.

Definition GetSizeMapping (self : t) (matrix_width matrix_height : Z)
    : option (bool * (Z * Z) * list diagnostic) :=
  Some (true, (matrix_width, matrix_height), []).

Record statics : Type := {
  panel_cols_ : option Z;
  panel_rows_ : option Z
}.

Definition uninitialised : statics :=
  {| panel_cols_ := None; panel_rows_ := None |}.

Definition MapVisibleToMatrix (self : t) (s : statics)
    (matrix_width matrix_height : Z) (x y : Z)
    : option (statics * mapped) :=
  panel_cols ←
    static_init (panel_cols_ s) (matrix_width /ᵢ chain_ self);
  panel_rows ←
    static_init (panel_rows_ s) (matrix_height /ᵢ parallel_ self);
  let s := {| panel_cols_ := Some panel_cols;
              panel_rows_ := Some panel_rows |} in
  panel_from_x_index ← x /ᵢ panel_cols;
  panel_from_y_index ← y /ᵢ panel_rows;
  panel_from_index ←
    (panel_from_y_index *ᵢ chain_ self) +ᵢ panel_from_x_index;
  match panels_ self !! panel_from_index with
  | Some panel_to_index =>
      panel_to_x_index ← panel_to_index %ᵢ (parallel_ self -ᵢ 1);
      panel_to_y_index ← panel_to_index /ᵢ (parallel_ self -ᵢ 1);
      panel_x ← (if decide (panel_from_x_index = 0) then Some x
                 else x %ᵢ (panel_from_x_index *ᵢ panel_cols));
      panel_y ← (if decide (panel_from_y_index = 0) then Some y
                 else y %ᵢ (panel_from_y_index *ᵢ panel_rows));
      matrix_x ← (panel_to_x_index *ᵢ panel_cols) +ᵢ panel_x;
      matrix_y ← (panel_to_y_index *ᵢ panel_rows) +ᵢ panel_y;
      Some (s, Written matrix_x matrix_y)
  | None => Some (s, Written x y)
  end.

End ReorderPixelMapper.

(** ** Rotate *)

Module RotatePixelMapper.

Record t : Type := { angle_ : Z }.

(** [RotatePixelMapper() : angle_(0) {}] *)
Definition new : t := {| angle_ := 0 |}.

Definition GetName : string := "Rotate".

Definition SetParameters (self : t) (chain parallel : Z)
    (param : option string) : option (bool * t * list diagnostic) :=
  match param with
  | None => Some (true, {| angle_ := 0 |}, [])
  | Some p =>
      if decide (CString.strlen p = 0) then
        Some (true, {| angle_ := 0 |}, [])
      else
        let '(value, errpos) := CString.strtol p in
        angle ← value;
        if CString.nonempty errpos then
          Some (false, self, [invalid_rotate_parameter p])
        else
          r ← angle %ᵢ 90;
          if decide (r ≠ 0) then
            Some (false, self, [rotation_not_multiple_of_90])
          else
            a ← (angle +ᵢ 360) %ᵢ 360;
            Some (true, {| angle_ := a |}, [])
  end.

Definition GetSizeMapping (self : t) (matrix_width matrix_height : Z)
    : option (bool * (Z * Z) * list diagnostic) :=
  r ← angle_ self %ᵢ 180;
  if decide (r = 0) then Some (true, (matrix_width, matrix_height), [])
  else Some (true, (matrix_height, matrix_width), []).

Definition MapVisibleToMatrix (self : t) (matrix_width matrix_height : Z)
    (x y : Z) : option mapped :=
  match angle_ self with
  | 0 => Some (Written x y)
  | 90 =>
      matrix_x ← matrix_width -ᵢ y -ᵢ 1;
      Some (Written matrix_x x)
  | 180 =>
      matrix_x ← matrix_width -ᵢ x -ᵢ 1;
      matrix_y ← matrix_height -ᵢ y -ᵢ 1;
      Some (Written matrix_x matrix_y)
  | 270 =>
      matrix_y ← matrix_height -ᵢ x -ᵢ 1;
      Some (Written y matrix_y)
  | _ => Some NotWritten
  end.

End RotatePixelMapper.

(** ** Mirror *)

Module MirrorPixelMapper.

Record t : Type := { horizontal_ : bool }.

(** [MirrorPixelMapper() : horizontal_(true) {}] *)
Definition new : t := {| horizontal_ := true |}.

Definition GetName : string := "Mirror".

Definition SetParameters (self : t) (chain parallel : Z)
    (param : option string) : option (bool * t * list diagnostic) :=
  match param with
  | None => Some (true, {| horizontal_ := true |}, [])
  | Some p =>
      if decide (CString.strlen p = 0) then
        Some (true, {| horizontal_ := true |}, [])
      else
        let log :=
          if decide (CString.strlen p ≠ 1)
          then [single_character_expected GetName] else [] in
        match CString.first_char p with
        | "V"%char | "v"%char => Some (true, {| horizontal_ := false |}, log)
        | "H"%char | "h"%char => Some (true, {| horizontal_ := true |}, log)
        | _ => Some (false, self, log ++ [V_or_H_expected GetName])
        end
  end.

Definition GetSizeMapping (self : t) (matrix_width matrix_height : Z)
    : option (bool * (Z * Z) * list diagnostic) :=
  Some (true, (matrix_width, matrix_height), []).

Definition MapVisibleToMatrix (self : t) (matrix_width matrix_height : Z)
    (x y : Z) : option mapped :=
  if horizontal_ self then
    matrix_x ← matrix_width -ᵢ 1 -ᵢ x;
    Some (Written matrix_x y)
  else
    matrix_y ← matrix_height -ᵢ 1 -ᵢ y;
    Some (Written x matrix_y).

End MirrorPixelMapper.

(** ** U-mapper *)

Module UArrangementMapper.

Record t : Type := { parallel_ : Z }.

(** [UArrangementMapper() : parallel_(1) {}] *)
Definition new : t := {| parallel_ := 1 |}.

Definition GetName : string := "U-mapper".

Definition SetParameters (self : t) (chain parallel : Z)
    (param : option string) : option (bool * t * list diagnostic) :=
  if decide (chain < 2) then Some (false, self, [need_chain_for_folding])
  else
    r ← chain %ᵢ 2;
    if decide (r ≠ 0) then
      Some (false, self, [chain_not_divisible_by_two])
    else Some (true, {| parallel_ := parallel |}, []).

Definition GetSizeMapping (self : t) (matrix_width matrix_height : Z)
    : option (bool * (Z * Z) * list diagnostic) :=
  visible_width ← (matrix_width /ᵢ 64) *ᵢ 32;
  visible_height ← 2 *ᵢ matrix_height;
  r ← matrix_height %ᵢ parallel_ self;
  if decide (r ≠ 0) then
    Some (false, (visible_width, visible_height),
          [height_not_divisible GetName (parallel_ self) matrix_height])
  else Some (true, (visible_width, visible_height), []).

Definition MapVisibleToMatrix (self : t) (matrix_width matrix_height : Z)
    (x y : Z) : option mapped :=
  panel_height ← matrix_height /ᵢ parallel_ self;
  visible_width ← (matrix_width /ᵢ 64) *ᵢ 32;
  slab_height ← 2 *ᵢ panel_height;
  base_y ← (y /ᵢ slab_height) *ᵢ panel_height;
  y ← y %ᵢ slab_height;
  if decide (y < panel_height) then
    x ← x +ᵢ (matrix_width /ᵢ 2);
    matrix_y ← base_y +ᵢ y;
    Some (Written x matrix_y)
  else
    x ← visible_width -ᵢ x -ᵢ 1;
    y ← slab_height -ᵢ y -ᵢ 1;
    matrix_y ← base_y +ᵢ y;
    Some (Written x matrix_y).

End UArrangementMapper.

(** ** V-mapper *)

Module VerticalMapper.

Record t : Type := { z_ : bool; chain_ : Z; parallel_ : Z }.

(** [VerticalMapper() {}]: every member as found. *)
Definition new (raw : t) : t := raw.

Definition GetName : string := "V-mapper".

Definition SetParameters (self : t) (chain parallel : Z)
    (param : option string) : option (bool * t * list diagnostic) :=
  let z := match param with
           | Some p => CString.strcasecmp_eq p "Z"
           | None => false
           end in
  Some (true, {| z_ := z; chain_ := chain; parallel_ := parallel |}, []).

Definition GetSizeMapping (self : t) (matrix_width matrix_height : Z)
    : option (bool * (Z * Z) * list diagnostic) :=
  visible_width ← matrix_width *ᵢ parallel_ self /ᵢ chain_ self;
  visible_height ← matrix_height *ᵢ chain_ self /ᵢ parallel_ self;
  Some (true, (visible_width, visible_height), []).

Definition MapVisibleToMatrix (self : t) (matrix_width matrix_height : Z)
    (x y : Z) : option mapped :=
  panel_width ← matrix_width /ᵢ chain_ self;
  panel_height ← matrix_height /ᵢ parallel_ self;
  x_panel_start ← y /ᵢ panel_height *ᵢ panel_width;
  y_panel_start ← x /ᵢ panel_width *ᵢ panel_height;
  x_within_panel ← x %ᵢ panel_width;
  y_within_panel ← y %ᵢ panel_height;
  needs_flipping ←
    (if z_ self then
       r ← (y /ᵢ panel_height) %ᵢ 2; Some (bool_decide (r = 1))
     else Some false);
  matrix_x ←
    x_panel_start +ᵢ (if needs_flipping : bool
                      then panel_width -ᵢ 1 -ᵢ x_within_panel
                      else Some x_within_panel);
  matrix_y ←
    y_panel_start +ᵢ (if needs_flipping : bool
                      then panel_height -ᵢ 1 -ᵢ y_within_panel
                      else Some y_within_panel);
  Some (Written matrix_x matrix_y).

End VerticalMapper.

(** ** The [PixelMapper] interface

    An object of one of the seven classes; the four virtual member
    functions dispatch on the class. *)
Inductive PixelMapper : Type :=
| RowArrangement (m : RowArrangementMapper.t)
| RotatePanel (m : RotatePanelPixelMapper.t)
| Reorder (m : ReorderPixelMapper.t)
| Rotate (m : RotatePixelMapper.t)
| Mirror (m : MirrorPixelMapper.t)
| UArrangement (m : UArrangementMapper.t)
| Vertical (m : VerticalMapper.t).

(** The function-local statics of the whole program. *)
Record statics : Type := {
  rotate_panel_statics : RotatePanelPixelMapper.statics;
  reorder_statics : ReorderPixelMapper.statics
}.

Definition at_program_start : statics :=
  {| rotate_panel_statics := RotatePanelPixelMapper.uninitialised;
     reorder_statics := ReorderPixelMapper.uninitialised |}.

Definition GetName (mapper : PixelMapper) : string :=
  match mapper with
  | RowArrangement _ => RowArrangementMapper.GetName
  | RotatePanel _ => RotatePanelPixelMapper.GetName
  | Reorder _ => ReorderPixelMapper.GetName
  | Rotate _ => RotatePixelMapper.GetName
  | Mirror _ => MirrorPixelMapper.GetName
  | UArrangement _ => UArrangementMapper.GetName
  | Vertical _ => VerticalMapper.GetName
  end.

Definition configured {T : Type} (wrap : T → PixelMapper)
    (r : option (bool * T * list diagnostic))
    : option (bool * PixelMapper * list diagnostic) :=
  '(ok, m, log) ← r; Some (ok, wrap m, log).

Definition SetParameters (mapper : PixelMapper) (chain parallel : Z)
    (param : option string)
    : option (bool * PixelMapper * list diagnostic) :=
  match mapper with
  | RowArrangement m =>
      configured RowArrangement
        (RowArrangementMapper.SetParameters m chain parallel param)
  | RotatePanel m =>
      configured RotatePanel
        (RotatePanelPixelMapper.SetParameters m chain parallel param)
  | Reorder m =>
      configured Reorder
        (ReorderPixelMapper.SetParameters m chain parallel param)
  | Rotate m =>
      configured Rotate
        (RotatePixelMapper.SetParameters m chain parallel param)
  | Mirror m =>
      configured Mirror
        (MirrorPixelMapper.SetParameters m chain parallel param)
  | UArrangement m =>
      configured UArrangement
        (UArrangementMapper.SetParameters m chain parallel param)
  | Vertical m =>
      configured Vertical
        (VerticalMapper.SetParameters m chain parallel param)
  end.

Definition GetSizeMapping (mapper : PixelMapper)
    (matrix_width matrix_height : Z)
    : option (bool * (Z * Z) * list diagnostic) :=
  match mapper with
  | RowArrangement m =>
      RowArrangementMapper.GetSizeMapping m matrix_width matrix_height
  | RotatePanel m =>
      RotatePanelPixelMapper.GetSizeMapping m matrix_width matrix_height
  | Reorder m =>
      ReorderPixelMapper.GetSizeMapping m matrix_width matrix_height
  | Rotate m =>
      RotatePixelMapper.GetSizeMapping m matrix_width matrix_height
  | Mirror m =>
      MirrorPixelMapper.GetSizeMapping m matrix_width matrix_height
  | UArrangement m =>
      UArrangementMapper.GetSizeMapping m matrix_width matrix_height
  | Vertical m =>
      VerticalMapper.GetSizeMapping m matrix_width matrix_height
  end.

Definition MapVisibleToMatrix (mapper : PixelMapper) (s : statics)
    (matrix_width matrix_height : Z) (x y : Z)
    : option (statics * mapped) :=
  match mapper with
  | RowArrangement m =>
      r ← RowArrangementMapper.MapVisibleToMatrix m
            matrix_width matrix_height x y;
      Some (s, r)
  | RotatePanel m =>
      '(s', r) ← RotatePanelPixelMapper.MapVisibleToMatrix m
                   (rotate_panel_statics s) matrix_width matrix_height x y;
      Some ({| rotate_panel_statics := s';
               reorder_statics := reorder_statics s |}, r)
  | Reorder m =>
      '(s', r) ← ReorderPixelMapper.MapVisibleToMatrix m
                   (reorder_statics s) matrix_width matrix_height x y;
      Some ({| rotate_panel_statics := rotate_panel_statics s;
               reorder_statics := s' |}, r)
  | Rotate m =>
      r ← RotatePixelMapper.MapVisibleToMatrix m
            matrix_width matrix_height x y;
      Some (s, r)
  | Mirror m =>
      r ← MirrorPixelMapper.MapVisibleToMatrix m
            matrix_width matrix_height x y;
      Some (s, r)
  | UArrangement m =>
      r ← UArrangementMapper.MapVisibleToMatrix m
            matrix_width matrix_height x y;
      Some (s, r)
  | Vertical m =>
      r ← VerticalMapper.MapVisibleToMatrix m
            matrix_width matrix_height x y;
      Some (s, r)
  end.

(** ** The registry *)

Module Registry.

(** [typedef std::map<std::string, PixelMapper*> MapperByName]: the map
    owns the objects it points to, so an entry holds the object and the
    key stands for the pointer to it. *)
Abbreviation MapperByName := (gmap string PixelMapper).

Definition RegisterPixelMapperInternal (registry : MapperByName)
    (mapper : PixelMapper) : MapperByName :=
  let lower_name := CString.lower (GetName mapper) in
  <[lower_name := mapper]> registry.

(** The contents of the memory the three constructors that leave members
    uninitialised are run on. *)
Record raw_memory : Type := {
  raw_row : RowArrangementMapper.t;
  raw_rotate_panel : RotatePanelPixelMapper.t;
  raw_reorder : ReorderPixelMapper.t;
  raw_vertical : VerticalMapper.t
}.

Definition CreateMapperMap (raw : raw_memory) : MapperByName :=
  let result : MapperByName := ∅ in
  let result := RegisterPixelMapperInternal result
    (RowArrangement (RowArrangementMapper.new (raw_row raw))) in
  let result := RegisterPixelMapperInternal result
    (RotatePanel (RotatePanelPixelMapper.new (raw_rotate_panel raw))) in
  let result := RegisterPixelMapperInternal result
    (Reorder (ReorderPixelMapper.new (raw_reorder raw))) in
  let result := RegisterPixelMapperInternal result
    (Rotate RotatePixelMapper.new) in
  let result := RegisterPixelMapperInternal result
    (UArrangement UArrangementMapper.new) in
  let result := RegisterPixelMapperInternal result
    (Vertical (VerticalMapper.new (raw_vertical raw))) in
  let result := RegisterPixelMapperInternal result
    (Mirror MirrorPixelMapper.new) in
  result.

(** [static MapperByName *singleton_instance = CreateMapperMap();] in
    [GetMapperMap]: [None] until the first call. *)
Definition GetMapperMap (raw : raw_memory)
    (singleton_instance : option MapperByName) : MapperByName :=
  match singleton_instance with
  | Some registry => registry
  | None => CreateMapperMap raw
  end.

Definition RegisterPixelMapper (raw : raw_memory)
    (singleton_instance : option MapperByName) (mapper : PixelMapper)
    : option MapperByName :=
  Some (RegisterPixelMapperInternal
          (GetMapperMap raw singleton_instance) mapper).

(** The order of [std::map<std::string, ...>]: [std::less] on the keys,
    which compares strings character by character. *)
Definition string_le (a b : string) : Prop := String.leb a b = true.

Definition key_le (a b : string * PixelMapper) : Prop := string_le a.1 b.1.

#[global] Instance key_le_dec (a b : string * PixelMapper) :
  Decision (key_le a b).
Proof. unfold key_le, string_le. apply _. Defined.

(** The loop from [m->begin()] to [m->end()] visits the entries in the
    order of their keys and collects [it->second->GetName()]. *)
Definition GetAvailablePixelMappers (raw : raw_memory)
    (singleton_instance : option MapperByName) : list string :=
  let m := GetMapperMap raw singleton_instance in
  (λ it, GetName it.2) <$> merge_sort key_le (map_to_list m).

(** Returns the registry after the call, the mapper found (the key of its
    entry; [None] is the NULL result) and what was printed.  The registry
    never holds a NULL pointer ([RegisterPixelMapperInternal] asserts it),
    so the test [mapper == NULL] has no counterpart. *)
Definition FindPixelMapper (raw : raw_memory)
    (singleton_instance : option MapperByName)
    (name : string) (chain parallel : Z) (parameter : option string)
    : option (option MapperByName * option string * list diagnostic) :=
  let lower_name := CString.lower name in
  let registry := GetMapperMap raw singleton_instance in
  match registry !! lower_name with
  | None => Some (Some registry, None, [no_such_mapper name])
  | Some mapper =>
      '(ok, mapper, log) ← SetParameters mapper chain parallel parameter;
      let registry := <[lower_name := mapper]> registry in
      if ok : bool then Some (Some registry, Some lower_name, log)
      else Some (Some registry, None, log)
  end.

End Registry.

(** ** Vocabulary of the properties *)

(** The coordinate that [MapVisibleToMatrix] stored lies in the matrix. *)
Definition in_matrix (matrix_width matrix_height : Z) (r : mapped) : Prop :=
  match r with
  | Written matrix_x matrix_y =>
      0 ≤ matrix_x < matrix_width ∧ 0 ≤ matrix_y < matrix_height
  | NotWritten => False
  end.

(** The function-local statics are not yet initialised or hold the size
    of the panels of the matrix in use. *)
Definition panel_size_current (s : statics) (pw ph : Z) : Prop :=
  (RotatePanelPixelMapper.panel_cols_ (rotate_panel_statics s) = None
   ∨ RotatePanelPixelMapper.panel_cols_ (rotate_panel_statics s) = Some pw)
  ∧ (RotatePanelPixelMapper.panel_rows_ (rotate_panel_statics s) = None
     ∨ RotatePanelPixelMapper.panel_rows_ (rotate_panel_statics s) = Some ph)
  ∧ (ReorderPixelMapper.panel_cols_ (reorder_statics s) = None
     ∨ ReorderPixelMapper.panel_cols_ (reorder_statics s) = Some pw)
  ∧ (ReorderPixelMapper.panel_rows_ (reorder_statics s) = None
     ∨ ReorderPixelMapper.panel_rows_ (reorder_statics s) = Some ph).

(** The uses the mappers are made for: Rotate-panel turns square panels
    by one of the four angles that [MapVisibleToMatrix] has a case for;
    the angle stored by Rotate is not negative; for Reorder, the pixel
    [(x, y)] lies on a panel without a registered destination. *)
Definition by_design (mapper : PixelMapper) (pw ph x y : Z) : Prop :=
  match mapper with
  | RotatePanel m =>
      pw = ph
      ∧ ∀ panel angle : Z,
          RotatePanelPixelMapper.panels_ m !! panel = Some angle →
          angle = 0 ∨ angle = 90 ∨ angle = 180 ∨ angle = 270
  | Reorder m =>
      ReorderPixelMapper.panels_ m
        !! (y ÷ ph * ReorderPixelMapper.chain_ m + x ÷ pw) = None
  | Rotate m => 0 ≤ RotatePixelMapper.angle_ m
  | RowArrangement _ | Mirror _ | UArrangement _ | Vertical _ => True
  end.

(** Every entry of the registry is kept under the lower-cased name of
    the mapper it holds. *)
Definition keyed_by_name (registry : gmap string PixelMapper) : Prop :=
  ∀ (key : string) (mapper : PixelMapper),
    registry !! key = Some mapper → key = CString.lower (GetName mapper).

(** [f], the [MapVisibleToMatrix] of a configured mapper on a matrix, sends
    different pixels of the visible area to different pixels. *)
Definition never_overlaps (f : Z → Z → option mapped) (vw vh : Z) : Prop :=
  ∀ (x y x' y' : Z) (r : mapped),
    0 ≤ x < vw → 0 ≤ y < vh → 0 ≤ x' < vw → 0 ≤ y' < vh →
    f x y = Some r → f x' y' = Some r → x = x' ∧ y = y'.

(** Every pixel of the matrix is where [f] sends exactly one pixel of the
    visible area. *)
Definition one_to_one (f : Z → Z → option mapped) (vw vh mw mh : Z)
    : Prop :=
  ∀ mx my : Z, 0 ≤ mx < mw → 0 ≤ my < mh →
    ∃ x y : Z,
      (0 ≤ x < vw ∧ 0 ≤ y < vh) ∧ f x y = Some (Written mx my)
      ∧ ∀ x' y' : Z, 0 ≤ x' < vw → 0 ≤ y' < vh →
          f x' y' = Some (Written mx my) → x' = x ∧ y' = y.

(** The banded modes of the Row-mapper fold the two end panels away:
    [row_hidden] is the width that is no longer visible, and the vertical
    band starts [row_shift], one panel, further into the row. *)
Definition row_hidden (mode : RowArrangementMapper.Mode) (pw : Z) : Z :=
  match mode with
  | RowArrangementMapper.normal => 0
  | RowArrangementMapper.band_horizontal
  | RowArrangementMapper.band_vertical => pw * 2
  end.

Definition row_shift (mode : RowArrangementMapper.Mode) (pw : Z) : Z :=
  match mode with
  | RowArrangementMapper.band_vertical => pw
  | RowArrangementMapper.normal
  | RowArrangementMapper.band_horizontal => 0
  end.

(** What a call of [SetParameters] may do to the table [panels_] of
    Rotate-panel and Reorder: an entry of [new] is the one that [old] has
    under the same panel number (none, if [old] has none), or it belongs
    to a panel number from 0 to [max] and holds a value that is [allowed]. *)
Definition table_extended (max : Z) (allowed : Z → Prop)
    (old new : gmap Z Z) : Prop :=
  ∀ panel : Z,
    new !! panel = old !! panel
    ∨ 0 ≤ panel ≤ max ∧ ∃ value : Z, new !! panel = Some value ∧ allowed value.

(** Memory with stale contents, as the constructors that leave members
    uninitialised may find it; used by the examples. *)
Definition stale_memory : Registry.raw_memory :=
  {| Registry.raw_row :=
       {| RowArrangementMapper.chain_ := 7;
          RowArrangementMapper.parallel_ := 7;
          RowArrangementMapper.mode_ := RowArrangementMapper.band_vertical |};
     Registry.raw_rotate_panel :=
       {| RotatePanelPixelMapper.chain_ := 7;
          RotatePanelPixelMapper.parallel_ := 7;
          RotatePanelPixelMapper.panels_ := <[0 := 90]> ∅ |};
     Registry.raw_reorder :=
       {| ReorderPixelMapper.chain_ := 7;
          ReorderPixelMapper.parallel_ := 7;
          ReorderPixelMapper.panels_ := <[0 := 1]> ∅ |};
     Registry.raw_vertical :=
       {| VerticalMapper.z_ := true; VerticalMapper.chain_ := 7;
          VerticalMapper.parallel_ := 7 |} |}.

(** Every token of digits in the items is a number that fits [int], so
    that [atoi] is defined on it. *)
Definition digits_representable (items : list string) : Prop :=
  ∀ item token : string,
    item ∈ items → token ∈ CString.tokens "|" item →
    CString.all_digits token = true → is_Some (CString.atoi token).


(** Two runs of the parsing loops that hold the same table and whose
    outputs differ by the messages [extra] printed after [printed]. *)
Definition related (printed extra : list diagnostic)
    (l l' : parse_locals) : Prop :=
  panels l = panels l'
  ∧ ∃ later, log l = printed ++ later ∧ log l' = printed ++ extra ++ later.

(** The items that the specification calls malformed or out of range, by
    their [|]-separated tokens: the first token has a character that is
    not a digit, or is an index above [max]; or, after a first token that
    is an index in range, the second has such a character or (for Reorder,
    [second_is_index]) is an index above [max]. *)
Definition malformed_or_out_of_range (second_is_index : bool) (max : Z)
    (tokens2 : list string) : Prop :=
  match tokens2 with
  | [] => False
  | token :: rest =>
      CString.all_digits token = false
      ∨ ∃ index : Z,
          CString.all_digits token = true ∧ CString.atoi token = Some index
          ∧ (index > max
             ∨ index ≤ max
               ∧ match rest with
                 | [] => False
                 | token' :: _ =>
                     CString.all_digits token' = false
                     ∨ second_is_index = true
                       ∧ ∃ index' : Z,
                           CString.all_digits token' = true
                           ∧ CString.atoi token' = Some index'
                           ∧ index' > max
                 end)
  end.

(** A well-formed item in range: two tokens of digits, the first an index
    [k] up to [max], the second the value [v]: an index up to [max] for
    Reorder ([second_is_index]), a multiple of 90 for Rotate-panel. *)
Definition well_formed_pair (second_is_index : bool) (max : Z)
    (tokens2 : list string) (k v : Z) : Prop :=
  ∃ token token' : string,
    tokens2 = [token; token']
    ∧ CString.all_digits token = true ∧ CString.atoi token = Some k
    ∧ k ≤ max
    ∧ CString.all_digits token' = true ∧ CString.atoi token' = Some v
    ∧ if second_is_index then v ≤ max else Z.rem v 90 = 0.

(** The parameter list as the specification reads it: a fold over the
    items that registers every well-formed pair in the table and skips,
    with one message each, the items that are malformed or out of range.
    [spec_parse b max items table table' n]: from [table] the items lead
    to [table'] and [n] messages. *)
Inductive spec_parse (second_is_index : bool) (max : Z)
    : list string → gmap Z Z → gmap Z Z → nat → Prop :=
| spec_parse_done (table : gmap Z Z) :
    spec_parse second_is_index max [] table table 0
| spec_parse_register (item : string) (items : list string) (k v : Z)
      (table table' : gmap Z Z) (n : nat) :
    well_formed_pair second_is_index max (CString.tokens "|" item) k v →
    spec_parse second_is_index max items (<[k := v]> table) table' n →
    spec_parse second_is_index max (item :: items) table table' n
| spec_parse_skip (item : string) (items : list string)
      (table table' : gmap Z Z) (n : nat) :
    malformed_or_out_of_range second_is_index max (CString.tokens "|" item) →
    spec_parse second_is_index max items table table' n →
    spec_parse second_is_index max (item :: items) table table' (S n).

(** * Properties *)

(** ** The embedding at work *)

Example tokens_of_parameter :
  CString.tokens "," "0|90,,2|180," = ["0|90"; "2|180"]
  ∧ CString.tokens "|" "0|90" = ["0"; "90"]
  ∧ CString.tokens "," "" = [].
Proof. repeat split; reflexivity. Qed.

Example strtol_stops_at_first_other_character :
  CString.strtol " -450x" = (Some (-450), "x")
  ∧ CString.strtol "+" = (Some 0, "+")
  ∧ CString.strtol "99999999999" = (None, "").
Proof. repeat split; reflexivity. Qed.

(** Rotate-panel with chain = 2, parallel = 1 and the parameter [0|90] on
    a 64 × 32 matrix: the pixel (0, 0) of panel 0 goes to (31, 0), a pixel
    of panel 1 stays where it is. *)
Example rotate_panel_one_of_two (raw : RotatePanelPixelMapper.t) :
  ∃ self : RotatePanelPixelMapper.t,
    RotatePanelPixelMapper.SetParameters (RotatePanelPixelMapper.new raw)
      2 1 (Some "0|90") = Some (true, self, [])
    ∧ snd <$> RotatePanelPixelMapper.MapVisibleToMatrix self
                RotatePanelPixelMapper.uninitialised 64 32 0 0
      = Some (Written 31 0)
    ∧ snd <$> RotatePanelPixelMapper.MapVisibleToMatrix self
                RotatePanelPixelMapper.uninitialised 64 32 40 5
      = Some (Written 40 5).
Proof. eexists. repeat split; reflexivity. Qed.

(** Reorder with chain = 2, parallel = 3, where [parallel_ - 1] happens to
    be the chain length: panels 1 and 3 change places. *)
Example reorder_swaps_two_panels (raw : ReorderPixelMapper.t) :
  ∃ self : ReorderPixelMapper.t,
    ReorderPixelMapper.SetParameters (ReorderPixelMapper.new raw)
      2 3 (Some "1|3,3|1") = Some (true, self, [])
    ∧ snd <$> ReorderPixelMapper.MapVisibleToMatrix self
                ReorderPixelMapper.uninitialised 64 96 33 2
      = Some (Written 33 34)
    ∧ snd <$> ReorderPixelMapper.MapVisibleToMatrix self
                ReorderPixelMapper.uninitialised 64 96 33 34
      = Some (Written 33 2).
Proof. eexists. repeat split; reflexivity. Qed.

Example row_mapper_one_long_row :
  RowArrangementMapper.MapVisibleToMatrix
    {| RowArrangementMapper.chain_ := 2;
       RowArrangementMapper.parallel_ := 3;
       RowArrangementMapper.mode_ := RowArrangementMapper.normal |}
    64 96 130 5 = Some (Written 2 69).
Proof. reflexivity. Qed.

Example rotate_normalises_one_turn_only :
  RotatePixelMapper.SetParameters RotatePixelMapper.new 1 1 (Some "-90")
    = Some (true, {| RotatePixelMapper.angle_ := 270 |}, [])
  ∧ RotatePixelMapper.SetParameters RotatePixelMapper.new 1 1 (Some "-450")
    = Some (true, {| RotatePixelMapper.angle_ := -90 |}, []).
Proof. split; reflexivity. Qed.

(** ** Arithmetic without undefined behaviour *)

Lemma of_Z_Some (z : Z) :
  Int.INT_MIN ≤ z ≤ Int.INT_MAX → Int.of_Z z = Some z.
Proof.
  intros [Hlo Hhi]. unfold Int.of_Z, Int.in_range.
  apply Z.leb_le in Hlo, Hhi. by rewrite Hlo, Hhi.
Qed.

Lemma of_Z_inv (z v : Z) :
  Int.of_Z z = Some v → v = z ∧ Int.INT_MIN ≤ z ≤ Int.INT_MAX.
Proof.
  unfold Int.of_Z, Int.in_range.
  destruct (Int.INT_MIN <=? z) eqn:Hlo, (z <=? Int.INT_MAX) eqn:Hhi;
    simpl; intros [= <-].
  apply Z.leb_le in Hlo, Hhi. done.
Qed.

Lemma quot_bounds (a b : Z) :
  0 ≤ a → 0 < b → 0 ≤ a ÷ b ∧ b * (a ÷ b) ≤ a < b * (a ÷ b) + b.
Proof.
  intros Ha Hb. rewrite Z.quot_div_nonneg by lia.
  pose proof (Z.div_pos a b Ha Hb).
  pose proof (Z.mul_div_le a b Hb).
  pose proof (Z.mul_succ_div_gt a b Hb). lia.
Qed.

Lemma quot_le (a b : Z) : 0 ≤ a → 0 < b → a ÷ b ≤ a.
Proof.
  intros Ha Hb. pose proof (quot_bounds a b Ha Hb).
  assert (0 ≤ (b - 1) * (a ÷ b)) by (apply Z.mul_nonneg_nonneg; lia).
  lia.
Qed.

Lemma rem_eq (a b : Z) : b ≠ 0 → Z.rem a b = a - b * (a ÷ b).
Proof. intros Hb. pose proof (Z.quot_rem a b Hb). lia. Qed.

Lemma quot_mul_add (q b r : Z) :
  0 < b → 0 ≤ q → 0 ≤ r < b → (b * q + r) ÷ b = q.
Proof.
  intros Hb Hq Hr. rewrite Z.quot_div_nonneg by nia.
  symmetry. apply (Z.div_unique _ _ q r); lia.
Qed.

(** Unfolds the [int] operators of an expression down to [Int.of_Z] and
    the tests for a zero divisor. *)
#[global] Arguments Int.add : simpl never.
#[global] Arguments Int.sub : simpl never.
#[global] Arguments Int.mul : simpl never.
#[global] Arguments Int.div : simpl never.
#[global] Arguments Int.rem : simpl never.

Ltac int_unfold :=
  unfold Int.add, Int.sub, Int.mul, Int.div, Int.rem,
    Int.eval, Int.operand_value, Int.operand_expr;
  cbn [mbind option_bind id].

(** Discharges the next representability side condition or zero test of a
    computation with [tac] and moves on. *)
Ltac int_step tac :=
  match goal with
  | |- context [Int.of_Z ?z] =>
      rewrite (of_Z_Some z) by tac; cbn [mbind option_bind id]
  | |- context [decide (?a = 0)] =>
      rewrite (decide_False (P := a = 0)) by tac; cbn [mbind option_bind id]
  end.

Ltac int_eval tac := int_unfold; repeat int_step tac.

Ltac range := unfold Int.INT_MIN, Int.INT_MAX in *; lia.

(** ** Rotate: rotating back *)

(** C3.  Let the Rotate mapper be configured with an angle θ of 90, 180 or
    270 and map the visible coordinates of size [vw × vh] onto a matrix of
    size [mw × mh].  A second Rotate mapper configured with 360 − θ, used
    with the dimensions that correspond (its matrix is [vw × vh], its
    visible size then is [mw × mh]), takes the image of every visible
    [(x, y)] back to [(x, y)]. *)
Theorem C3_rotate_round_trip
    (theta back : string) (fwd bwd : RotatePixelMapper.t)
    (chain parallel mw mh vw vh x y : Z) :
  (theta, back) ∈ [("90", "270"); ("180", "180"); ("270", "90")] →
  RotatePixelMapper.SetParameters RotatePixelMapper.new chain parallel
    (Some theta) = Some (true, fwd, []) →
  RotatePixelMapper.SetParameters RotatePixelMapper.new chain parallel
    (Some back) = Some (true, bwd, []) →
  0 < mw ≤ Int.INT_MAX → 0 < mh ≤ Int.INT_MAX →
  RotatePixelMapper.GetSizeMapping fwd mw mh = Some (true, (vw, vh), []) →
  0 ≤ x < vw → 0 ≤ y < vh →
  ∃ mx my : Z,
    RotatePixelMapper.MapVisibleToMatrix fwd mw mh x y
      = Some (Written mx my)
    ∧ RotatePixelMapper.GetSizeMapping bwd vw vh
      = Some (true, (mw, mh), [])
    ∧ RotatePixelMapper.MapVisibleToMatrix bwd vw vh mx my
      = Some (Written x y).
Proof.
  intros Hin Hfwd Hbwd Hmw Hmh Hsize Hx Hy.
  rewrite !elem_of_cons, elem_of_nil in Hin.
  destruct Hin as [[= -> ->] | [[= -> ->] | [[= -> ->] | []]]];
    vm_compute in Hfwd, Hbwd;
    injection Hfwd as <-; injection Hbwd as <-;
    vm_compute in Hsize; injection Hsize as <- <-.
  - exists (mw - y - 1), x.
    unfold RotatePixelMapper.MapVisibleToMatrix,
      RotatePixelMapper.GetSizeMapping; simpl.
    int_eval range. repeat split; try done.
    do 2 f_equal. lia.
  - exists (mw - x - 1), (mh - y - 1).
    unfold RotatePixelMapper.MapVisibleToMatrix,
      RotatePixelMapper.GetSizeMapping; simpl.
    int_eval range. repeat split; try done.
    f_equal. f_equal; lia.
  - exists y, (mh - x - 1).
    unfold RotatePixelMapper.MapVisibleToMatrix,
      RotatePixelMapper.GetSizeMapping; simpl.
    int_eval range. repeat split; try done.
    do 2 f_equal. lia.
Qed.

Lemma C3_rotate_round_trip_witness :
  ∃ mx my : Z,
    RotatePixelMapper.MapVisibleToMatrix
      {| RotatePixelMapper.angle_ := 90 |} 64 32 5 7 = Some (Written mx my)
    ∧ RotatePixelMapper.GetSizeMapping
        {| RotatePixelMapper.angle_ := 270 |} 32 64
      = Some (true, (64, 32), [])
    ∧ RotatePixelMapper.MapVisibleToMatrix
        {| RotatePixelMapper.angle_ := 270 |} 32 64 mx my
      = Some (Written 5 7).
Proof.
  apply (C3_rotate_round_trip "90" "270"
           {| RotatePixelMapper.angle_ := 90 |}
           {| RotatePixelMapper.angle_ := 270 |} 2 1 64 32 32 64 5 7).
  - apply list_elem_of_In. simpl. left. reflexivity.
  - reflexivity.
  - reflexivity.
  - unfold Int.INT_MAX. lia.
  - unfold Int.INT_MAX. lia.
  - reflexivity.
  - lia.
  - lia.
Defined.


(** ** Row-mapper: configuration and size *)

(** What a successful [SetParameters] leaves in a Row-mapper. *)
Lemma row_configured (self0 self : RowArrangementMapper.t)
    (chain parallel : Z) (param : option string) (log : list diagnostic) :
  RowArrangementMapper.SetParameters self0 chain parallel param
    = Some (true, self, log) →
  2 ≤ parallel
  ∧ RowArrangementMapper.chain_ self = chain
  ∧ RowArrangementMapper.parallel_ self = parallel.
Proof.
  unfold RowArrangementMapper.SetParameters. intros H.
  repeat (case_decide || case_match); simplify_eq; simpl; lia.
Qed.

(** C8.  For a Row-mapper that [SetParameters] has configured,
    [GetSizeMapping] returns [matrix_height / parallel] as the visible
    height in every mode, [matrix_width * parallel] as the visible width in
    normal mode and [matrix_width * parallel - 2 * (matrix_width / chain)]
    in both banded modes; with parallel = 3 in normal mode a 192 × 32
    matrix gives 576 × 10. *)
Theorem C8_row_size_mapping (self0 self : RowArrangementMapper.t)
    (chain parallel : Z) (param : option string) (log : list diagnostic)
    (mw mh : Z) :
  RowArrangementMapper.SetParameters self0 chain parallel param
    = Some (true, self, log) →
  0 < chain → 0 ≤ mw → 0 ≤ mh ≤ Int.INT_MAX →
  mw * parallel ≤ Int.INT_MAX →
  RowArrangementMapper.GetSizeMapping self mw mh
    = Some (true,
            (match RowArrangementMapper.mode_ self with
             | RowArrangementMapper.normal => mw * parallel
             | RowArrangementMapper.band_horizontal
             | RowArrangementMapper.band_vertical =>
                 mw * parallel - (mw ÷ chain) * 2
             end,
             mh ÷ parallel), [])
  ∧ (RowArrangementMapper.mode_ self = RowArrangementMapper.normal →
     parallel = 3 → mw = 192 → mh = 32 →
     RowArrangementMapper.GetSizeMapping self mw mh
       = Some (true, (576, 10), [])).
Proof.
  intros Hset Hchain Hmw Hmh Hprod.
  destruct (row_configured _ _ _ _ _ _ Hset) as (Hpar & Hc & Hp).
  assert (Hsize : RowArrangementMapper.GetSizeMapping self mw mh
    = Some (true,
            (match RowArrangementMapper.mode_ self with
             | RowArrangementMapper.normal => mw * parallel
             | _ => mw * parallel - (mw ÷ chain) * 2
             end,
             mh ÷ parallel), [])).
  { unfold RowArrangementMapper.GetSizeMapping. rewrite Hc, Hp.
    pose proof (quot_bounds mw chain Hmw Hchain).
    pose proof (quot_bounds mh parallel (proj1 Hmh) ltac:(lia)).
    assert (2 * mw ≤ mw * parallel) by nia.
    pose proof (quot_le mw chain Hmw Hchain).
    pose proof (quot_le mh parallel (proj1 Hmh) ltac:(lia)).
    destruct (RowArrangementMapper.mode_ self);
      int_eval range; reflexivity. }
  split; [exact Hsize |].
  intros Hmode -> -> ->. rewrite Hsize, Hmode. reflexivity.
Qed.

Lemma C8_row_size_mapping_witness :
  RowArrangementMapper.GetSizeMapping
    {| RowArrangementMapper.chain_ := 2;
       RowArrangementMapper.parallel_ := 3;
       RowArrangementMapper.mode_ := RowArrangementMapper.band_horizontal |}
    192 96
  = Some (true, (192 * 3 - (192 ÷ 2) * 2, 96 ÷ 3), []).
Proof.
  refine (proj1 (C8_row_size_mapping
    (RowArrangementMapper.new
       {| RowArrangementMapper.chain_ := 0;
          RowArrangementMapper.parallel_ := 0;
          RowArrangementMapper.mode_ := RowArrangementMapper.normal |})
    _ 2 3 (Some "H") [] 192 96 _ _ _ _ _)).
  - reflexivity.
  - lia.
  - lia.
  - unfold Int.INT_MAX. lia.
  - unfold Int.INT_MAX. lia.
Defined.

(** A parameter of more than one character is reported and then accepted
    as the normal mode: the branch prints and falls through to the stores. *)
Lemma row_long_parameter_accepted (self : RowArrangementMapper.t)
    (chain parallel : Z) (p : string) :
  2 ≤ parallel → (1 < String.length p)%nat →
  RowArrangementMapper.SetParameters self chain parallel (Some p)
    = Some (true,
            {| RowArrangementMapper.chain_ := chain;
               RowArrangementMapper.parallel_ := parallel;
               RowArrangementMapper.mode_ := RowArrangementMapper.normal |},
            [single_character_expected "Row-mapper"]).
Proof.
  intros Hpar Hlen. unfold RowArrangementMapper.SetParameters, CString.strlen.
  rewrite decide_False by lia. rewrite decide_False by lia.
  rewrite decide_True by lia. reflexivity.
Qed.

(** A parameter of one character is accepted exactly when it is one of
    [V], [v], [H], [h]. *)
Lemma row_single_character (self : RowArrangementMapper.t)
    (chain parallel : Z) (c : ascii) :
  2 ≤ parallel →
  (∃ m log, RowArrangementMapper.SetParameters self chain parallel
              (Some (String c EmptyString)) = Some (true, m, log))
  ↔ c ∈ ["V"; "v"; "H"; "h"]%char.
Proof.
  intros Hpar. unfold RowArrangementMapper.SetParameters. simpl.
  rewrite decide_False by lia.
  rewrite !elem_of_cons, elem_of_nil. split.
  - intros (m & log & H). repeat case_match; simplify_eq;
      repeat ((left; reflexivity) || right).
  - intros [-> | [-> | [-> | [-> | []]]]]; by eexists _, _.
Qed.

(** C7.  The claim wants every parameter of several characters refused.
    With parallel = 2 the parameter [HV] prints the message about a single
    character and is then accepted: [SetParameters] returns [true] and the
    mapper is in normal mode. *)
Theorem C7_row_multi_character_accepted (raw : RowArrangementMapper.t) :
  RowArrangementMapper.SetParameters (RowArrangementMapper.new raw) 2 2
    (Some "HV")
  = Some (true,
          {| RowArrangementMapper.chain_ := 2;
             RowArrangementMapper.parallel_ := 2;
             RowArrangementMapper.mode_ := RowArrangementMapper.normal |},
          [single_character_expected "Row-mapper"]).
Proof. reflexivity. Qed.

(** ** Rotate-panel: what is stored, and the cached panel size *)

(** C2.  The claim wants the token [0|360] to register rotation 0 for
    panel 0.  [SetParameters] stores the angle as written, 360, and
    [MapVisibleToMatrix] then finds no case for it and leaves its outputs
    unwritten. *)
Theorem C2_rotation_stored_as_written (raw : RotatePanelPixelMapper.t) :
  ∃ self : RotatePanelPixelMapper.t,
    RotatePanelPixelMapper.SetParameters (RotatePanelPixelMapper.new raw)
      1 1 (Some "0|360") = Some (true, self, [])
    ∧ RotatePanelPixelMapper.panels_ self !! 0 = Some 360
    ∧ RotatePanelPixelMapper.MapVisibleToMatrix self
        RotatePanelPixelMapper.uninitialised 32 32 0 0
      = Some ({| RotatePanelPixelMapper.panel_cols_ := Some 32;
                 RotatePanelPixelMapper.panel_rows_ := Some 32 |},
              NotWritten).
Proof. eexists. repeat split; reflexivity. Qed.

(** C4.  The claim wants the result of [MapVisibleToMatrix] to depend on
    the arguments of the current call and the configuration only.  The
    panel size is a function-local static: after a first call with a
    32 × 32 matrix, a call with a 64 × 64 matrix (one panel, rotated by 90
    degrees) still divides by 32 and returns (40, 0) for the pixel (40, 0),
    where the same call made first returns (63, 40).  Reorder does the
    same: (40, 0) instead of (40, 64). *)
Theorem C4_panel_size_kept_from_first_call
    (raw : RotatePanelPixelMapper.t) (raw' : ReorderPixelMapper.t) :
  (∃ (self : RotatePanelPixelMapper.t)
     (s0 s1 s2 : RotatePanelPixelMapper.statics) (first : mapped),
     RotatePanelPixelMapper.SetParameters (RotatePanelPixelMapper.new raw)
       1 1 (Some "0|90") = Some (true, self, [])
     ∧ s0 = RotatePanelPixelMapper.uninitialised
     ∧ RotatePanelPixelMapper.MapVisibleToMatrix self s0 32 32 0 0
       = Some (s1, first)
     ∧ RotatePanelPixelMapper.MapVisibleToMatrix self s1 64 64 40 0
       = Some (s1, Written 40 0)
     ∧ RotatePanelPixelMapper.MapVisibleToMatrix self s0 64 64 40 0
       = Some (s2, Written 63 40))
  ∧ (∃ (self : ReorderPixelMapper.t)
       (s0 s1 s2 : ReorderPixelMapper.statics) (first : mapped),
       ReorderPixelMapper.SetParameters (ReorderPixelMapper.new raw')
         1 2 (Some "0|1") = Some (true, self, [])
       ∧ s0 = ReorderPixelMapper.uninitialised
       ∧ ReorderPixelMapper.MapVisibleToMatrix self s0 32 64 0 0
         = Some (s1, first)
       ∧ ReorderPixelMapper.MapVisibleToMatrix self s1 64 128 40 0
         = Some (s1, Written 40 0)
       ∧ ReorderPixelMapper.MapVisibleToMatrix self s0 64 128 40 0
         = Some (s2, Written 40 64)).
Proof.
  split; do 5 eexists; repeat split; reflexivity.
Qed.

(** ** The registry: lookup by name *)

(** Names that agree up to case find the same entry and leave the same
    registry; only the message for an unknown name quotes the spelling. *)
Lemma find_by_lower_name (raw : Registry.raw_memory)
    (singleton : option Registry.MapperByName) (name name' : string)
    (chain parallel : Z) (param : option string) :
  CString.lower name = CString.lower name' →
  (λ r, (r.1.1, r.1.2)) <$>
    Registry.FindPixelMapper raw singleton name chain parallel param
  = (λ r, (r.1.1, r.1.2)) <$>
    Registry.FindPixelMapper raw singleton name' chain parallel param.
Proof.
  intros Hlow. unfold Registry.FindPixelMapper. rewrite Hlow.
  destruct (Registry.GetMapperMap raw singleton !! CString.lower name');
    reflexivity.
Qed.

(** C9.  [FindPixelMapper] with the names [ROW-MAPPER] and [row-mapper]
    returns the same mapper and leaves the same registry, whatever the
    registry holds; in a fresh process and with parallel at least 2 that
    mapper is the Row-mapper, configured.  With the unknown name
    [no-such-mapper] it returns NULL, having only printed a message. *)
Theorem C9_find_pixel_mapper_by_name (raw : Registry.raw_memory)
    (singleton : option Registry.MapperByName)
    (chain parallel : Z) (param : option string) :
  (λ r, (r.1.1, r.1.2)) <$>
    Registry.FindPixelMapper raw singleton "ROW-MAPPER" chain parallel param
  = (λ r, (r.1.1, r.1.2)) <$>
    Registry.FindPixelMapper raw singleton "row-mapper" chain parallel param
  ∧ (∀ upper : bool,
       let name := if upper then "ROW-MAPPER" else "row-mapper" in
       if decide (parallel < 2) then
         ∃ registry,
           Registry.FindPixelMapper raw None name chain parallel None
           = Some (Some registry, None, [need_parallel_2 "Row-mapper"])
       else
         ∃ registry,
           Registry.FindPixelMapper raw None name chain parallel None
           = Some (Some registry, Some "row-mapper", [])
           ∧ registry !! "row-mapper"
             = Some (RowArrangement
                 {| RowArrangementMapper.chain_ := chain;
                    RowArrangementMapper.parallel_ := parallel;
                    RowArrangementMapper.mode_ :=
                      RowArrangementMapper.normal |}))
  ∧ Registry.FindPixelMapper raw None "no-such-mapper" chain parallel param
    = Some (Some (Registry.CreateMapperMap raw), None,
            [no_such_mapper "no-such-mapper"]).
Proof.
  split; [by apply find_by_lower_name |]. split.
  - assert (Hrow : ∀ name, CString.lower name = "row-mapper" →
      Registry.GetMapperMap raw None !! CString.lower name
      = Some (RowArrangement (RowArrangementMapper.new (Registry.raw_row raw)))).
    { intros name ->. reflexivity. }
    intros upper name.
    assert (Hname : CString.lower name = "row-mapper")
      by (destruct upper; reflexivity).
    unfold Registry.FindPixelMapper. rewrite (Hrow name Hname), Hname.
    unfold SetParameters, RowArrangementMapper.SetParameters.
    case_decide; simpl; eexists; [reflexivity |].
    split; [reflexivity |]. apply lookup_insert_eq.
  - reflexivity.
Qed.

(** ** Panels of a matrix that is a whole number of panels *)

(** The panel size that [MapVisibleToMatrix] works with, whether this is
    the call that initialises the static or a later call on a matrix of
    the same panel size. *)
Lemma static_panel_size (slot : option Z) (count size : Z) :
  0 < count → 0 < size → count * size ≤ Int.INT_MAX →
  slot = None ∨ slot = Some size →
  static_init slot (count * size /ᵢ count) = Some size.
Proof.
  intros Hcount Hsize Hmax [-> | ->]; [| reflexivity]. simpl.
  assert (Hq : (count * size) ÷ count = size)
    by (rewrite Z.mul_comm; apply Z.quot_mul; lia).
  int_unfold. rewrite decide_False by lia. rewrite Hq.
  apply of_Z_Some. assert (size ≤ count * size) by nia. range.
Qed.

(** The panel a coordinate lies on, and its position inside that panel. *)
Lemma panel_of_coordinate (count size x : Z) :
  0 < size → 0 ≤ x < count * size →
  0 ≤ x ÷ size < count ∧ 0 ≤ x - size * (x ÷ size) < size.
Proof.
  intros Hsize Hx. pose proof (quot_bounds x size (proj1 Hx) Hsize).
  split; [| lia]. split; [lia |]. nia.
Qed.

(** [x % (panel_nr * size)] is the position of [x] inside its panel when
    the panel is not the first one. *)
Lemma rem_by_panel_start (size x : Z) :
  0 < size → 0 ≤ x → x ÷ size ≠ 0 →
  Z.rem x (x ÷ size * size) = x - size * (x ÷ size).
Proof.
  intros Hsize Hx Hnr. pose proof (quot_bounds x size Hx Hsize).
  set (q := x ÷ size) in *.
  assert (Hq : x ÷ (q * size) = 1).
  { replace x with ((q * size) * 1 + (x - q * size)) at 1 by lia.
    apply quot_mul_add; nia. }
  rewrite rem_eq by nia. rewrite Hq. lia.
Qed.

Lemma position_in_panel (size x : Z) :
  0 < size → 0 ≤ x ≤ Int.INT_MAX →
  (if decide (x ÷ size = 0) then Some x else x %ᵢ (x ÷ size *ᵢ size))
  = Some (x - size * (x ÷ size)).
Proof.
  intros Hsize Hx. pose proof (quot_bounds x size (proj1 Hx) Hsize).
  case_decide as Hnr; [rewrite Hnr; f_equal; lia |].
  pose proof (rem_by_panel_start size x Hsize (proj1 Hx) Hnr) as Hrem.
  assert (Hq : x ÷ (x ÷ size * size) = 1).
  { pose proof (Z.quot_rem x (x ÷ size * size) ltac:(nia)). nia. }
  int_unfold. rewrite (of_Z_Some (x ÷ size * size)) by range. simpl.
  rewrite decide_False by nia. rewrite Hq, Hrem. reflexivity.
Qed.

(** ** Reorder: the computation on a matrix of whole panels *)

Section reorder_whole_panels.
Variables (self : ReorderPixelMapper.t) (s : ReorderPixelMapper.statics).
Variables (chain parallel pw ph x y : Z).
Hypothesis Hchain : ReorderPixelMapper.chain_ self = chain.
Hypothesis Hparallel : ReorderPixelMapper.parallel_ self = parallel.
Hypothesis Hc : 0 < chain.
Hypothesis Hp : 0 < parallel.
Hypothesis Hpw : 0 < pw.
Hypothesis Hph : 0 < ph.
Hypothesis Hwidth : chain * pw ≤ Int.INT_MAX.
Hypothesis Hheight : parallel * ph ≤ Int.INT_MAX.
Hypothesis Hcount : chain * parallel ≤ Int.INT_MAX.
Hypothesis Hcols : ReorderPixelMapper.panel_cols_ s = None
                   ∨ ReorderPixelMapper.panel_cols_ s = Some pw.
Hypothesis Hrows : ReorderPixelMapper.panel_rows_ s = None
                   ∨ ReorderPixelMapper.panel_rows_ s = Some ph.
Hypothesis Hx : 0 ≤ x < chain * pw.
Hypothesis Hy : 0 ≤ y < parallel * ph.

(** Up to the lookup in [panels_] nothing is undefined; what remains is
    the computation of the destination. *)
Lemma reorder_on_whole_panels :
  ReorderPixelMapper.MapVisibleToMatrix self s
    (chain * pw) (parallel * ph) x y
  = let s' := {| ReorderPixelMapper.panel_cols_ := Some pw;
                 ReorderPixelMapper.panel_rows_ := Some ph |} in
    match ReorderPixelMapper.panels_ self !! (y ÷ ph * chain + x ÷ pw) with
    | Some panel_to_index =>
        panel_to_x_index ← panel_to_index %ᵢ (parallel -ᵢ 1);
        panel_to_y_index ← panel_to_index /ᵢ (parallel -ᵢ 1);
        matrix_x ← (panel_to_x_index *ᵢ pw) +ᵢ (x - pw * (x ÷ pw));
        matrix_y ← (panel_to_y_index *ᵢ ph) +ᵢ (y - ph * (y ÷ ph));
        Some (s', Written matrix_x matrix_y)
    | None => Some (s', Written x y)
    end.
Proof.
  unfold ReorderPixelMapper.MapVisibleToMatrix.
  rewrite Hchain, Hparallel.
  rewrite (static_panel_size _ chain pw), (static_panel_size _ parallel ph)
    by done.
  cbn [mbind option_bind].
  destruct (panel_of_coordinate chain pw x Hpw Hx) as [Hnx Hpx].
  destruct (panel_of_coordinate parallel ph y Hph Hy) as [Hny Hpy].
  assert (Hidx : 0 ≤ y ÷ ph * chain ∧ y ÷ ph * chain + x ÷ pw
                   < chain * parallel) by nia.
  assert (Hxq : x /ᵢ pw = Some (x ÷ pw)) by (int_eval range; done).
  assert (Hyq : y /ᵢ ph = Some (y ÷ ph)) by (int_eval range; done).
  rewrite Hxq, Hyq. cbn [mbind option_bind].
  assert (Hnr : y ÷ ph *ᵢ chain +ᵢ x ÷ pw
                = Some (y ÷ ph * chain + x ÷ pw))
    by (int_eval range; done).
  rewrite Hnr. cbn [mbind option_bind].
  destruct (ReorderPixelMapper.panels_ self !! _) as [to|]; [| done].
  rewrite (position_in_panel pw x), (position_in_panel ph y) by range.
  destruct (to %ᵢ (parallel -ᵢ 1)) as [to_x|]; [| done].
  cbn [mbind option_bind].
  destruct (to /ᵢ (parallel -ᵢ 1)) as [to_y|]; done.
Qed.

(** With [parallel_] at least 2 the destination is computed from
    [panel_to_index % (parallel_ - 1)] and
    [panel_to_index / (parallel_ - 1)]. *)
Lemma reorder_destination (panel_to_index : Z) :
  ReorderPixelMapper.panels_ self !! (y ÷ ph * chain + x ÷ pw)
    = Some panel_to_index →
  2 ≤ parallel → 0 ≤ panel_to_index ≤ Int.INT_MAX →
  Z.rem panel_to_index (parallel - 1) * pw + pw ≤ Int.INT_MAX →
  panel_to_index ÷ (parallel - 1) * ph + ph ≤ Int.INT_MAX →
  ReorderPixelMapper.MapVisibleToMatrix self s
    (chain * pw) (parallel * ph) x y
  = Some ({| ReorderPixelMapper.panel_cols_ := Some pw;
             ReorderPixelMapper.panel_rows_ := Some ph |},
          Written
            (Z.rem panel_to_index (parallel - 1) * pw
             + (x - pw * (x ÷ pw)))
            (panel_to_index ÷ (parallel - 1) * ph
             + (y - ph * (y ÷ ph)))).
Proof.
  intros Hto Hpar Hidx Hmx Hmy.
  rewrite reorder_on_whole_panels, Hto. cbn zeta.
  destruct (panel_of_coordinate chain pw x Hpw Hx) as [Hnx Hpx].
  destruct (panel_of_coordinate parallel ph y Hph Hy) as [Hny Hpy].
  pose proof (quot_bounds panel_to_index (parallel - 1)
                (proj1 Hidx) ltac:(lia)) as Hq.
  pose proof (quot_le panel_to_index (parallel - 1)
                (proj1 Hidx) ltac:(lia)) as Hle.
  pose proof (rem_eq panel_to_index (parallel - 1) ltac:(lia)) as Hrem.
  assert (0 ≤ Z.rem panel_to_index (parallel - 1) * pw) by nia.
  assert (0 ≤ panel_to_index ÷ (parallel - 1) * ph) by nia.
  int_eval range. reflexivity.
Qed.

(** With [parallel_] equal to 1 both operations divide by zero. *)
Lemma reorder_division_by_zero (panel_to_index : Z) :
  ReorderPixelMapper.panels_ self !! (y ÷ ph * chain + x ÷ pw)
    = Some panel_to_index →
  parallel = 1 →
  ReorderPixelMapper.MapVisibleToMatrix self s
    (chain * pw) (parallel * ph) x y = None.
Proof.
  intros Hto Hpar. rewrite reorder_on_whole_panels, Hto, Hpar.
  reflexivity.
Qed.

End reorder_whole_panels.

(** [SetParameters] of Reorder has no failing path, whatever the topology. *)
Lemma reorder_configured (self0 self : ReorderPixelMapper.t)
    (chain parallel : Z) (param : option string) (ok : bool)
    (log : list diagnostic) :
  ReorderPixelMapper.SetParameters self0 chain parallel param
    = Some (ok, self, log) →
  ok = true
  ∧ ReorderPixelMapper.chain_ self = chain
  ∧ ReorderPixelMapper.parallel_ self = parallel.
Proof.
  unfold ReorderPixelMapper.SetParameters. destruct param as [p|].
  - destruct (chain *ᵢ parallel) as [count|]; [| done]. simpl.
    destruct (ReorderPixelMapper.item_loop _ _ _) as [l|]; [| done]. simpl.
    intros [= <- <- <-]. done.
  - intros [= <- <- <-]. done.
Qed.

(** C5.  [SetParameters] of Reorder accepts parallel = 1 like any other
    topology.  On a mapper so configured, for every pixel of the matrix
    that lies on a panel with a registered destination,
    [MapVisibleToMatrix] takes the remainder and the quotient by
    [parallel_ - 1] = 0: its behaviour is undefined.  With parallel at
    least 2 (and the products below representable) the same call is
    defined and stores a result. *)
Theorem C5_reorder_divides_by_parallel_minus_1
    (self0 self : ReorderPixelMapper.t) (s : ReorderPixelMapper.statics)
    (chain parallel : Z) (param : option string) (ok : bool)
    (log : list diagnostic) (pw ph x y panel_to_index : Z) :
  ReorderPixelMapper.SetParameters self0 chain parallel param
    = Some (ok, self, log) →
  0 < chain → 0 < parallel → 0 < pw → 0 < ph →
  chain * pw ≤ Int.INT_MAX → parallel * ph ≤ Int.INT_MAX →
  chain * parallel ≤ Int.INT_MAX →
  ReorderPixelMapper.panel_cols_ s = None
    ∨ ReorderPixelMapper.panel_cols_ s = Some pw →
  ReorderPixelMapper.panel_rows_ s = None
    ∨ ReorderPixelMapper.panel_rows_ s = Some ph →
  0 ≤ x < chain * pw → 0 ≤ y < parallel * ph →
  ReorderPixelMapper.panels_ self !! (y ÷ ph * chain + x ÷ pw)
    = Some panel_to_index →
  0 ≤ panel_to_index < chain * parallel →
  ok = true
  ∧ (parallel = 1 →
     ReorderPixelMapper.MapVisibleToMatrix self s
       (chain * pw) (parallel * ph) x y = None)
  ∧ (2 ≤ parallel →
     parallel * pw ≤ Int.INT_MAX → chain * parallel * ph ≤ Int.INT_MAX →
     ∃ (s' : ReorderPixelMapper.statics) (matrix_x matrix_y : Z),
       ReorderPixelMapper.MapVisibleToMatrix self s
         (chain * pw) (parallel * ph) x y
       = Some (s', Written matrix_x matrix_y)).
Proof.
  intros Hset Hc Hp Hpw Hph Hw Hh Hcount Hcols Hrows Hx Hy Hto Hidx.
  destruct (reorder_configured _ _ _ _ _ _ _ Hset) as (-> & Hchain & Hpar).
  split; [done |]. split.
  - intros H1. by eapply reorder_division_by_zero.
  - intros H2 Hpw' Hph'. do 3 eexists.
    eapply reorder_destination; try done; try lia.
    + pose proof (Z.rem_bound_pos panel_to_index (parallel - 1)
                    ltac:(lia) ltac:(lia)). nia.
    + pose proof (quot_le panel_to_index (parallel - 1)
                    ltac:(lia) ltac:(lia)). nia.
Qed.

Lemma C5_reorder_divides_by_parallel_minus_1_witness :
  ReorderPixelMapper.MapVisibleToMatrix
    {| ReorderPixelMapper.chain_ := 2; ReorderPixelMapper.parallel_ := 1;
       ReorderPixelMapper.panels_ := {[ 0 := 1 ]} |}
    ReorderPixelMapper.uninitialised (2 * 32) (1 * 32) 5 7 = None.
Proof.
  refine (proj1 (proj2 (C5_reorder_divides_by_parallel_minus_1
    {| ReorderPixelMapper.chain_ := 0; ReorderPixelMapper.parallel_ := 0;
       ReorderPixelMapper.panels_ := ∅ |} _
    ReorderPixelMapper.uninitialised 2 1 (Some "0|1") true []
    32 32 5 7 1 _ _ _ _ _ _ _ _ _ _ _ _ _ _)) _).
  - reflexivity.
  - lia.
  - lia.
  - lia.
  - lia.
  - unfold Int.INT_MAX. lia.
  - unfold Int.INT_MAX. lia.
  - unfold Int.INT_MAX. lia.
  - left. reflexivity.
  - left. reflexivity.
  - lia.
  - lia.
  - reflexivity.
  - lia.
  - reflexivity.
Defined.

(** X25.  A Reorder mapper as its constructor leaves it, with an empty
    table, configured with a NULL or empty parameter string for any
    topology, maps every pixel of a matrix of whole panels to itself. *)
Theorem X25_reorder_constructed_empty_parameter_identity
    (raw : ReorderPixelMapper.t) (s : ReorderPixelMapper.statics)
    (chain parallel : Z) (param : option string) (pw ph x y : Z) :
  param = None ∨ param = Some "" →
  0 < chain → 0 < parallel → 0 < pw → 0 < ph →
  chain * pw ≤ Int.INT_MAX → parallel * ph ≤ Int.INT_MAX →
  chain * parallel ≤ Int.INT_MAX →
  ReorderPixelMapper.panel_cols_ s = None
    ∨ ReorderPixelMapper.panel_cols_ s = Some pw →
  ReorderPixelMapper.panel_rows_ s = None
    ∨ ReorderPixelMapper.panel_rows_ s = Some ph →
  0 ≤ x < chain * pw → 0 ≤ y < parallel * ph →
  ∃ self : ReorderPixelMapper.t,
    ReorderPixelMapper.SetParameters (ReorderPixelMapper.new raw)
      chain parallel param = Some (true, self, [])
    ∧ ReorderPixelMapper.MapVisibleToMatrix self s
        (chain * pw) (parallel * ph) x y
      = Some ({| ReorderPixelMapper.panel_cols_ := Some pw;
                 ReorderPixelMapper.panel_rows_ := Some ph |},
              Written x y).
Proof.
  intros Hparam Hc Hp Hpw Hph Hw Hh Hcount Hcols Hrows Hx Hy.
  exists {| ReorderPixelMapper.chain_ := chain;
            ReorderPixelMapper.parallel_ := parallel;
            ReorderPixelMapper.panels_ := ∅ |}.
  split.
  - destruct Hparam as [-> | ->]; [reflexivity |].
    unfold ReorderPixelMapper.SetParameters.
    assert (Hpc : chain *ᵢ parallel = Some (chain * parallel)).
    { assert (0 ≤ chain * parallel) by nia. int_eval range. done. }
    rewrite Hpc. reflexivity.
  - rewrite (reorder_on_whole_panels _ s chain parallel pw ph x y) by done.
    simpl. rewrite lookup_empty. reflexivity.
Qed.

Lemma X25_reorder_constructed_empty_parameter_identity_witness :
  ∃ self : ReorderPixelMapper.t,
    ReorderPixelMapper.SetParameters
      (ReorderPixelMapper.new
         {| ReorderPixelMapper.chain_ := 9; ReorderPixelMapper.parallel_ := 9;
            ReorderPixelMapper.panels_ := {[ 0 := 1 ]} |})
      2 3 (Some "") = Some (true, self, [])
    ∧ ReorderPixelMapper.MapVisibleToMatrix self
        ReorderPixelMapper.uninitialised (2 * 32) (3 * 16) 40 20
      = Some ({| ReorderPixelMapper.panel_cols_ := Some 32;
                 ReorderPixelMapper.panel_rows_ := Some 16 |},
              Written 40 20).
Proof.
  apply X25_reorder_constructed_empty_parameter_identity.
  - right. reflexivity.
  - lia.
  - lia.
  - lia.
  - lia.
  - unfold Int.INT_MAX. lia.
  - unfold Int.INT_MAX. lia.
  - unfold Int.INT_MAX. lia.
  - left. reflexivity.
  - left. reflexivity.
  - lia.
  - lia.
Defined.

(** C10.  The claim wants Reorder with an empty or NULL parameter string
    to be the identity.  [SetParameters] stores chain and parallel and
    adds the pairs of the string to [panels_]; it never empties the table,
    and the registry hands out the same object at every call.  After
    [FindPixelMapper] with [0|1], a second [FindPixelMapper] with the empty
    string (or with NULL) returns a mapper that still holds the pair and
    sends the pixel (5, 7) of a 32 × 64 matrix to (5, 39). *)
Theorem C10_reorder_keeps_earlier_pairs (raw : Registry.raw_memory)
    (param : option string) :
  param = None ∨ param = Some "" →
  ∃ (registry registry' : Registry.MapperByName)
    (self : ReorderPixelMapper.t) (s' : ReorderPixelMapper.statics),
    Registry.FindPixelMapper raw None "Reorder" 1 2 (Some "0|1")
      = Some (Some registry, Some "reorder", [])
    ∧ Registry.FindPixelMapper raw (Some registry) "Reorder" 1 2 param
      = Some (Some registry', Some "reorder", [])
    ∧ registry' !! "reorder" = Some (Reorder self)
    ∧ ReorderPixelMapper.panels_ self !! 0 = Some 1
    ∧ ReorderPixelMapper.MapVisibleToMatrix self
        ReorderPixelMapper.uninitialised 32 64 5 7
      = Some (s', Written 5 39).
Proof.
  intros [-> | ->]; do 4 eexists; repeat split; reflexivity.
Qed.

Lemma C10_reorder_keeps_earlier_pairs_witness :
  ∃ (registry registry' : Registry.MapperByName)
    (self : ReorderPixelMapper.t) (s' : ReorderPixelMapper.statics),
    Registry.FindPixelMapper stale_memory None "Reorder" 1 2 (Some "0|1")
      = Some (Some registry, Some "reorder", [])
    ∧ Registry.FindPixelMapper stale_memory (Some registry) "Reorder" 1 2
        (Some "")
      = Some (Some registry', Some "reorder", [])
    ∧ registry' !! "reorder" = Some (Reorder self)
    ∧ ReorderPixelMapper.panels_ self !! 0 = Some 1
    ∧ ReorderPixelMapper.MapVisibleToMatrix self
        ReorderPixelMapper.uninitialised 32 64 5 7
      = Some (s', Written 5 39).
Proof.
  apply (C10_reorder_keeps_earlier_pairs stale_memory (Some "")).
  right. reflexivity.
Defined.

(** ** Rotate-panel and Reorder: items that are skipped *)

Lemma related_with_first printed extra l l' v :
  related printed extra l l' →
  related printed extra (with_first v l) (with_first v l').
Proof. intros [? ?]. split; done. Qed.

Lemma related_with_second printed extra l l' v :
  related printed extra l l' →
  related printed extra (with_second v l) (with_second v l').
Proof. intros [? ?]. split; done. Qed.

Lemma related_with_panel printed extra l l' k v :
  related printed extra l l' →
  related printed extra (with_panel k v l) (with_panel k v l').
Proof. intros [Hp ?]. split; [simpl; by rewrite Hp | done]. Qed.

Lemma related_with_diagnostic printed extra l l' d :
  related printed extra l l' →
  related printed extra (with_diagnostic d l) (with_diagnostic d l').
Proof.
  intros [Hp (later & Hl & Hl')]. split; [done |].
  exists (later ++ [d]). simpl. rewrite Hl, Hl'.
  by rewrite <- !(assoc_L (++)).
Qed.

Lemma next_is_even (i : Z) : 0 ≤ i → Z.rem i 2 ≠ 0 → Z.rem (i + 1) 2 = 0.
Proof.
  intros Hi. rewrite !Z.rem_mod_nonneg by lia. intros Hodd.
  pose proof (Z.mod_pos_bound i 2 ltac:(lia)).
  rewrite Z.add_mod by lia. replace (i mod 2) with 1 by lia. reflexivity.
Qed.

Create HintDb parse.
#[local] Hint Resolve related_with_first related_with_second related_with_panel
  related_with_diagnostic : parse.








(** An item that is malformed or out of range leaves the table as it is
    and prints one message. *)
Lemma rotate_panel_skips (count max : Z) (tokens2 : list string)
    (l : parse_locals) :
  count -ᵢ 1 = Some max →
  malformed_or_out_of_range false max tokens2 →
  ∃ (d : diagnostic) (l' : parse_locals),
    RotatePanelPixelMapper.pair_loop count tokens2 0 l = Some l'
    ∧ panels l' = panels l ∧ log l' = log l ++ [d].
Proof.
  intros Hmax. destruct tokens2 as [| token rest]; [done |].
  intros [Hbad | (index & Hdigits & Hindex & [Hhigh | [Hlow Hrest]])]; simpl.
  - rewrite Hbad. simpl. by eexists _, _.
  - rewrite Hdigits, Hindex, Hmax. simpl. rewrite decide_True by done.
    by eexists _, _.
  - rewrite Hdigits, Hindex, Hmax. simpl. rewrite decide_False by lia.
    destruct rest as [| token' rest']; [done |].
    destruct Hrest as [Hbad | [[=] _]]. simpl. rewrite Hbad. simpl.
    by eexists _, _.
Qed.

Lemma reorder_skips (count max : Z) (tokens2 : list string)
    (l : parse_locals) :
  count -ᵢ 1 = Some max →
  malformed_or_out_of_range true max tokens2 →
  ∃ (d : diagnostic) (l' : parse_locals),
    ReorderPixelMapper.pair_loop count tokens2 0 l = Some l'
    ∧ panels l' = panels l ∧ log l' = log l ++ [d].
Proof.
  intros Hmax. destruct tokens2 as [| token rest]; [done |].
  intros [Hbad | (index & Hdigits & Hindex & [Hhigh | [Hlow Hrest]])]; simpl.
  - rewrite Hbad. simpl. by eexists _, _.
  - rewrite Hdigits, Hindex, Hmax. simpl. rewrite decide_True by done.
    by eexists _, _.
  - rewrite Hdigits, Hindex, Hmax. simpl. rewrite decide_False by lia.
    destruct rest as [| token' rest']; [done |].
    destruct Hrest as [Hbad | [_ (index' & Hdigits' & Hindex' & Hhigh')]];
      simpl.
    + rewrite Hbad. simpl. by eexists _, _.
    + rewrite Hdigits', Hindex', Hmax. simpl. rewrite decide_True by done.
      by eexists _, _.
Qed.

Lemma atoi_representable (s : string) (v : Z) :
  CString.atoi s = Some v → Int.INT_MIN ≤ v ≤ Int.INT_MAX.
Proof.
  unfold CString.atoi, CString.strtol.
  destruct (CString.skip_space s) as [| c r]; [by intros [= <-] |].
  set (signed := match c with "-"%char => _ | _ => _ end).
  destruct signed as [neg [| d ds]]; [by intros [= <-] |].
  destruct (CString.isdigit d); [| by intros [= <-]].
  destruct (CString.digits 0 (String d ds)) as [w rest].
  by intros [-> ?]%of_Z_inv.
Qed.

(** A well-formed item in range stores its pair and prints nothing. *)
Lemma rotate_panel_registers (count max : Z) (tokens2 : list string)
    (k v : Z) (l : parse_locals) :
  count -ᵢ 1 = Some max →
  well_formed_pair false max tokens2 k v →
  ∃ l' : parse_locals,
    RotatePanelPixelMapper.pair_loop count tokens2 0 l = Some l'
    ∧ panels l' = <[k := v]> (panels l) ∧ log l' = log l.
Proof.
  intros Hmax (token & token' & -> & Hd & Hk & Hle & Hd' & Hv & Hrem).
  pose proof (atoi_representable _ _ Hv) as Hrange.
  pose proof (Z.quot_rem v 90 ltac:(lia)) as Hqr.
  assert (Hr : v %ᵢ 90 = Some 0).
  { int_unfold. rewrite decide_False by lia.
    rewrite (of_Z_Some (v ÷ 90)) by range. simpl. by rewrite Hrem. }
  simpl. rewrite Hd, Hk, Hmax. simpl. rewrite decide_False by lia.
  simpl. rewrite Hd', Hv. simpl. rewrite Hr. simpl.
  by eexists.
Qed.

Lemma reorder_registers (count max : Z) (tokens2 : list string)
    (k v : Z) (l : parse_locals) :
  count -ᵢ 1 = Some max →
  well_formed_pair true max tokens2 k v →
  ∃ l' : parse_locals,
    ReorderPixelMapper.pair_loop count tokens2 0 l = Some l'
    ∧ panels l' = <[k := v]> (panels l) ∧ log l' = log l.
Proof.
  intros Hmax (token & token' & -> & Hd & Hk & Hle & Hd' & Hv & Hle').
  simpl. rewrite Hd, Hk, Hmax. simpl. rewrite decide_False by lia.
  simpl. rewrite Hd', Hv. simpl. rewrite decide_False by lia.
  by eexists.
Qed.

(** The loops follow the specification's fold. *)
Lemma rotate_panel_item_loop_spec (count max : Z) (items : list string)
    (table table' : gmap Z Z) (n : nat) :
  count -ᵢ 1 = Some max →
  spec_parse false max items table table' n →
  ∀ l : parse_locals, panels l = table →
    ∃ l' : parse_locals,
      RotatePanelPixelMapper.item_loop count items l = Some l'
      ∧ panels l' = table'
      ∧ length (log l') = (length (log l) + n)%nat.
Proof.
  intros Hmax Hspec.
  induction Hspec as [table | item items k v table table' n Hpair _ IH
                      | item items table table' n Hbad _ IH];
    intros l Hl; simpl.
  - exists l. split; [done |]. split; [done | lia].
  - destruct (rotate_panel_registers count max _ k v l Hmax Hpair)
      as (l1 & -> & Hp1 & Hlog1). simpl.
    destruct (IH l1) as (l' & -> & Hp' & Hlog'); [by rewrite Hp1, Hl |].
    exists l'. split; [done |]. split; [done |]. by rewrite Hlog', Hlog1.
  - destruct (rotate_panel_skips count max _ l Hmax Hbad)
      as (d & l1 & -> & Hp1 & Hlog1). simpl.
    destruct (IH l1) as (l' & -> & Hp' & Hlog'); [by rewrite Hp1, Hl |].
    exists l'. split; [done |]. split; [done |].
    rewrite Hlog', Hlog1, length_app. simpl. lia.
Qed.

Lemma reorder_item_loop_spec (count max : Z) (items : list string)
    (table table' : gmap Z Z) (n : nat) :
  count -ᵢ 1 = Some max →
  spec_parse true max items table table' n →
  ∀ l : parse_locals, panels l = table →
    ∃ l' : parse_locals,
      ReorderPixelMapper.item_loop count items l = Some l'
      ∧ panels l' = table'
      ∧ length (log l') = (length (log l) + n)%nat.
Proof.
  intros Hmax Hspec.
  induction Hspec as [table | item items k v table table' n Hpair _ IH
                      | item items table table' n Hbad _ IH];
    intros l Hl; simpl.
  - exists l. split; [done |]. split; [done | lia].
  - destruct (reorder_registers count max _ k v l Hmax Hpair)
      as (l1 & -> & Hp1 & Hlog1). simpl.
    destruct (IH l1) as (l' & -> & Hp' & Hlog'); [by rewrite Hp1, Hl |].
    exists l'. split; [done |]. split; [done |]. by rewrite Hlog', Hlog1.
  - destruct (reorder_skips count max _ l Hmax Hbad)
      as (d & l1 & -> & Hp1 & Hlog1). simpl.
    destruct (IH l1) as (l' & -> & Hp' & Hlog'); [by rewrite Hp1, Hl |].
    exists l'. split; [done |]. split; [done |].
    rewrite Hlog', Hlog1, length_app. simpl. lia.
Qed.

Lemma panel_count_defined (chain parallel count : Z) :
  0 < chain → 0 < parallel → chain *ᵢ parallel = Some count →
  count = chain * parallel ∧ count -ᵢ 1 = Some (chain * parallel - 1).
Proof.
  intros Hc Hp Hcount. revert Hcount. int_unfold.
  intros [-> Hrange]%of_Z_inv. split; [done |].
  assert (0 < chain * parallel) by nia.
  apply of_Z_Some. range.
Qed.

(** The loops follow the specification's fold through [SetParameters]:
    when every item of a parameter string is a well-formed pair in range
    or an item that is malformed or out of range, the table holds every
    well-formed pair, registered in order over the table found, and one
    message is printed for each of the other items. *)
Lemma parse_follows_specification
    (rotate_panel : RotatePanelPixelMapper.t) (reorder : ReorderPixelMapper.t)
    (chain parallel : Z) (param : string)
    (table table' : gmap Z Z) (n n' : nat) :
  0 < chain → 0 < parallel → chain * parallel ≤ Int.INT_MAX →
  (spec_parse false (chain * parallel - 1) (CString.tokens "," param)
     (RotatePanelPixelMapper.panels_ rotate_panel) table n →
   ∃ out : list diagnostic,
     RotatePanelPixelMapper.SetParameters rotate_panel chain parallel
       (Some param)
     = Some (true,
             {| RotatePanelPixelMapper.chain_ := chain;
                RotatePanelPixelMapper.parallel_ := parallel;
                RotatePanelPixelMapper.panels_ := table |}, out)
     ∧ length out = n)
  ∧ (spec_parse true (chain * parallel - 1) (CString.tokens "," param)
       (ReorderPixelMapper.panels_ reorder) table' n' →
     ∃ out : list diagnostic,
       ReorderPixelMapper.SetParameters reorder chain parallel (Some param)
       = Some (true,
               {| ReorderPixelMapper.chain_ := chain;
                  ReorderPixelMapper.parallel_ := parallel;
                  ReorderPixelMapper.panels_ := table' |}, out)
       ∧ length out = n').
Proof.
  intros Hc Hp Hmax.
  assert (Hcount : chain *ᵢ parallel = Some (chain * parallel)).
  { assert (0 < chain * parallel) by nia. int_eval range. done. }
  destruct (panel_count_defined _ _ _ Hc Hp Hcount) as [_ Hmax1].
  split; intros Hspec.
  - unfold RotatePanelPixelMapper.SetParameters. rewrite Hcount. simpl.
    edestruct (rotate_panel_item_loop_spec _ _ _ _ _ _ Hmax1 Hspec)
      as (l' & -> & <- & Hlen); [reflexivity |].
    simpl. by eexists.
  - unfold ReorderPixelMapper.SetParameters. rewrite Hcount. simpl.
    edestruct (reorder_item_loop_spec _ _ _ _ _ _ Hmax1 Hspec)
      as (l' & -> & <- & Hlen); [reflexivity |].
    simpl. by eexists.
Qed.

Lemma parse_follows_specification_example :
  (∃ out : list diagnostic,
     RotatePanelPixelMapper.SetParameters
       {| RotatePanelPixelMapper.chain_ := 0;
          RotatePanelPixelMapper.parallel_ := 0;
          RotatePanelPixelMapper.panels_ := ∅ |} 2 1 (Some "x|0,1|0,7|0")
     = Some (true,
             {| RotatePanelPixelMapper.chain_ := 2;
                RotatePanelPixelMapper.parallel_ := 1;
                RotatePanelPixelMapper.panels_ := <[1 := 0]> ∅ |}, out)
     ∧ length out = 2%nat)
  ∧ (∃ out : list diagnostic,
       ReorderPixelMapper.SetParameters
         {| ReorderPixelMapper.chain_ := 0;
            ReorderPixelMapper.parallel_ := 0;
            ReorderPixelMapper.panels_ := ∅ |} 2 1 (Some "x|0,1|0,7|0")
       = Some (true,
               {| ReorderPixelMapper.chain_ := 2;
                  ReorderPixelMapper.parallel_ := 1;
                  ReorderPixelMapper.panels_ := <[1 := 0]> ∅ |}, out)
       ∧ length out = 2%nat).
Proof.
  assert (H2 : 0 < 2) by lia. assert (H1 : 0 < 1) by lia.
  assert (Hmax : 2 * 1 ≤ Int.INT_MAX) by (unfold Int.INT_MAX; lia).
  destruct (parse_follows_specification
    {| RotatePanelPixelMapper.chain_ := 0;
       RotatePanelPixelMapper.parallel_ := 0;
       RotatePanelPixelMapper.panels_ := ∅ |}
    {| ReorderPixelMapper.chain_ := 0;
       ReorderPixelMapper.parallel_ := 0;
       ReorderPixelMapper.panels_ := ∅ |}
    2 1 "x|0,1|0,7|0" (<[1 := 0]> ∅) (<[1 := 0]> ∅) 2%nat 2%nat H2 H1 Hmax)
    as [Hrotate_panel Hreorder].
  split.
  - apply Hrotate_panel.
    apply spec_parse_skip; [left; reflexivity |].
    apply (spec_parse_register _ _ _ _ 1 0).
    { exists "1", "0". repeat split; try reflexivity; simpl; lia. }
    apply spec_parse_skip; [| apply spec_parse_done].
    right. exists 7. split; [reflexivity |]. split; [reflexivity |].
    left. simpl. lia.
  - apply Hreorder.
    apply spec_parse_skip; [left; reflexivity |].
    apply (spec_parse_register _ _ _ _ 1 0).
    { exists "1", "0". repeat split; try reflexivity; simpl; lia. }
    apply spec_parse_skip; [| apply spec_parse_done].
    right. exists 7. split; [reflexivity |]. split; [reflexivity |].
    left. simpl. lia.
Defined.


(** ** The tokens are those of [strtok_r] *)

Lemma fields_span (delim : ascii) (s : string) :
  ∃ fs : list string,
    CString.fields delim s = (CString.span delim s).1 :: fs
    ∧ List.filter CString.nonempty fs
      = CString.tokens delim (CString.span delim s).2.
Proof.
  induction s as [| c s' (fs & Hfields & Hrest)]; simpl.
  - by exists [].
  - destruct (Ascii.eqb c delim).
    + by exists (CString.fields delim s').
    + destruct (CString.span delim s') as [tok rest]. simpl in *.
      exists fs. by rewrite Hfields.
Qed.

(** [tokens] lists what the loop over [strtok_r] visits: the first token
    and then the tokens of the rest that [strtok_r] saved. *)
Lemma tokens_strtok_r (delim : ascii) (s : string) :
  CString.tokens delim s
  = match CString.strtok_r delim s with
    | Some (token, rest) => token :: CString.tokens delim rest
    | None => []
    end.
Proof.
  induction s as [| c s' IH]; [done |].
  unfold CString.tokens in *. simpl.
  destruct (Ascii.eqb c delim) eqn:Hc; [done |].
  destruct (fields_span delim s') as (fs & Hfields & Hrest).
  destruct (CString.span delim s') as [tok rest]. simpl in *.
  rewrite Hfields. simpl. by rewrite Hrest.
Qed.

(** ** Range of the mapped coordinates, mapper by mapper *)

Lemma quot_exact (count size : Z) : 0 < count → count * size ÷ count = size.
Proof. intros H. rewrite Z.mul_comm. apply Z.quot_mul. lia. Qed.

Lemma row_in_matrix (self : RowArrangementMapper.t)
    (chain parallel pw ph : Z) :
  RowArrangementMapper.chain_ self = chain →
  RowArrangementMapper.parallel_ self = parallel →
  0 < chain → 2 ≤ parallel → 0 < pw → 0 < ph →
  chain * pw * parallel ≤ Int.INT_MAX → parallel * ph ≤ Int.INT_MAX →
  ∃ vw vh : Z,
    RowArrangementMapper.GetSizeMapping self (chain * pw) (parallel * ph)
      = Some (true, (vw, vh), [])
    ∧ ∀ x y : Z, 0 ≤ x < vw → 0 ≤ y < vh →
        ∃ r : mapped,
          RowArrangementMapper.MapVisibleToMatrix self
            (chain * pw) (parallel * ph) x y = Some r
          ∧ in_matrix (chain * pw) (parallel * ph) r.
Proof.
  intros Hchain Hparallel Hc Hp Hpw Hph Hw Hh.
  set (mw := chain * pw) in *.
  assert (Hmw : 0 < mw) by (unfold mw; nia).
  assert (Hmw2 : 2 * mw ≤ mw * parallel) by nia.
  assert (Hpwmw : pw ≤ mw) by (unfold mw; nia).
  assert (Hqw : mw ÷ chain = pw) by (apply quot_exact; lia).
  assert (Hqh : parallel * ph ÷ parallel = ph) by (apply quot_exact; lia).
  assert (Hph' : ph ≤ parallel * ph) by nia.
  exists (match RowArrangementMapper.mode_ self with
          | RowArrangementMapper.normal => mw * parallel
          | _ => mw * parallel - pw * 2
          end), ph.
  split.
  { unfold RowArrangementMapper.GetSizeMapping.
    rewrite Hchain, Hparallel.
    destruct (RowArrangementMapper.mode_ self);
      int_unfold; rewrite ?Hqw, ?Hqh; repeat int_step range; reflexivity. }
  intros x y Hx Hy.
  unfold RowArrangementMapper.MapVisibleToMatrix.
  rewrite Hchain, Hparallel.
  destruct (RowArrangementMapper.mode_ self).
  1, 2: destruct (panel_of_coordinate parallel mw x Hmw ltac:(lia))
          as [Hq Hr];
        pose proof (rem_eq x mw ltac:(lia)) as Hrem;
        assert (0 ≤ x ÷ mw * ph ≤ (parallel - 1) * ph) by nia.
  3: destruct (panel_of_coordinate parallel mw (x + pw) Hmw ltac:(lia))
       as [Hq Hr];
     pose proof (rem_eq (x + pw) mw ltac:(lia)) as Hrem;
     destruct (panel_of_coordinate parallel mw x Hmw ltac:(lia))
       as [Hq' Hr'];
     assert (0 ≤ (x + pw) ÷ mw * ph ≤ (parallel - 1) * ph) by nia.
  all: int_unfold; rewrite ?Hqw, ?Hqh; repeat int_step range;
    (eexists; split; [reflexivity |]); simpl; lia.
Qed.

Lemma mirror_in_matrix (self : MirrorPixelMapper.t) (mw mh : Z) :
  0 < mw ≤ Int.INT_MAX → 0 < mh ≤ Int.INT_MAX →
  ∃ vw vh : Z,
    MirrorPixelMapper.GetSizeMapping self mw mh = Some (true, (vw, vh), [])
    ∧ ∀ x y : Z, 0 ≤ x < vw → 0 ≤ y < vh →
        ∃ r : mapped,
          MirrorPixelMapper.MapVisibleToMatrix self mw mh x y = Some r
          ∧ in_matrix mw mh r.
Proof.
  intros Hmw Hmh. exists mw, mh. split; [reflexivity |].
  intros x y Hx Hy. unfold MirrorPixelMapper.MapVisibleToMatrix.
  destruct (MirrorPixelMapper.horizontal_ self);
    int_eval range; (eexists; split; [reflexivity |]); simpl; lia.
Qed.

(** What a successful [SetParameters] leaves in a Rotate mapper: a
    multiple of 90 between -360 and 360, both excluded. *)
Lemma rotate_configured (self0 self : RotatePixelMapper.t)
    (chain parallel : Z) (param : option string) (log : list diagnostic) :
  RotatePixelMapper.SetParameters self0 chain parallel param
    = Some (true, self, log) →
  Z.rem (RotatePixelMapper.angle_ self) 90 = 0
  ∧ -360 < RotatePixelMapper.angle_ self < 360.
Proof.
  unfold RotatePixelMapper.SetParameters.
  destruct param as [p|]; [| by intros [= <- <-]].
  case_decide; [by intros [= <- <-] |].
  destruct (CString.strtol p) as [[angle|] errpos]; simpl; [| done].
  destruct (CString.nonempty errpos); [done |].
  int_unfold. rewrite decide_False by lia.
  destruct (Int.of_Z (angle ÷ 90)) as [q|]; simpl; [| done].
  case_decide as Hrem; [done |].
  destruct (Int.of_Z (angle + 360)) as [a|] eqn:Ha; simpl; [| done].
  apply of_Z_inv in Ha as [-> _].
  destruct (Int.of_Z ((angle + 360) ÷ 360)) as [q'|]; simpl; [| done].
  intros [= <- <-]. simpl.
  pose proof (rem_eq angle 90 ltac:(lia)) as Hangle.
  pose proof (rem_eq (angle + 360) 360 ltac:(lia)) as Hnorm.
  pose proof (Z.rem_bound_abs (angle + 360) 360 ltac:(lia)) as Habs.
  split; [| lia].
  replace (Z.rem (angle + 360) 360)
    with ((angle ÷ 90 + 4 - 4 * ((angle + 360) ÷ 360)) * 90) by lia.
  apply Z.rem_mul. lia.
Qed.

Lemma rotate_in_matrix (self : RotatePixelMapper.t) (mw mh : Z) :
  Z.rem (RotatePixelMapper.angle_ self) 90 = 0 →
  -360 < RotatePixelMapper.angle_ self < 360 →
  0 < mw ≤ Int.INT_MAX → 0 < mh ≤ Int.INT_MAX →
  ∃ vw vh : Z,
    RotatePixelMapper.GetSizeMapping self mw mh = Some (true, (vw, vh), [])
    ∧ ∀ x y : Z, 0 ≤ x < vw → 0 ≤ y < vh →
        0 ≤ RotatePixelMapper.angle_ self →
        ∃ r : mapped,
          RotatePixelMapper.MapVisibleToMatrix self mw mh x y = Some r
          ∧ in_matrix mw mh r.
Proof.
  intros Hrem Hangle Hmw Hmh.
  pose proof (rem_eq (RotatePixelMapper.angle_ self) 90 ltac:(lia)) as Heq.
  pose proof (Z.quot_rem (RotatePixelMapper.angle_ self) 90 ltac:(lia)).
  assert (Hcases : Exists (λ a, RotatePixelMapper.angle_ self = a)
                     [-270; -180; -90; 0; 90; 180; 270]).
  { rewrite !Exists_cons, Exists_nil. lia. }
  unfold RotatePixelMapper.GetSizeMapping,
    RotatePixelMapper.MapVisibleToMatrix.
  rewrite !Exists_cons, Exists_nil in Hcases.
  destruct Hcases as [-> | [-> | [-> | [-> | [-> | [-> | [-> | []]]]]]]];
    simpl.
  all: do 2 eexists; (split; [reflexivity |]); intros x y Hx Hy Hpos;
    try lia;
    int_eval range; (eexists; split; [reflexivity |]); simpl; lia.
Qed.

(** What a successful [SetParameters] leaves in a U-mapper. *)
Lemma u_configured (self0 self : UArrangementMapper.t)
    (chain parallel : Z) (param : option string) (log : list diagnostic) :
  UArrangementMapper.SetParameters self0 chain parallel param
    = Some (true, self, log) →
  2 ≤ chain ∧ UArrangementMapper.parallel_ self = parallel.
Proof.
  unfold UArrangementMapper.SetParameters.
  case_decide; [done |].
  destruct (chain %ᵢ 2) as [r|]; simpl; [| done].
  case_decide; [done |]. intros [= <- <-]. simpl. lia.
Qed.

Lemma u_in_matrix (self : UArrangementMapper.t) (parallel mw ph : Z) :
  UArrangementMapper.parallel_ self = parallel →
  0 < parallel → 0 < mw ≤ Int.INT_MAX → 0 < ph →
  2 * (parallel * ph) ≤ Int.INT_MAX →
  ∃ vw vh : Z,
    UArrangementMapper.GetSizeMapping self mw (parallel * ph)
      = Some (true, (vw, vh), [])
    ∧ ∀ x y : Z, 0 ≤ x < vw → 0 ≤ y < vh →
        ∃ r : mapped,
          UArrangementMapper.MapVisibleToMatrix self mw (parallel * ph) x y
            = Some r
          ∧ in_matrix mw (parallel * ph) r.
Proof.
  intros Hparallel Hp Hmw Hph Hh.
  assert (Hqh : parallel * ph ÷ parallel = ph) by (apply quot_exact; lia).
  assert (Hrh : Z.rem (parallel * ph) parallel = 0)
    by (rewrite Z.mul_comm; apply Z.rem_mul; lia).
  assert (Hph' : ph ≤ parallel * ph) by nia.
  pose proof (quot_bounds mw 64 ltac:(lia) ltac:(lia)) as Hq64.
  pose proof (quot_bounds mw 2 ltac:(lia) ltac:(lia)) as Hq2.
  exists (mw ÷ 64 * 32), (2 * (parallel * ph)). split.
  { unfold UArrangementMapper.GetSizeMapping. rewrite Hparallel.
    int_unfold. rewrite ?Hqh, ?Hrh. repeat int_step range.
    rewrite decide_False by lia. reflexivity. }
  intros x y Hx Hy.
  unfold UArrangementMapper.MapVisibleToMatrix. rewrite Hparallel.
  destruct (panel_of_coordinate parallel (2 * ph) y ltac:(lia) ltac:(lia))
    as [Hslab Hy'].
  pose proof (rem_eq y (2 * ph) ltac:(lia)) as Hrem.
  assert (0 ≤ y ÷ (2 * ph) * ph ≤ (parallel - 1) * ph) by nia.
  int_unfold. rewrite ?Hqh. repeat int_step range.
  case_decide; repeat int_step range;
    (eexists; split; [reflexivity |]); simpl; lia.
Qed.

Lemma vertical_in_matrix (self : VerticalMapper.t)
    (chain parallel pw ph : Z) :
  VerticalMapper.chain_ self = chain →
  VerticalMapper.parallel_ self = parallel →
  0 < chain → 0 < parallel → 0 < pw → 0 < ph →
  chain * pw * parallel ≤ Int.INT_MAX →
  parallel * ph * chain ≤ Int.INT_MAX →
  ∃ vw vh : Z,
    VerticalMapper.GetSizeMapping self (chain * pw) (parallel * ph)
      = Some (true, (vw, vh), [])
    ∧ ∀ x y : Z, 0 ≤ x < vw → 0 ≤ y < vh →
        ∃ r : mapped,
          VerticalMapper.MapVisibleToMatrix self
            (chain * pw) (parallel * ph) x y = Some r
          ∧ in_matrix (chain * pw) (parallel * ph) r.
Proof.
  intros Hchain Hparallel Hc Hp Hpw Hph Hw Hh.
  assert (Hqw : chain * pw ÷ chain = pw) by (apply quot_exact; lia).
  assert (Hqh : parallel * ph ÷ parallel = ph) by (apply quot_exact; lia).
  assert (Hvw : chain * pw * parallel ÷ chain = parallel * pw).
  { replace (chain * pw * parallel) with (chain * (parallel * pw)) by lia.
    apply quot_exact; lia. }
  assert (Hvh : parallel * ph * chain ÷ parallel = chain * ph).
  { replace (parallel * ph * chain) with (parallel * (chain * ph)) by lia.
    apply quot_exact; lia. }
  assert (0 < chain * pw ≤ chain * pw * parallel) by nia.
  assert (0 < parallel * ph ≤ parallel * ph * chain) by nia.
  assert (0 < parallel * pw ≤ chain * pw * parallel) by nia.
  assert (0 < chain * ph ≤ parallel * ph * chain) by nia.
  exists (parallel * pw), (chain * ph). split.
  { unfold VerticalMapper.GetSizeMapping. rewrite Hchain, Hparallel.
    int_unfold. repeat int_step range. rewrite Hvw, Hvh. reflexivity. }
  intros x y Hx Hy.
  unfold VerticalMapper.MapVisibleToMatrix. rewrite Hchain, Hparallel.
  destruct (panel_of_coordinate parallel pw x Hpw Hx) as [Hnx Hpx].
  destruct (panel_of_coordinate chain ph y Hph Hy) as [Hny Hpy].
  pose proof (rem_eq x pw ltac:(lia)) as Hremx.
  pose proof (rem_eq y ph ltac:(lia)) as Hremy.
  assert (0 ≤ y ÷ ph * pw ≤ (chain - 1) * pw) by nia.
  assert (0 ≤ x ÷ pw * ph ≤ (parallel - 1) * ph) by nia.
  pose proof (quot_bounds (y ÷ ph) 2 ltac:(lia) ltac:(lia)) as Hhalf.
  assert (chain ≤ chain * pw) by nia.
  int_unfold. rewrite ?Hqw, ?Hqh. repeat int_step range.
  destruct (VerticalMapper.z_ self); simpl; repeat int_step range;
    try case_bool_decide; simpl; repeat int_step range;
    (eexists; split; [reflexivity |]); simpl; lia.
Qed.

Lemma rotate_panel_configured (self0 self : RotatePanelPixelMapper.t)
    (chain parallel : Z) (param : option string) (ok : bool)
    (log : list diagnostic) :
  RotatePanelPixelMapper.SetParameters self0 chain parallel param
    = Some (ok, self, log) →
  ok = true
  ∧ RotatePanelPixelMapper.chain_ self = chain
  ∧ RotatePanelPixelMapper.parallel_ self = parallel.
Proof.
  unfold RotatePanelPixelMapper.SetParameters. destruct param as [p|].
  - destruct (chain *ᵢ parallel) as [count|]; [| done]. simpl.
    destruct (RotatePanelPixelMapper.item_loop _ _ _) as [l|]; [| done].
    simpl. intros [= <- <- <-]. done.
  - intros [= <- <- <-]. done.
Qed.

(** Rotate-panel on square panels of side [n], every registered rotation
    being one of the four that [MapVisibleToMatrix] has a case for. *)
Lemma rotate_panel_in_matrix (self : RotatePanelPixelMapper.t)
    (s : RotatePanelPixelMapper.statics) (chain parallel n x y : Z) :
  RotatePanelPixelMapper.chain_ self = chain →
  RotatePanelPixelMapper.parallel_ self = parallel →
  0 < chain → 0 < parallel → 0 < n →
  chain * n ≤ Int.INT_MAX → parallel * n ≤ Int.INT_MAX →
  chain * parallel ≤ Int.INT_MAX →
  RotatePanelPixelMapper.panel_cols_ s = None
    ∨ RotatePanelPixelMapper.panel_cols_ s = Some n →
  RotatePanelPixelMapper.panel_rows_ s = None
    ∨ RotatePanelPixelMapper.panel_rows_ s = Some n →
  (∀ panel angle : Z,
     RotatePanelPixelMapper.panels_ self !! panel = Some angle →
     angle = 0 ∨ angle = 90 ∨ angle = 180 ∨ angle = 270) →
  0 ≤ x < chain * n → 0 ≤ y < parallel * n →
  ∃ (s' : RotatePanelPixelMapper.statics) (r : mapped),
    RotatePanelPixelMapper.MapVisibleToMatrix self s
      (chain * n) (parallel * n) x y = Some (s', r)
    ∧ in_matrix (chain * n) (parallel * n) r.
Proof.
  intros Hchain Hparallel Hc Hp Hn Hw Hh Hcount Hcols Hrows Hangles Hx Hy.
  unfold RotatePanelPixelMapper.MapVisibleToMatrix.
  rewrite Hchain, Hparallel.
  rewrite (static_panel_size _ chain n), (static_panel_size _ parallel n)
    by done.
  cbn [mbind option_bind].
  destruct (panel_of_coordinate chain n x Hn Hx) as [Hnx Hpx].
  destruct (panel_of_coordinate parallel n y Hn Hy) as [Hny Hpy].
  assert (Hidx : 0 ≤ y ÷ n * chain ∧ y ÷ n * chain + x ÷ n
                   < chain * parallel) by nia.
  assert (Hxq : x /ᵢ n = Some (x ÷ n)) by (int_eval range; done).
  assert (Hyq : y /ᵢ n = Some (y ÷ n)) by (int_eval range; done).
  rewrite Hxq, Hyq. cbn [mbind option_bind].
  assert (Hnr : y ÷ n *ᵢ chain +ᵢ x ÷ n = Some (y ÷ n * chain + x ÷ n))
    by (int_eval range; done).
  rewrite Hnr. cbn [mbind option_bind].
  destruct (RotatePanelPixelMapper.panels_ self !! _) as [angle|] eqn:Hpanel;
    [| do 2 eexists; split; [reflexivity |]; simpl; lia].
  rewrite (position_in_panel n x), (position_in_panel n y) by range.
  cbn [mbind option_bind].
  assert (0 ≤ x ÷ n * n ≤ (chain - 1) * n) by nia.
  assert (0 ≤ y ÷ n * n ≤ (parallel - 1) * n) by nia.
  destruct (Hangles _ _ Hpanel) as [-> | [-> | [-> | ->]]];
    int_eval range; (do 2 eexists; split; [reflexivity |]); simpl; lia.
Qed.

(** Reorder, every registered destination being one whose column
    [d % (parallel_ - 1)] and row [d / (parallel_ - 1)] exist. *)
Lemma reorder_in_matrix (self : ReorderPixelMapper.t)
    (s : ReorderPixelMapper.statics) (chain parallel pw ph x y : Z) :
  ReorderPixelMapper.chain_ self = chain →
  ReorderPixelMapper.parallel_ self = parallel →
  0 < chain → 0 < parallel → 0 < pw → 0 < ph →
  chain * pw ≤ Int.INT_MAX → parallel * ph ≤ Int.INT_MAX →
  chain * parallel ≤ Int.INT_MAX →
  ReorderPixelMapper.panel_cols_ s = None
    ∨ ReorderPixelMapper.panel_cols_ s = Some pw →
  ReorderPixelMapper.panel_rows_ s = None
    ∨ ReorderPixelMapper.panel_rows_ s = Some ph →
  (∀ panel d : Z,
     ReorderPixelMapper.panels_ self !! panel = Some d →
     2 ≤ parallel ∧ 0 ≤ d ≤ Int.INT_MAX
     ∧ Z.rem d (parallel - 1) < chain ∧ d ÷ (parallel - 1) < parallel) →
  0 ≤ x < chain * pw → 0 ≤ y < parallel * ph →
  ∃ (s' : ReorderPixelMapper.statics) (r : mapped),
    ReorderPixelMapper.MapVisibleToMatrix self s
      (chain * pw) (parallel * ph) x y = Some (s', r)
    ∧ in_matrix (chain * pw) (parallel * ph) r.
Proof.
  intros Hchain Hparallel Hc Hp Hpw Hph Hw Hh Hcount Hcols Hrows Hdest Hx Hy.
  destruct (panel_of_coordinate chain pw x Hpw Hx) as [Hnx Hpx].
  destruct (panel_of_coordinate parallel ph y Hph Hy) as [Hny Hpy].
  destruct (ReorderPixelMapper.panels_ self !! (y ÷ ph * chain + x ÷ pw))
    as [d|] eqn:Hpanel.
  - destruct (Hdest _ _ Hpanel) as (Hpar & Hd & Hcol & Hrow).
    pose proof (Z.rem_bound_pos d (parallel - 1) ltac:(lia) ltac:(lia))
      as Hrem.
    pose proof (quot_bounds d (parallel - 1) ltac:(lia) ltac:(lia)) as Hq.
    assert (0 ≤ Z.rem d (parallel - 1) * pw ≤ (chain - 1) * pw) by nia.
    assert (0 ≤ d ÷ (parallel - 1) * ph ≤ (parallel - 1) * ph) by nia.
    do 2 eexists. split.
    + eapply reorder_destination; try done; lia.
    + simpl. lia.
  - do 2 eexists. split.
    + rewrite (reorder_on_whole_panels _ s chain parallel pw ph x y) by done.
      simpl. rewrite Hpanel. reflexivity.
    + simpl. lia.
Qed.

(** ** Range of the mapped coordinates: every mapper *)

(** C1, amended.  Let [SetParameters] accept a configuration of any of the
    seven mappers, for a matrix of [chain × parallel] panels of
    [pw × ph] pixels whose products are representable, the statics being
    uninitialised or current.  Then [GetSizeMapping] succeeds, and for
    every visible [(x, y)] inside the size it returns that is a use the
    mapper is made for ([by_design]), [MapVisibleToMatrix] is defined and
    stores a coordinate inside the matrix. *)
Theorem C1_in_matrix_by_design (mapper0 mapper : PixelMapper) (s : statics)
    (chain parallel : Z) (param : option string) (log : list diagnostic)
    (pw ph : Z) :
  SetParameters mapper0 chain parallel param = Some (true, mapper, log) →
  0 < chain → 0 < parallel → 0 < pw → 0 < ph →
  chain * pw * parallel ≤ Int.INT_MAX →
  parallel * ph * chain ≤ Int.INT_MAX →
  panel_size_current s pw ph →
  ∃ vw vh : Z,
    GetSizeMapping mapper (chain * pw) (parallel * ph)
      = Some (true, (vw, vh), [])
    ∧ ∀ x y : Z, 0 ≤ x < vw → 0 ≤ y < vh →
        by_design mapper pw ph x y →
        ∃ (s' : statics) (r : mapped),
          MapVisibleToMatrix mapper s (chain * pw) (parallel * ph) x y
            = Some (s', r)
          ∧ in_matrix (chain * pw) (parallel * ph) r.
Proof.
  intros Hset Hc Hp Hpw Hph Hw Hh (Hrpc & Hrpr & Hroc & Hror).
  assert (Hmw : 0 < chain * pw ≤ Int.INT_MAX) by nia.
  assert (Hmh : 0 < parallel * ph ≤ Int.INT_MAX) by nia.
  assert (Hcount : chain * parallel ≤ Int.INT_MAX) by nia.
  destruct mapper0 as [m0 | m0 | m0 | m0 | m0 | m0 | m0]; simpl in Hset.
  - destruct (RowArrangementMapper.SetParameters _ _ _ _)
      as [[[ok m] log']|] eqn:Hm; simplify_eq/=.
    apply row_configured in Hm as (Hpar & Hchain & Hparallel).
    destruct (row_in_matrix m chain parallel pw ph)
      as (vw & vh & Hsize & Hmap); try done; [lia |].
    exists vw, vh. split; [done |]. intros x y Hx Hy _.
    destruct (Hmap x y Hx Hy) as (r & -> & Hr). by exists s, r.
  - destruct (RotatePanelPixelMapper.SetParameters _ _ _ _)
      as [[[ok m] log']|] eqn:Hm; simplify_eq/=.
    apply rotate_panel_configured in Hm as (_ & Hchain & Hparallel).
    exists (chain * pw), (parallel * ph). split; [done |].
    intros x y Hx Hy [-> Hangles].
    destruct (rotate_panel_in_matrix m (rotate_panel_statics s)
                chain parallel ph x y) as (s' & r & -> & Hr);
      try done; try lia.
    by eexists _, r.
  - destruct (ReorderPixelMapper.SetParameters _ _ _ _)
      as [[[ok m] log']|] eqn:Hm; simplify_eq/=.
    apply reorder_configured in Hm as (_ & Hchain & Hparallel).
    exists (chain * pw), (parallel * ph). split; [done |].
    intros x y Hx Hy Hpanel. rewrite Hchain in Hpanel.
    rewrite (reorder_on_whole_panels m (reorder_statics s)
               chain parallel pw ph x y) by (done || lia).
    simpl. rewrite Hpanel. do 2 eexists. split; [reflexivity |].
    simpl. lia.
  - destruct (RotatePixelMapper.SetParameters _ _ _ _)
      as [[[ok m] log']|] eqn:Hm; simplify_eq/=.
    apply rotate_configured in Hm as (Hrem & Hangle).
    destruct (rotate_in_matrix m (chain * pw) (parallel * ph))
      as (vw & vh & Hsize & Hmap); try done.
    exists vw, vh. split; [done |]. intros x y Hx Hy Hpos.
    destruct (Hmap x y Hx Hy Hpos) as (r & -> & Hr). by exists s, r.
  - destruct (MirrorPixelMapper.SetParameters _ _ _ _)
      as [[[ok m] log']|] eqn:Hm; simplify_eq/=.
    destruct (mirror_in_matrix m (chain * pw) (parallel * ph))
      as (vw & vh & Hsize & Hmap); try done.
    exists vw, vh. split; [done |]. intros x y Hx Hy _.
    destruct (Hmap x y Hx Hy) as (r & -> & Hr). by exists s, r.
  - destruct (UArrangementMapper.SetParameters _ _ _ _)
      as [[[ok m] log']|] eqn:Hm; simplify_eq/=.
    apply u_configured in Hm as (Hchain2 & Hparallel).
    destruct (u_in_matrix m parallel (chain * pw) ph)
      as (vw & vh & Hsize & Hmap); try done; [nia |].
    exists vw, vh. split; [done |]. intros x y Hx Hy _.
    destruct (Hmap x y Hx Hy) as (r & -> & Hr). by exists s, r.
  - injection Hset as <- <-. unfold MapVisibleToMatrix, GetSizeMapping.
    destruct (vertical_in_matrix
                {| VerticalMapper.z_ :=
                     match param with
                     | Some p => CString.strcasecmp_eq p "Z"
                     | None => false
                     end;
                   VerticalMapper.chain_ := chain;
                   VerticalMapper.parallel_ := parallel |}
                chain parallel pw ph)
      as (vw & vh & Hsize & Hmap); try done.
    exists vw, vh. split; [done |]. intros x y Hx Hy _.
    destruct (Hmap x y Hx Hy) as (r & -> & Hr). by exists s, r.
Qed.

Lemma C1_in_matrix_by_design_witness :
  ∃ vw vh : Z,
    GetSizeMapping (Rotate {| RotatePixelMapper.angle_ := 90 |})
      (2 * 32) (1 * 32) = Some (true, (vw, vh), [])
    ∧ ∀ x y : Z, 0 ≤ x < vw → 0 ≤ y < vh →
        by_design (Rotate {| RotatePixelMapper.angle_ := 90 |}) 32 32 x y →
        ∃ (s' : statics) (r : mapped),
          MapVisibleToMatrix (Rotate {| RotatePixelMapper.angle_ := 90 |})
            at_program_start (2 * 32) (1 * 32) x y = Some (s', r)
          ∧ in_matrix (2 * 32) (1 * 32) r.
Proof.
  apply (C1_in_matrix_by_design (Rotate RotatePixelMapper.new)
           (Rotate {| RotatePixelMapper.angle_ := 90 |}) at_program_start
           2 1 (Some "90") [] 32 32).
  - reflexivity.
  - lia.
  - lia.
  - lia.
  - lia.
  - unfold Int.INT_MAX. lia.
  - unfold Int.INT_MAX. lia.
  - unfold panel_size_current. simpl. repeat split; left; reflexivity.
Defined.

(** C1 as stated does not hold: Rotate-panel accepts the rotation of a
    panel that is not square.  With one panel of 64 × 32 turned by 90
    degrees the visible pixel (63, 0) is stored at (63, 63), below the last
    row of the matrix. *)
Lemma C1_rotate_panel_leaves_matrix :
  ∃ (mapper : PixelMapper) (s' : statics),
    SetParameters
      (RotatePanel
         (RotatePanelPixelMapper.new
            {| RotatePanelPixelMapper.chain_ := 0;
               RotatePanelPixelMapper.parallel_ := 0;
               RotatePanelPixelMapper.panels_ := ∅ |}))
      1 1 (Some "0|90") = Some (true, mapper, [])
    ∧ GetSizeMapping mapper 64 32 = Some (true, (64, 32), [])
    ∧ 0 ≤ 63 < 64 ∧ 0 ≤ 0 < 32
    ∧ MapVisibleToMatrix mapper at_program_start 64 32 63 0
      = Some (s', Written 63 63)
    ∧ ¬ in_matrix 64 32 (Written 63 63).
Proof.
  do 2 eexists. repeat split; try reflexivity; try lia.
  simpl. lia.
Qed.


(** * Further properties of the mappers and the registry *)

(** ** What [SetParameters] does to the object *)

(** Every [SetParameters] keeps the class of the object; one that fails
    leaves the object as it was and has printed why. *)
Lemma set_parameters_outcome (mapper mapper' : PixelMapper)
    (chain parallel : Z) (param : option string) (ok : bool)
    (out : list diagnostic) :
  SetParameters mapper chain parallel param = Some (ok, mapper', out) →
  GetName mapper' = GetName mapper
  ∧ (ok = false → mapper' = mapper ∧ out ≠ []).
Proof.
  destruct mapper as [m | m | m | m | m | m | m]; simpl; intros Hset.
  - unfold RowArrangementMapper.SetParameters in Hset.
    repeat (case_decide || case_match); simplify_eq/=; done.
  - destruct (RotatePanelPixelMapper.SetParameters _ _ _ _)
      as [[[ok' m'] out']|] eqn:Hm; simplify_eq/=.
    by apply rotate_panel_configured in Hm as (-> & _).
  - destruct (ReorderPixelMapper.SetParameters _ _ _ _)
      as [[[ok' m'] out']|] eqn:Hm; simplify_eq/=.
    by apply reorder_configured in Hm as (-> & _).
  - unfold RotatePixelMapper.SetParameters in Hset.
    destruct param as [p|]; [| by simplify_eq/=].
    case_decide; [by simplify_eq/= |].
    destruct (CString.strtol p) as [[angle|] errpos]; simpl in Hset; [| done].
    destruct (CString.nonempty errpos); [by simplify_eq/= |].
    destruct (angle %ᵢ 90) as [r|]; simpl in Hset; [| done].
    case_decide; [by simplify_eq/= |].
    destruct ((angle +ᵢ 360) %ᵢ 360) as [a|]; by simplify_eq/=.
  - unfold MirrorPixelMapper.SetParameters in Hset.
    destruct param as [p|]; [| by simplify_eq/=].
    case_decide; [by simplify_eq/= |].
    repeat case_match; simplify_eq/=;
      (split; [done |]; intros; (done || (split; [done |]);
         by destruct (decide _))).
  - unfold UArrangementMapper.SetParameters in Hset.
    case_decide; [by simplify_eq/= |].
    destruct (chain %ᵢ 2) as [r|]; simpl in Hset; [| done].
    case_decide; by simplify_eq/=.
  - by simplify_eq/=.
Qed.

(** X1.  [SetParameters] of any mapper keeps the class of the object.  When
    it fails the object is as it was before the call and a message has
    been printed; Rotate-panel, Reorder and the V-mapper never fail. *)
Theorem X1_failed_configuration_changes_nothing
    (mapper mapper' : PixelMapper) (chain parallel : Z)
    (param : option string) (ok : bool) (out : list diagnostic) :
  SetParameters mapper chain parallel param = Some (ok, mapper', out) →
  GetName mapper' = GetName mapper
  ∧ (if ok then True else mapper' = mapper ∧ out ≠ [])
  ∧ match mapper with
    | RotatePanel _ | Reorder _ | Vertical _ => ok = true
    | RowArrangement _ | Rotate _ | Mirror _ | UArrangement _ => True
    end.
Proof.
  intros Hset.
  destruct (set_parameters_outcome _ _ _ _ _ _ _ Hset) as [Hname Hfail].
  split; [done |]. split; [destruct ok; auto |].
  destruct mapper as [m | m | m | m | m | m | m]; simpl in Hset; try done.
  - destruct (RotatePanelPixelMapper.SetParameters _ _ _ _)
      as [[[ok' m'] out']|] eqn:Hm; simplify_eq/=.
    by apply rotate_panel_configured in Hm as (-> & _).
  - destruct (ReorderPixelMapper.SetParameters _ _ _ _)
      as [[[ok' m'] out']|] eqn:Hm; simplify_eq/=.
    by apply reorder_configured in Hm as (-> & _).
  - by simplify_eq/=.
Qed.

Lemma X1_failed_configuration_changes_nothing_witness :
  let mapper :=
    UArrangement {| UArrangementMapper.parallel_ := 4 |} in
  GetName mapper = GetName mapper
  ∧ (mapper = mapper ∧ [chain_not_divisible_by_two] ≠ [])
  ∧ True.
Proof.
  exact (X1_failed_configuration_changes_nothing
           (UArrangement {| UArrangementMapper.parallel_ := 4 |})
           (UArrangement {| UArrangementMapper.parallel_ := 4 |})
           3 2 None false [chain_not_divisible_by_two] eq_refl).
Defined.

(** ** Mirror *)

(** X2.  Mirroring twice gives the pixel back: the image of a pixel of the
    matrix under [MapVisibleToMatrix] is mapped to that pixel again, for
    the horizontal and for the vertical mirror. *)
Theorem X2_mirror_twice_is_identity (self : MirrorPixelMapper.t)
    (mw mh x y : Z) :
  0 < mw ≤ Int.INT_MAX → 0 < mh ≤ Int.INT_MAX →
  0 ≤ x < mw → 0 ≤ y < mh →
  ∃ mx my : Z,
    MirrorPixelMapper.MapVisibleToMatrix self mw mh x y
      = Some (Written mx my)
    ∧ (0 ≤ mx < mw ∧ 0 ≤ my < mh)
    ∧ MirrorPixelMapper.MapVisibleToMatrix self mw mh mx my
      = Some (Written x y).
Proof.
  intros Hmw Hmh Hx Hy. unfold MirrorPixelMapper.MapVisibleToMatrix.
  destruct (MirrorPixelMapper.horizontal_ self).
  - exists (mw - 1 - x), y. int_eval range.
    split; [done |]. split; [lia |]. do 2 f_equal. lia.
  - exists x, (mh - 1 - y). int_eval range.
    split; [done |]. split; [lia |]. do 2 f_equal. lia.
Qed.

Lemma X2_mirror_twice_is_identity_witness :
  ∃ mx my : Z,
    MirrorPixelMapper.MapVisibleToMatrix MirrorPixelMapper.new 64 32 5 7
      = Some (Written mx my)
    ∧ (0 ≤ mx < 64 ∧ 0 ≤ my < 32)
    ∧ MirrorPixelMapper.MapVisibleToMatrix MirrorPixelMapper.new 64 32 mx my
      = Some (Written 5 7).
Proof.
  apply X2_mirror_twice_is_identity; unfold Int.INT_MAX; lia.
Defined.

(** Refutes the membership [H] of an element in a list of constants that
    differ from it. *)
Ltac not_in_list H :=
  repeat (apply elem_of_cons in H as [H | H]; [done |]);
  by apply elem_of_nil in H.

(** X3.  [SetParameters] of Mirror looks at the first character of a
    parameter that is not empty, whatever follows it: the call succeeds
    exactly when that character is one of [V], [v], [H], [h], the mirror
    is horizontal for [H] and [h], and the message about a single
    character is printed exactly when the parameter is longer. *)
Theorem X3_mirror_reads_first_character (self self' : MirrorPixelMapper.t)
    (chain parallel : Z) (p : string) (ok : bool) (out : list diagnostic) :
  p ≠ "" →
  MirrorPixelMapper.SetParameters self chain parallel (Some p)
    = Some (ok, self', out) →
  (ok = true ↔ CString.first_char p ∈ ["V"; "v"; "H"; "h"]%char)
  ∧ (ok = true →
     MirrorPixelMapper.horizontal_ self'
     = bool_decide (CString.first_char p ∈ ["H"; "h"]%char))
  ∧ (single_character_expected "Mirror" ∈ out ↔ String.length p ≠ 1%nat).
Proof.
  intros Hp. destruct p as [| c rest]; [done |].
  unfold MirrorPixelMapper.SetParameters, CString.strlen.
  rewrite decide_False by (simpl; lia).
  destruct rest as [| c' rest'].
  - rewrite decide_False by (simpl; lia). simpl.
    intros Hset. repeat case_match; simplify_eq; simpl.
    all: split;
      [split; [try done; intros _; repeat constructor
              | try done; intros Hin; not_in_list Hin] |].
    all: split; [try done |].
    all: split; [intros Hin; not_in_list Hin | done].
  - rewrite decide_True by (simpl; lia). simpl.
    intros Hset. repeat case_match; simplify_eq; simpl.
    all: split;
      [split; [try done; intros _; repeat constructor
              | try done; intros Hin; not_in_list Hin] |].
    all: split; [try done |].
    all: split; [intros _; lia | intros _; constructor].
Qed.

Lemma X3_mirror_reads_first_character_witness :
  (true = true ↔ CString.first_char "Vx" ∈ ["V"; "v"; "H"; "h"]%char)
  ∧ (true = true →
     MirrorPixelMapper.horizontal_
       {| MirrorPixelMapper.horizontal_ := false |}
     = bool_decide (CString.first_char "Vx" ∈ ["H"; "h"]%char))
  ∧ (single_character_expected "Mirror"
       ∈ [single_character_expected "Mirror"]
     ↔ String.length "Vx" ≠ 1%nat).
Proof.
  apply (X3_mirror_reads_first_character MirrorPixelMapper.new
           {| MirrorPixelMapper.horizontal_ := false |} 1 1 "Vx" true
           [single_character_expected "Mirror"]).
  - discriminate.
  - reflexivity.
Defined.

(** ** Rotate *)

(** X4.  [SetParameters] of Rotate on a parameter that is not empty, by
    what [strtol] reads from it: text after the number and a number that
    is no multiple of 90 are refused, each with its message and the object
    left alone.  A multiple of 90 that is at least -360 is accepted and
    stored modulo 360, which is 0, 90, 180 or 270. *)
Theorem X4_rotate_angle_modulo_360 (self : RotatePixelMapper.t)
    (chain parallel : Z) (p : string) (angle : Z) (errpos : string) :
  p ≠ "" →
  CString.strtol p = (Some angle, errpos) →
  -360 ≤ angle ≤ Int.INT_MAX - 360 →
  RotatePixelMapper.SetParameters self chain parallel (Some p)
  = (if CString.nonempty errpos then
       Some (false, self, [invalid_rotate_parameter p])
     else if decide (Z.rem angle 90 = 0) then
       Some (true, {| RotatePixelMapper.angle_ := angle mod 360 |}, [])
     else Some (false, self, [rotation_not_multiple_of_90]))
  ∧ (Z.rem angle 90 = 0 → angle mod 360 ∈ [0; 90; 180; 270]).
Proof.
  intros Hp Hstrtol Hangle. split.
  - unfold RotatePixelMapper.SetParameters, CString.strlen.
    rewrite decide_False by (destruct p; [done | simpl; lia]).
    rewrite Hstrtol. simpl.
    destruct (CString.nonempty errpos); [done |].
    pose proof (quot_bounds (angle + 360) 360 ltac:(lia) ltac:(lia)) as Hq.
    assert (Hq90 : -4 ≤ angle ÷ 90 ≤ angle + 360).
    { pose proof (Z.quot_rem angle 90 ltac:(lia)).
      pose proof (Z.rem_bound_abs angle 90 ltac:(lia)). lia. }
    assert (Hnorm : Z.rem (angle + 360) 360 = angle mod 360).
    { rewrite Z.rem_mod_nonneg by lia.
      rewrite <- (Z.mod_add angle 1 360) by lia. by f_equal. }
    int_unfold. rewrite (of_Z_Some (angle ÷ 90)) by range. simpl.
    destruct (decide (Z.rem angle 90 = 0)) as [Hrem | Hrem].
    + rewrite (decide_False (P := Z.rem angle 90 ≠ 0)) by lia.
      repeat int_step range. by rewrite Hnorm.
    + by rewrite (decide_True (P := Z.rem angle 90 ≠ 0)) by lia.
  - intros Hrem. rewrite Z.rem_divide in Hrem by lia.
    destruct Hrem as [k ->].
    pose proof (Z.mod_pos_bound (k * 90) 360 ltac:(lia)) as Hbound.
    assert (Hk : (k * 90) mod 360 = 90 * (k mod 4)).
    { replace (k * 90) with (90 * k) by lia.
      replace 360 with (90 * 4) by lia.
      rewrite Z.mul_mod_distr_l by lia. reflexivity. }
    pose proof (Z.mod_pos_bound k 4 ltac:(lia)) as Hk4.
    rewrite Hk.
    assert (Hcases : k mod 4 = 0 ∨ k mod 4 = 1 ∨ k mod 4 = 2 ∨ k mod 4 = 3)
      by lia.
    destruct Hcases as [-> | [-> | [-> | ->]]]; simpl; repeat constructor.
Qed.

Lemma X4_rotate_angle_modulo_360_witness :
  RotatePixelMapper.SetParameters RotatePixelMapper.new 1 1 (Some "-270")
  = Some (true, {| RotatePixelMapper.angle_ := (-270) mod 360 |}, [])
  ∧ (Z.rem (-270) 90 = 0 → (-270) mod 360 ∈ [0; 90; 180; 270]).
Proof.
  apply (X4_rotate_angle_modulo_360 RotatePixelMapper.new 1 1 "-270"
           (-270) "").
  - discriminate.
  - reflexivity.
  - unfold Int.INT_MAX. lia.
Defined.

(** X5.  A parameter below -360 is not brought into the range of the four
    cases: for a multiple of 90 below -360 that is no multiple of 360 the
    call succeeds, the stored angle is negative, and [MapVisibleToMatrix]
    of the mapper so configured stores nothing, whatever the pixel. *)
Theorem X5_rotate_below_minus_360 (self : RotatePixelMapper.t)
    (chain parallel : Z) (p : string) (angle mw mh x y : Z) :
  p ≠ "" →
  CString.strtol p = (Some angle, "") →
  angle < -360 → Z.rem angle 90 = 0 → Z.rem angle 360 ≠ 0 →
  ∃ self' : RotatePixelMapper.t,
    RotatePixelMapper.SetParameters self chain parallel (Some p)
      = Some (true, self', [])
    ∧ RotatePixelMapper.angle_ self' < 0
    ∧ RotatePixelMapper.MapVisibleToMatrix self' mw mh x y
      = Some NotWritten.
Proof.
  intros Hp Hstrtol Hlow Hrem Hturn.
  assert (Hrange : Int.INT_MIN ≤ angle ≤ Int.INT_MAX).
  { assert (Hatoi : CString.atoi p = Some angle)
      by (unfold CString.atoi; by rewrite Hstrtol).
    by apply atoi_representable in Hatoi. }
  pose proof (Z.quot_rem angle 90 ltac:(lia)) as H90.
  pose proof (Z.quot_rem angle 360 ltac:(lia)) as H360.
  pose proof (Z.rem_bound_pos_neg angle 360 ltac:(lia) ltac:(lia)) as Hneg.
  pose proof (Z.quot_rem (angle + 360) 360 ltac:(lia)) as Hsum.
  pose proof (Z.rem_bound_pos_neg (angle + 360) 360 ltac:(lia) ltac:(lia))
    as Hsumneg.
  assert (Hstored : Z.rem (angle + 360) 360 = Z.rem angle 360) by lia.
  exists {| RotatePixelMapper.angle_ := Z.rem angle 360 |}.
  split; [| split].
  - unfold RotatePixelMapper.SetParameters, CString.strlen.
    rewrite decide_False by (destruct p; [done | simpl; lia]).
    rewrite Hstrtol. simpl. int_unfold.
    rewrite (of_Z_Some (angle ÷ 90)) by range. simpl.
    rewrite decide_False by lia.
    rewrite (of_Z_Some (angle + 360)) by range. simpl.
    rewrite (of_Z_Some ((angle + 360) ÷ 360)) by range. simpl.
    by rewrite Hstored.
  - simpl. lia.
  - unfold RotatePixelMapper.MapVisibleToMatrix. simpl.
    destruct (Z.rem angle 360) as [| pos | neg] eqn:Hr; [lia | lia | done].
Qed.

Lemma X5_rotate_below_minus_360_witness :
  ∃ self' : RotatePixelMapper.t,
    RotatePixelMapper.SetParameters RotatePixelMapper.new 1 1 (Some "-450")
      = Some (true, self', [])
    ∧ RotatePixelMapper.angle_ self' < 0
    ∧ RotatePixelMapper.MapVisibleToMatrix self' 64 32 3 4
      = Some NotWritten.
Proof.
  apply (X5_rotate_below_minus_360 RotatePixelMapper.new 1 1 "-450" (-450)).
  - discriminate.
  - reflexivity.
  - lia.
  - reflexivity.
  - discriminate.
Defined.

(** X6.  For each of the four angles that Rotate has a case for, every
    pixel of the matrix is the image of exactly one pixel of the visible
    area that [GetSizeMapping] returns. *)
Theorem X6_rotate_one_to_one (self : RotatePixelMapper.t)
    (mw mh vw vh : Z) :
  RotatePixelMapper.angle_ self ∈ [0; 90; 180; 270] →
  0 < mw ≤ Int.INT_MAX → 0 < mh ≤ Int.INT_MAX →
  RotatePixelMapper.GetSizeMapping self mw mh = Some (true, (vw, vh), []) →
  one_to_one (RotatePixelMapper.MapVisibleToMatrix self mw mh) vw vh mw mh.
Proof.
  intros Hangle Hmw Hmh Hsize mx my Hmx Hmy.
  destruct self as [angle]. simpl in Hangle.
  unfold RotatePixelMapper.GetSizeMapping in Hsize.
  unfold RotatePixelMapper.MapVisibleToMatrix.
  rewrite !elem_of_cons, elem_of_nil in Hangle.
  destruct Hangle as [-> | [-> | [-> | [-> | []]]]];
    injection Hsize as <- <-; simpl.
  - exists mx, my. split; [lia |]. split; [done |].
    intros x' y' Hx' Hy' [= -> ->]. done.
  - exists my, (mw - mx - 1). split; [lia |]. split.
    + int_eval range. do 2 f_equal. lia.
    + intros x' y' Hx' Hy'. int_eval range. intros [= <- <-]. lia.
  - exists (mw - mx - 1), (mh - my - 1). split; [lia |]. split.
    + int_eval range. f_equal. f_equal; lia.
    + intros x' y' Hx' Hy'. int_eval range. intros [= <- <-]. lia.
  - exists (mh - my - 1), mx. split; [lia |]. split.
    + int_eval range. do 2 f_equal. lia.
    + intros x' y' Hx' Hy'. int_eval range. intros [= <- <-]. lia.
Qed.

Lemma X6_rotate_one_to_one_witness :
  one_to_one
    (RotatePixelMapper.MapVisibleToMatrix
       {| RotatePixelMapper.angle_ := 270 |} 64 32) 32 64 64 32.
Proof.
  apply X6_rotate_one_to_one.
  - simpl. repeat constructor.
  - unfold Int.INT_MAX. lia.
  - unfold Int.INT_MAX. lia.
  - reflexivity.
Defined.

(** ** Row-mapper *)

Section row_whole_panels.
Variables (self : RowArrangementMapper.t) (chain parallel pw ph : Z).
Hypothesis Hchain : RowArrangementMapper.chain_ self = chain.
Hypothesis Hparallel : RowArrangementMapper.parallel_ self = parallel.
Hypothesis Hc : 0 < chain.
Hypothesis Hp : 2 ≤ parallel.
Hypothesis Hpw : 0 < pw.
Hypothesis Hph : 0 < ph.
Hypothesis Hwidth : chain * pw * parallel ≤ Int.INT_MAX.
Hypothesis Hheight : parallel * ph ≤ Int.INT_MAX.

Lemma row_visible_size :
  RowArrangementMapper.GetSizeMapping self (chain * pw) (parallel * ph)
  = Some (true,
          (chain * pw * parallel
           - row_hidden (RowArrangementMapper.mode_ self) pw, ph), []).
Proof.
  assert (Hmw : 0 < chain * pw) by nia.
  assert (Hmw2 : 2 * (chain * pw) ≤ chain * pw * parallel) by nia.
  assert (Hpwmw : pw ≤ chain * pw) by nia.
  assert (Hqw : chain * pw ÷ chain = pw) by (apply quot_exact; lia).
  assert (Hqh : parallel * ph ÷ parallel = ph) by (apply quot_exact; lia).
  assert (Hph' : ph ≤ parallel * ph) by nia.
  unfold RowArrangementMapper.GetSizeMapping, row_hidden.
  rewrite Hchain, Hparallel.
  destruct (RowArrangementMapper.mode_ self);
    int_unfold; rewrite ?Hqw, ?Hqh; repeat int_step range;
    repeat f_equal; lia.
Qed.

(** In every mode a visible pixel is the pixel [x + row_shift] of the long
    row, cut into pieces of the matrix width that are stacked. *)
Lemma row_maps (x y : Z) :
  0 ≤ x < chain * pw * parallel
          - row_hidden (RowArrangementMapper.mode_ self) pw →
  0 ≤ y < ph →
  RowArrangementMapper.MapVisibleToMatrix self
    (chain * pw) (parallel * ph) x y
  = let X := x + row_shift (RowArrangementMapper.mode_ self) pw in
    Some (Written (Z.rem X (chain * pw)) (X ÷ (chain * pw) * ph + y)).
Proof.
  unfold row_hidden, row_shift. intros Hx Hy. cbn zeta.
  set (mw := chain * pw) in *.
  assert (Hmw : 0 < mw) by (unfold mw; nia).
  assert (Hpwmw : pw ≤ mw) by (unfold mw; nia).
  assert (Hqw : mw ÷ chain = pw) by (apply quot_exact; lia).
  assert (Hqh : parallel * ph ÷ parallel = ph) by (apply quot_exact; lia).
  assert (Hph' : ph ≤ parallel * ph) by nia.
  unfold RowArrangementMapper.MapVisibleToMatrix.
  rewrite Hchain, Hparallel.
  destruct (RowArrangementMapper.mode_ self).
  1, 2: rewrite Z.add_0_r;
        destruct (panel_of_coordinate parallel mw x Hmw ltac:(lia))
          as [Hq Hr];
        pose proof (rem_eq x mw ltac:(lia)) as Hrem;
        assert (0 ≤ x ÷ mw * ph ≤ (parallel - 1) * ph) by nia.
  3: destruct (panel_of_coordinate parallel mw (x + pw) Hmw ltac:(lia))
       as [Hq Hr];
     pose proof (rem_eq (x + pw) mw ltac:(lia)) as Hrem;
     destruct (panel_of_coordinate parallel mw x Hmw ltac:(lia))
       as [Hq' Hr'];
     assert (0 ≤ (x + pw) ÷ mw * ph ≤ (parallel - 1) * ph) by nia.
  all: int_unfold; rewrite ?Hqw, ?Hqh; repeat int_step range; reflexivity.
Qed.

(** Two pixels of the long row that land on the same pixel of the matrix
    are the same pixel. *)
Lemma row_position_unique (X X' y y' : Z) :
  0 ≤ X → 0 ≤ X' → 0 ≤ y < ph → 0 ≤ y' < ph →
  Z.rem X (chain * pw) = Z.rem X' (chain * pw) →
  X ÷ (chain * pw) * ph + y = X' ÷ (chain * pw) * ph + y' →
  X = X' ∧ y = y'.
Proof.
  intros HX HX' Hy Hy' Hrem Hrow.
  assert (Hmw : 0 < chain * pw) by nia.
  pose proof (rem_eq X (chain * pw) ltac:(lia)).
  pose proof (rem_eq X' (chain * pw) ltac:(lia)).
  assert (X ÷ (chain * pw) = X' ÷ (chain * pw)) by nia.
  split; [| nia]. lia.
Qed.

End row_whole_panels.

(** X7.  In each of its three modes the Row-mapper sends different pixels
    of the visible area to different pixels of the matrix. *)
Theorem X7_row_never_overlaps (self0 self : RowArrangementMapper.t)
    (chain parallel : Z) (param : option string) (out : list diagnostic)
    (pw ph vw vh : Z) :
  RowArrangementMapper.SetParameters self0 chain parallel param
    = Some (true, self, out) →
  0 < chain → 0 < pw → 0 < ph →
  chain * pw * parallel ≤ Int.INT_MAX → parallel * ph ≤ Int.INT_MAX →
  RowArrangementMapper.GetSizeMapping self (chain * pw) (parallel * ph)
    = Some (true, (vw, vh), []) →
  never_overlaps
    (RowArrangementMapper.MapVisibleToMatrix self
       (chain * pw) (parallel * ph)) vw vh.
Proof.
  intros Hset Hc Hpw Hph Hw Hh Hsize.
  destruct (row_configured _ _ _ _ _ _ Hset) as (Hp & Hchain & Hparallel).
  rewrite (row_visible_size self chain parallel pw ph) in Hsize by done.
  injection Hsize as <- <-.
  intros x y x' y' r Hx Hy Hx' Hy'.
  rewrite !(row_maps self chain parallel pw ph) by done. cbn zeta.
  intros [= <-] [= Hcol Hrow].
  assert (Hshift : 0 ≤ row_shift (RowArrangementMapper.mode_ self) pw)
    by (unfold row_shift; destruct (RowArrangementMapper.mode_ self); lia).
  destruct (row_position_unique chain parallel pw ph Hc Hp Hpw Hph
              (x + row_shift (RowArrangementMapper.mode_ self) pw)
              (x' + row_shift (RowArrangementMapper.mode_ self) pw) y y');
    try done; try lia.
Qed.

Lemma X7_row_never_overlaps_witness :
  never_overlaps
    (RowArrangementMapper.MapVisibleToMatrix
       {| RowArrangementMapper.chain_ := 2;
          RowArrangementMapper.parallel_ := 3;
          RowArrangementMapper.mode_ := RowArrangementMapper.band_vertical |}
       (2 * 32) (3 * 16)) (2 * 32 * 3 - 32 * 2) 16.
Proof.
  apply (X7_row_never_overlaps
           {| RowArrangementMapper.chain_ := 0;
              RowArrangementMapper.parallel_ := 0;
              RowArrangementMapper.mode_ := RowArrangementMapper.normal |}
           _ 2 3 (Some "V") [] 32 16).
  - reflexivity.
  - lia.
  - lia.
  - lia.
  - unfold Int.INT_MAX. lia.
  - unfold Int.INT_MAX. lia.
  - reflexivity.
Defined.

(** X8.  In normal mode the Row-mapper uses the whole matrix: every pixel
    of the matrix is the image of exactly one visible pixel. *)
Theorem X8_row_normal_one_to_one (self0 self : RowArrangementMapper.t)
    (chain parallel : Z) (param : option string) (out : list diagnostic)
    (pw ph vw vh : Z) :
  RowArrangementMapper.SetParameters self0 chain parallel param
    = Some (true, self, out) →
  RowArrangementMapper.mode_ self = RowArrangementMapper.normal →
  0 < chain → 0 < pw → 0 < ph →
  chain * pw * parallel ≤ Int.INT_MAX → parallel * ph ≤ Int.INT_MAX →
  RowArrangementMapper.GetSizeMapping self (chain * pw) (parallel * ph)
    = Some (true, (vw, vh), []) →
  one_to_one
    (RowArrangementMapper.MapVisibleToMatrix self
       (chain * pw) (parallel * ph))
    vw vh (chain * pw) (parallel * ph).
Proof.
  intros Hset Hmode Hc Hpw Hph Hw Hh Hsize.
  destruct (row_configured _ _ _ _ _ _ Hset) as (Hp & Hchain & Hparallel).
  pose proof (row_maps self chain parallel pw ph Hchain Hparallel
                Hc Hp Hpw Hph Hw Hh) as Hmaps.
  rewrite (row_visible_size self chain parallel pw ph) in Hsize by done.
  injection Hsize as <- <-.
  rewrite Hmode in *. simpl in *.
  assert (Hmw : 0 < chain * pw) by nia.
  intros mx my Hmx Hmy.
  destruct (panel_of_coordinate parallel ph my Hph Hmy) as [Hrow Hin].
  assert (Hx : 0 ≤ my ÷ ph * (chain * pw) + mx
               < chain * pw * parallel - 0) by nia.
  assert (Hq : (my ÷ ph * (chain * pw) + mx) ÷ (chain * pw) = my ÷ ph).
  { rewrite (Z.mul_comm (my ÷ ph)). apply quot_mul_add; lia. }
  exists (my ÷ ph * (chain * pw) + mx), (my - ph * (my ÷ ph)).
  split; [lia |]. split.
  - rewrite Hmaps by lia. rewrite Z.add_0_r.
    rewrite rem_eq by lia. rewrite Hq. do 2 f_equal; lia.
  - intros x' y' Hx' Hy'. rewrite Hmaps by lia. rewrite Z.add_0_r.
    intros [= Hcol Hrow'].
    destruct (row_position_unique chain parallel pw ph Hc Hp Hpw Hph
                x' (my ÷ ph * (chain * pw) + mx) y' (my - ph * (my ÷ ph)));
      try done; try lia.
    rewrite Hcol. rewrite (rem_eq (_ + mx)) by lia. rewrite Hq. lia.
Qed.

Lemma X8_row_normal_one_to_one_witness :
  one_to_one
    (RowArrangementMapper.MapVisibleToMatrix
       {| RowArrangementMapper.chain_ := 2;
          RowArrangementMapper.parallel_ := 3;
          RowArrangementMapper.mode_ := RowArrangementMapper.normal |}
       (2 * 32) (3 * 16)) (2 * 32 * 3) 16 (2 * 32) (3 * 16).
Proof.
  apply (X8_row_normal_one_to_one
           {| RowArrangementMapper.chain_ := 0;
              RowArrangementMapper.parallel_ := 0;
              RowArrangementMapper.mode_ := RowArrangementMapper.normal |}
           _ 2 3 None [] 32 16).
  - reflexivity.
  - reflexivity.
  - lia.
  - lia.
  - lia.
  - unfold Int.INT_MAX. lia.
  - unfold Int.INT_MAX. lia.
  - reflexivity.
Defined.

(** ** U-mapper and V-mapper: which pixel goes where *)

(** A mapping that never sends two visible pixels to one place and reaches
    every pixel of the matrix is one to one. *)
Lemma one_to_one_intro (f : Z → Z → option mapped) (vw vh mw mh : Z) :
  never_overlaps f vw vh →
  (∀ mx my, 0 ≤ mx < mw → 0 ≤ my < mh →
     ∃ x y, (0 ≤ x < vw ∧ 0 ≤ y < vh) ∧ f x y = Some (Written mx my)) →
  one_to_one f vw vh mw mh.
Proof.
  intros Hinj Hsurj mx my Hmx Hmy.
  destruct (Hsurj mx my Hmx Hmy) as (x & y & [Hx Hy] & Hf).
  exists x, y. split; [done |]. split; [done |].
  intros x' y' Hx' Hy' Hf'.
  by apply (Hinj x' y' x y (Written mx my)).
Qed.

(** Quotient and remainder of a number put together from both. *)
Lemma quot_rem_unique (b q q' r r' : Z) :
  0 ≤ r < b → 0 ≤ r' < b → q * b + r = q' * b + r' → q = q' ∧ r = r'.
Proof.
  intros Hr Hr' Heq.
  apply (Z.div_mod_unique b); [lia | lia | lia].
Qed.

Section u_whole_panels.

Variable self : UArrangementMapper.t.
Variables parallel mw ph : Z.
Hypothesis Hparallel : UArrangementMapper.parallel_ self = parallel.
Hypothesis Hp : 0 < parallel.
Hypothesis Hmw : 0 < mw ≤ Int.INT_MAX.
Hypothesis Hph : 0 < ph.
Hypothesis Hh : 2 * (parallel * ph) ≤ Int.INT_MAX.

Lemma u_visible_size :
  UArrangementMapper.GetSizeMapping self mw (parallel * ph)
  = Some (true, (mw ÷ 64 * 32, 2 * (parallel * ph)), []).
Proof.
  assert (Hrh : Z.rem (parallel * ph) parallel = 0)
    by (rewrite Z.mul_comm; apply Z.rem_mul; lia).
  assert (Hph' : ph ≤ parallel * ph) by nia.
  assert (Hqh : parallel * ph ÷ parallel = ph) by (apply quot_exact; lia).
  pose proof (quot_bounds mw 64 ltac:(lia) ltac:(lia)) as Hq64.
  unfold UArrangementMapper.GetSizeMapping. rewrite Hparallel.
  int_unfold. rewrite ?Hqh, ?Hrh. repeat int_step range.
  rewrite decide_False by lia. reflexivity.
Qed.

(** The upper half of each slab goes to the right half of the matrix, the
    lower half is turned around and goes to the left. *)
Lemma u_maps (x y : Z) :
  0 ≤ x < mw ÷ 64 * 32 → 0 ≤ y < 2 * (parallel * ph) →
  UArrangementMapper.MapVisibleToMatrix self mw (parallel * ph) x y
  = let slab := y ÷ (2 * ph) in
    let row := y - 2 * ph * slab in
    Some (if decide (row < ph)
          then Written (x + mw ÷ 2) (slab * ph + row)
          else Written (mw ÷ 64 * 32 - x - 1)
                       (slab * ph + (2 * ph - row - 1))).
Proof.
  intros Hx Hy. cbn zeta.
  assert (Hqh : parallel * ph ÷ parallel = ph) by (apply quot_exact; lia).
  assert (Hph' : ph ≤ parallel * ph) by nia.
  pose proof (quot_bounds mw 64 ltac:(lia) ltac:(lia)) as Hq64.
  pose proof (quot_bounds mw 2 ltac:(lia) ltac:(lia)) as Hq2.
  unfold UArrangementMapper.MapVisibleToMatrix. rewrite Hparallel.
  destruct (panel_of_coordinate parallel (2 * ph) y ltac:(lia) ltac:(lia))
    as [Hslab Hy'].
  pose proof (rem_eq y (2 * ph) ltac:(lia)) as Hrem.
  assert (0 ≤ y ÷ (2 * ph) * ph ≤ (parallel - 1) * ph) by nia.
  int_unfold. rewrite ?Hqh. repeat int_step range.
  rewrite Hrem.
  case_decide; repeat int_step range; reflexivity.
Qed.

Lemma u_never_overlaps :
  never_overlaps
    (UArrangementMapper.MapVisibleToMatrix self mw (parallel * ph))
    (mw ÷ 64 * 32) (2 * (parallel * ph)).
Proof.
  intros x y x' y' r Hx Hy Hx' Hy'.
  rewrite !u_maps by done. cbn zeta.
  pose proof (quot_bounds mw 64 ltac:(lia) ltac:(lia)) as Hq64.
  pose proof (quot_bounds mw 2 ltac:(lia) ltac:(lia)) as Hq2.
  destruct (panel_of_coordinate parallel (2 * ph) y ltac:(lia) ltac:(lia))
    as [Hslab Hrow].
  destruct (panel_of_coordinate parallel (2 * ph) y' ltac:(lia) ltac:(lia))
    as [Hslab' Hrow'].
  intros [= <-].
  repeat case_decide; intros [= Hcol Hline]; try lia.
  - destruct (quot_rem_unique ph (y ÷ (2 * ph)) (y' ÷ (2 * ph))
                (y - 2 * ph * (y ÷ (2 * ph)))
                (y' - 2 * ph * (y' ÷ (2 * ph)))); lia.
  - destruct (quot_rem_unique ph (y ÷ (2 * ph)) (y' ÷ (2 * ph))
                (2 * ph - (y - 2 * ph * (y ÷ (2 * ph))) - 1)
                (2 * ph - (y' - 2 * ph * (y' ÷ (2 * ph))) - 1)); lia.
Qed.

End u_whole_panels.

(** X9.  The U-mapper never sends two visible pixels to the same pixel of
    the matrix, and it uses every pixel of the matrix exactly once if and
    only if the width of the matrix is a multiple of 64.  For any other
    width no visible pixel is written to the last column of the matrix, in
    whatever row. *)
Theorem X9_u_one_to_one_iff_width_multiple_of_64
    (self0 self : UArrangementMapper.t) (chain parallel : Z)
    (param : option string) (out : list diagnostic) (mw ph vw vh : Z) :
  UArrangementMapper.SetParameters self0 chain parallel param
    = Some (true, self, out) →
  0 < parallel → 0 < mw ≤ Int.INT_MAX → 0 < ph →
  2 * (parallel * ph) ≤ Int.INT_MAX →
  UArrangementMapper.GetSizeMapping self mw (parallel * ph)
    = Some (true, (vw, vh), []) →
  never_overlaps
    (UArrangementMapper.MapVisibleToMatrix self mw (parallel * ph)) vw vh
  ∧ (one_to_one
       (UArrangementMapper.MapVisibleToMatrix self mw (parallel * ph))
       vw vh mw (parallel * ph)
     ↔ Z.rem mw 64 = 0)
  ∧ (Z.rem mw 64 ≠ 0 →
     ∀ x y my : Z, 0 ≤ x < vw → 0 ≤ y < vh →
       UArrangementMapper.MapVisibleToMatrix self mw (parallel * ph) x y
       ≠ Some (Written (mw - 1) my)).
Proof.
  intros Hset Hp Hmw Hph Hh Hsize.
  destruct (u_configured _ _ _ _ _ _ Hset) as [_ Hparallel].
  rewrite (u_visible_size self parallel mw ph) in Hsize by done.
  injection Hsize as <- <-.
  pose proof (u_never_overlaps self parallel mw ph Hparallel Hp Hmw Hph Hh)
    as Hinj.
  pose proof (u_maps self parallel mw ph Hparallel Hp Hmw Hph Hh) as Hmaps.
  cbn zeta in Hmaps.
  pose proof (quot_bounds mw 64 ltac:(lia) ltac:(lia)) as Hq64.
  pose proof (quot_bounds mw 2 ltac:(lia) ltac:(lia)) as Hq2.
  pose proof (rem_eq mw 64 ltac:(lia)) as Hrem.
  assert (Hlast : Z.rem mw 64 ≠ 0 →
            ∀ x y my : Z,
              0 ≤ x < mw ÷ 64 * 32 → 0 ≤ y < 2 * (parallel * ph) →
              UArrangementMapper.MapVisibleToMatrix self mw (parallel * ph)
                x y
              ≠ Some (Written (mw - 1) my)).
  { intros Hne x y my Hx Hy Hxy. rewrite Hmaps in Hxy by done.
    case_decide; injection Hxy as Hcol Hline; lia. }
  split; [done |]. split; [| done]. split.
  - (* the last column of a matrix of another width is never reached *)
    intros Hall.
    destruct (decide (Z.rem mw 64 = 0)) as [| Hne]; [done | exfalso].
    destruct (Hall (mw - 1) 0 ltac:(lia) ltac:(nia))
      as (x & y & [Hx Hy] & Hxy & _).
    by apply (Hlast Hne x y 0).
  - intros Hwidth. apply one_to_one_intro; [done |].
    intros mx my Hmx Hmy.
    destruct (panel_of_coordinate parallel ph my Hph Hmy) as [Hslab Hrow].
    set (slab := my ÷ ph) in *. set (row := my - ph * slab) in *.
    destruct (decide (mw ÷ 2 ≤ mx)) as [Hright | Hleft].
    + exists (mx - mw ÷ 2), (2 * ph * slab + row).
      assert (Hq : (2 * ph * slab + row) ÷ (2 * ph) = slab)
        by (apply quot_mul_add; lia).
      split; [nia |]. rewrite Hmaps by nia. rewrite Hq.
      rewrite decide_True by lia. do 2 f_equal; lia.
    + exists (mw ÷ 64 * 32 - 1 - mx), (2 * ph * slab + (2 * ph - 1 - row)).
      assert (Hq : (2 * ph * slab + (2 * ph - 1 - row)) ÷ (2 * ph) = slab)
        by (apply quot_mul_add; lia).
      split; [nia |]. rewrite Hmaps by nia. rewrite Hq.
      rewrite decide_False by lia. do 2 f_equal; lia.
Qed.

Lemma X9_u_one_to_one_iff_width_multiple_of_64_witness :
  never_overlaps
    (UArrangementMapper.MapVisibleToMatrix
       {| UArrangementMapper.parallel_ := 2 |} 128 (2 * 32)) 64 128
  ∧ (one_to_one
       (UArrangementMapper.MapVisibleToMatrix
          {| UArrangementMapper.parallel_ := 2 |} 128 (2 * 32))
       64 128 128 (2 * 32)
     ↔ Z.rem 128 64 = 0)
  ∧ (Z.rem 128 64 ≠ 0 →
     ∀ x y my : Z, 0 ≤ x < 64 → 0 ≤ y < 128 →
       UArrangementMapper.MapVisibleToMatrix
         {| UArrangementMapper.parallel_ := 2 |} 128 (2 * 32) x y
       ≠ Some (Written (128 - 1) my)).
Proof.
  apply (X9_u_one_to_one_iff_width_multiple_of_64
           UArrangementMapper.new _ 4 2 None [] 128 32).
  - reflexivity.
  - lia.
  - unfold Int.INT_MAX. lia.
  - lia.
  - unfold Int.INT_MAX. lia.
  - reflexivity.
Defined.

Section v_whole_panels.

Variable self : VerticalMapper.t.
Variables chain parallel pw ph : Z.
Hypothesis Hchain : VerticalMapper.chain_ self = chain.
Hypothesis Hparallel : VerticalMapper.parallel_ self = parallel.
Hypothesis Hc : 0 < chain.
Hypothesis Hp : 0 < parallel.
Hypothesis Hpw : 0 < pw.
Hypothesis Hph : 0 < ph.
Hypothesis Hw : chain * pw * parallel ≤ Int.INT_MAX.
Hypothesis Hh : parallel * ph * chain ≤ Int.INT_MAX.

Lemma v_visible_size :
  VerticalMapper.GetSizeMapping self (chain * pw) (parallel * ph)
  = Some (true, (parallel * pw, chain * ph), []).
Proof.
  assert (Hvw : chain * pw * parallel ÷ chain = parallel * pw).
  { replace (chain * pw * parallel) with (chain * (parallel * pw)) by lia.
    apply quot_exact; lia. }
  assert (Hvh : parallel * ph * chain ÷ parallel = chain * ph).
  { replace (parallel * ph * chain) with (parallel * (chain * ph)) by lia.
    apply quot_exact; lia. }
  assert (0 < chain * pw ≤ chain * pw * parallel) by nia.
  assert (0 < parallel * ph ≤ parallel * ph * chain) by nia.
  assert (0 < parallel * pw ≤ chain * pw * parallel) by nia.
  assert (0 < chain * ph ≤ parallel * ph * chain) by nia.
  unfold VerticalMapper.GetSizeMapping. rewrite Hchain, Hparallel.
  int_unfold. repeat int_step range. rewrite Hvw, Hvh. reflexivity.
Qed.

(** The panel in column [px] and row [py] of the visible area is the panel
    in row [px] of chain position [py]; with [z_] every other panel of a
    column is turned upside down. *)
Lemma v_maps (x y : Z) :
  0 ≤ x < parallel * pw → 0 ≤ y < chain * ph →
  VerticalMapper.MapVisibleToMatrix self (chain * pw) (parallel * ph) x y
  = let px := x ÷ pw in
    let py := y ÷ ph in
    let flip := VerticalMapper.z_ self && bool_decide (Z.rem py 2 = 1) in
    Some (Written
            (py * pw + (if flip then pw - 1 - (x - pw * px)
                        else x - pw * px))
            (px * ph + (if flip then ph - 1 - (y - ph * py)
                        else y - ph * py))).
Proof.
  intros Hx Hy. cbn zeta.
  assert (Hqw : chain * pw ÷ chain = pw) by (apply quot_exact; lia).
  assert (Hqh : parallel * ph ÷ parallel = ph) by (apply quot_exact; lia).
  assert (0 < chain * pw ≤ chain * pw * parallel) by nia.
  assert (0 < parallel * ph ≤ parallel * ph * chain) by nia.
  assert (0 < parallel * pw ≤ chain * pw * parallel) by nia.
  assert (0 < chain * ph ≤ parallel * ph * chain) by nia.
  unfold VerticalMapper.MapVisibleToMatrix. rewrite Hchain, Hparallel.
  destruct (panel_of_coordinate parallel pw x Hpw Hx) as [Hnx Hpx].
  destruct (panel_of_coordinate chain ph y Hph Hy) as [Hny Hpy].
  pose proof (rem_eq x pw ltac:(lia)) as Hremx.
  pose proof (rem_eq y ph ltac:(lia)) as Hremy.
  assert (0 ≤ y ÷ ph * pw ≤ (chain - 1) * pw) by nia.
  assert (0 ≤ x ÷ pw * ph ≤ (parallel - 1) * ph) by nia.
  pose proof (quot_bounds (y ÷ ph) 2 ltac:(lia) ltac:(lia)) as Hhalf.
  assert (chain ≤ chain * pw) by nia.
  int_unfold. rewrite ?Hqw, ?Hqh. repeat int_step range.
  rewrite Hremx, Hremy.
  destruct (VerticalMapper.z_ self); simpl; repeat int_step range;
    try case_bool_decide; simpl; repeat int_step range; reflexivity.
Qed.

Lemma v_never_overlaps :
  never_overlaps
    (VerticalMapper.MapVisibleToMatrix self (chain * pw) (parallel * ph))
    (parallel * pw) (chain * ph).
Proof.
  intros x y x' y' r Hx Hy Hx' Hy'.
  rewrite !v_maps by done. cbn zeta.
  destruct (panel_of_coordinate parallel pw x Hpw Hx) as [Hnx Hpx].
  destruct (panel_of_coordinate chain ph y Hph Hy) as [Hny Hpy].
  destruct (panel_of_coordinate parallel pw x' Hpw Hx') as [Hnx' Hpx'].
  destruct (panel_of_coordinate chain ph y' Hph Hy') as [Hny' Hpy'].
  intros [= <-] [= Hcol Hline].
  apply quot_rem_unique in Hcol as [Hpanel Hcol];
    [| repeat case_match; lia ..].
  apply quot_rem_unique in Hline as [Hpanel' Hline];
    [| repeat case_match; lia ..].
  rewrite Hpanel, Hpanel' in *.
  destruct (VerticalMapper.z_ self && bool_decide (Z.rem (y ÷ ph) 2 = 1));
    lia.
Qed.

End v_whole_panels.

(** X10.  The V-mapper, with or without [Z], uses every pixel of a matrix
    of whole panels exactly once. *)
Theorem X10_vertical_one_to_one (self0 self : VerticalMapper.t)
    (chain parallel : Z) (param : option string) (out : list diagnostic)
    (pw ph vw vh : Z) :
  VerticalMapper.SetParameters self0 chain parallel param
    = Some (true, self, out) →
  0 < chain → 0 < parallel → 0 < pw → 0 < ph →
  chain * pw * parallel ≤ Int.INT_MAX →
  parallel * ph * chain ≤ Int.INT_MAX →
  VerticalMapper.GetSizeMapping self (chain * pw) (parallel * ph)
    = Some (true, (vw, vh), []) →
  one_to_one
    (VerticalMapper.MapVisibleToMatrix self (chain * pw) (parallel * ph))
    vw vh (chain * pw) (parallel * ph).
Proof.
  intros Hset Hc Hp Hpw Hph Hw Hh Hsize.
  assert (VerticalMapper.chain_ self = chain
          ∧ VerticalMapper.parallel_ self = parallel) as [Hchain Hparallel]
    by (injection Hset as <- <-; done).
  rewrite (v_visible_size self chain parallel pw ph) in Hsize by done.
  injection Hsize as <- <-.
  apply one_to_one_intro; [by apply v_never_overlaps |].
  intros mx my Hmx Hmy.
  destruct (panel_of_coordinate chain pw mx Hpw Hmx) as [Hpy Ha].
  destruct (panel_of_coordinate parallel ph my Hph Hmy) as [Hpx Hb].
  set (py := mx ÷ pw) in *. set (a := mx - pw * py) in *.
  set (px := my ÷ ph) in *. set (b := my - ph * px) in *.
  set (flip := VerticalMapper.z_ self && bool_decide (Z.rem py 2 = 1)).
  set (xr := if flip then pw - 1 - a else a).
  set (yr := if flip then ph - 1 - b else b).
  assert (Hxr : 0 ≤ xr < pw) by (unfold xr; destruct flip; lia).
  assert (Hyr : 0 ≤ yr < ph) by (unfold yr; destruct flip; lia).
  assert (Hqx : (pw * px + xr) ÷ pw = px) by (apply quot_mul_add; lia).
  assert (Hqy : (ph * py + yr) ÷ ph = py) by (apply quot_mul_add; lia).
  exists (pw * px + xr), (ph * py + yr).
  split; [nia |].
  rewrite (v_maps self chain parallel pw ph) by (done || nia).
  cbn zeta. rewrite Hqx, Hqy. fold flip.
  unfold xr, yr. destruct flip; do 2 f_equal; lia.
Qed.

Lemma X10_vertical_one_to_one_witness :
  one_to_one
    (VerticalMapper.MapVisibleToMatrix
       {| VerticalMapper.z_ := true;
          VerticalMapper.chain_ := 3;
          VerticalMapper.parallel_ := 2 |} (3 * 64) (2 * 32))
    (2 * 64) (3 * 32) (3 * 64) (2 * 32).
Proof.
  apply (X10_vertical_one_to_one
           {| VerticalMapper.z_ := false;
              VerticalMapper.chain_ := 0;
              VerticalMapper.parallel_ := 0 |}
           _ 3 2 (Some "z") [] 64 32).
  - reflexivity.
  - lia.
  - lia.
  - lia.
  - lia.
  - unfold Int.INT_MAX. lia.
  - unfold Int.INT_MAX. lia.
  - reflexivity.
Defined.

(** X11.  [SetParameters] of the V-mapper always succeeds and prints
    nothing; it turns every other panel upside down exactly for the
    parameters [Z] and [z], and for no longer text that starts with them. *)
Theorem X11_vertical_z_parameter (self : VerticalMapper.t)
    (chain parallel : Z) (param : option string) :
  VerticalMapper.SetParameters self chain parallel param
  = Some (true,
          {| VerticalMapper.z_ :=
               bool_decide (param ∈ [Some "Z"; Some "z"]);
             VerticalMapper.chain_ := chain;
             VerticalMapper.parallel_ := parallel |}, []).
Proof.
  unfold VerticalMapper.SetParameters, CString.strcasecmp_eq.
  destruct param as [[| c [| c' rest]] |].
  - reflexivity.
  - destruct c as [[] [] [] [] [] [] [] []]; reflexivity.
  - rewrite bool_decide_eq_false_2 by (intros Hin; not_in_list Hin).
    simpl. by destruct (_ =? _)%char.
  - reflexivity.
Qed.

(** ** Rotate-panel: the computation on a matrix of whole panels *)

(** An angle without a case in the [switch] takes none of its branches. *)
Lemma angle_without_case {A : Type} (angle : Z) (a b c d e : A) :
  angle ≠ 0 → angle ≠ 90 → angle ≠ 180 → angle ≠ 270 →
  match angle with 0 => a | 90 => b | 180 => c | 270 => d | _ => e end = e.
Proof.
  intros H0 H90 H180 H270.
  destruct angle as [| p | p]; [done | | done].
  do 9 (try destruct p as [p | p |]); try reflexivity; lia.
Qed.

Section rotate_panel_whole_panels.
Variables (self : RotatePanelPixelMapper.t).
Variables (s : RotatePanelPixelMapper.statics).
Variables (chain parallel pw ph x y : Z).
Hypothesis Hchain : RotatePanelPixelMapper.chain_ self = chain.
Hypothesis Hparallel : RotatePanelPixelMapper.parallel_ self = parallel.
Hypothesis Hc : 0 < chain.
Hypothesis Hp : 0 < parallel.
Hypothesis Hpw : 0 < pw.
Hypothesis Hph : 0 < ph.
Hypothesis Hwidth : chain * pw ≤ Int.INT_MAX.
Hypothesis Hheight : parallel * ph ≤ Int.INT_MAX.
Hypothesis Hcount : chain * parallel ≤ Int.INT_MAX.
Hypothesis Hcols : RotatePanelPixelMapper.panel_cols_ s = None
                   ∨ RotatePanelPixelMapper.panel_cols_ s = Some pw.
Hypothesis Hrows : RotatePanelPixelMapper.panel_rows_ s = None
                   ∨ RotatePanelPixelMapper.panel_rows_ s = Some ph.
Hypothesis Hx : 0 ≤ x < chain * pw.
Hypothesis Hy : 0 ≤ y < parallel * ph.

(** Up to the [switch] nothing is undefined: the panel is found and the
    position of the pixel on it. *)
Lemma rotate_panel_on_whole_panels :
  RotatePanelPixelMapper.MapVisibleToMatrix self s
    (chain * pw) (parallel * ph) x y
  = let s' := {| RotatePanelPixelMapper.panel_cols_ := Some pw;
                 RotatePanelPixelMapper.panel_rows_ := Some ph |} in
    let panel_x := x - pw * (x ÷ pw) in
    let panel_y := y - ph * (y ÷ ph) in
    match RotatePanelPixelMapper.panels_ self
            !! (y ÷ ph * chain + x ÷ pw) with
    | Some angle =>
        match angle with
        | 0 => Some (s', Written x y)
        | 90 =>
            matrix_x ← (x ÷ pw *ᵢ pw) +ᵢ (pw -ᵢ panel_y -ᵢ 1);
            matrix_y ← (y ÷ ph *ᵢ ph) +ᵢ panel_x;
            Some (s', Written matrix_x matrix_y)
        | 180 =>
            matrix_x ← (x ÷ pw *ᵢ pw) +ᵢ (ph -ᵢ panel_x -ᵢ 1);
            matrix_y ← (y ÷ ph *ᵢ ph) +ᵢ (pw -ᵢ panel_y -ᵢ 1);
            Some (s', Written matrix_x matrix_y)
        | 270 =>
            matrix_x ← (x ÷ pw *ᵢ pw) +ᵢ panel_y;
            matrix_y ← (y ÷ ph *ᵢ ph) +ᵢ (ph -ᵢ panel_x -ᵢ 1);
            Some (s', Written matrix_x matrix_y)
        | _ => Some (s', NotWritten)
        end
    | None => Some (s', Written x y)
    end.
Proof.
  unfold RotatePanelPixelMapper.MapVisibleToMatrix.
  rewrite Hchain, Hparallel.
  rewrite (static_panel_size _ chain pw), (static_panel_size _ parallel ph)
    by done.
  cbn [mbind option_bind].
  destruct (panel_of_coordinate chain pw x Hpw Hx) as [Hnx Hpx].
  destruct (panel_of_coordinate parallel ph y Hph Hy) as [Hny Hpy].
  assert (Hidx : 0 ≤ y ÷ ph * chain ∧ y ÷ ph * chain + x ÷ pw
                   < chain * parallel) by nia.
  assert (Hxq : x /ᵢ pw = Some (x ÷ pw)) by (int_eval range; done).
  assert (Hyq : y /ᵢ ph = Some (y ÷ ph)) by (int_eval range; done).
  rewrite Hxq, Hyq. cbn [mbind option_bind].
  assert (Hnr : y ÷ ph *ᵢ chain +ᵢ x ÷ pw
                = Some (y ÷ ph * chain + x ÷ pw))
    by (int_eval range; done).
  rewrite Hnr. cbn [mbind option_bind].
  destruct (RotatePanelPixelMapper.panels_ self !! _) as [angle|]; [| done].
  rewrite (position_in_panel pw x), (position_in_panel ph y) by range.
  reflexivity.
Qed.

(** A panel registered with another angle than 0, 90, 180 and 270 has no
    pixel written. *)
Lemma rotate_panel_no_case (angle : Z) :
  RotatePanelPixelMapper.panels_ self !! (y ÷ ph * chain + x ÷ pw)
    = Some angle →
  angle ∉ [0; 90; 180; 270] →
  RotatePanelPixelMapper.MapVisibleToMatrix self s
    (chain * pw) (parallel * ph) x y
  = Some ({| RotatePanelPixelMapper.panel_cols_ := Some pw;
             RotatePanelPixelMapper.panel_rows_ := Some ph |}, NotWritten).
Proof.
  intros Hangle Hnone.
  rewrite rotate_panel_on_whole_panels, Hangle. cbn zeta.
  apply angle_without_case; intros ->; apply Hnone; repeat constructor.
Qed.

End rotate_panel_whole_panels.

Section rotate_panel_square.
Variables (self : RotatePanelPixelMapper.t).
Variables (s : RotatePanelPixelMapper.statics).
Variables (chain parallel n : Z).
Hypothesis Hchain : RotatePanelPixelMapper.chain_ self = chain.
Hypothesis Hparallel : RotatePanelPixelMapper.parallel_ self = parallel.
Hypothesis Hc : 0 < chain.
Hypothesis Hp : 0 < parallel.
Hypothesis Hn : 0 < n.
Hypothesis Hwidth : chain * n ≤ Int.INT_MAX.
Hypothesis Hheight : parallel * n ≤ Int.INT_MAX.
Hypothesis Hcount : chain * parallel ≤ Int.INT_MAX.
Hypothesis Hcols : RotatePanelPixelMapper.panel_cols_ s = None
                   ∨ RotatePanelPixelMapper.panel_cols_ s = Some n.
Hypothesis Hrows : RotatePanelPixelMapper.panel_rows_ s = None
                   ∨ RotatePanelPixelMapper.panel_rows_ s = Some n.
Hypothesis Hangles :
  ∀ panel angle : Z,
    RotatePanelPixelMapper.panels_ self !! panel = Some angle →
    angle ∈ [0; 90; 180; 270].

(** On square panels a pixel stays on its panel; its position on the
    panel is turned by the angle registered for the panel. *)
Lemma rotate_panel_square_maps (x y : Z) :
  0 ≤ x < chain * n → 0 ≤ y < parallel * n →
  snd <$> RotatePanelPixelMapper.MapVisibleToMatrix self s
            (chain * n) (parallel * n) x y
  = let px := x - n * (x ÷ n) in
    let py := y - n * (y ÷ n) in
    let angle :=
      default 0 (RotatePanelPixelMapper.panels_ self
                   !! (y ÷ n * chain + x ÷ n)) in
    Some (if decide (angle = 90) then
            Written (x ÷ n * n + (n - py - 1)) (y ÷ n * n + px)
          else if decide (angle = 180) then
            Written (x ÷ n * n + (n - px - 1)) (y ÷ n * n + (n - py - 1))
          else if decide (angle = 270) then
            Written (x ÷ n * n + py) (y ÷ n * n + (n - px - 1))
          else Written (x ÷ n * n + px) (y ÷ n * n + py)).
Proof.
  intros Hx Hy.
  rewrite (rotate_panel_on_whole_panels self s chain parallel n n) by done.
  cbn zeta.
  destruct (panel_of_coordinate chain n x Hn Hx) as [Hnx Hpx].
  destruct (panel_of_coordinate parallel n y Hn Hy) as [Hny Hpy].
  assert (0 ≤ x ÷ n * n ≤ (chain - 1) * n) by nia.
  assert (0 ≤ y ÷ n * n ≤ (parallel - 1) * n) by nia.
  destruct (RotatePanelPixelMapper.panels_ self !! _) as [angle|] eqn:Hpanel;
    simpl; [| do 2 f_equal; lia].
  apply Hangles in Hpanel.
  rewrite !elem_of_cons, elem_of_nil in Hpanel.
  destruct Hpanel as [-> | [-> | [-> | [-> | []]]]];
    int_eval range; simpl; do 2 f_equal; lia.
Qed.

Lemma rotate_panel_square_never_overlaps :
  never_overlaps
    (λ x y, snd <$> RotatePanelPixelMapper.MapVisibleToMatrix self s
                      (chain * n) (parallel * n) x y)
    (chain * n) (parallel * n).
Proof.
  intros x y x' y' r Hx Hy Hx' Hy'.
  rewrite !rotate_panel_square_maps by done. cbn zeta.
  destruct (panel_of_coordinate chain n x Hn Hx) as [Hnx Hpx].
  destruct (panel_of_coordinate parallel n y Hn Hy) as [Hny Hpy].
  destruct (panel_of_coordinate chain n x' Hn Hx') as [Hnx' Hpx'].
  destruct (panel_of_coordinate parallel n y' Hn Hy') as [Hny' Hpy'].
  intros [= <-] [= Himage].
  assert (x' ÷ n = x ÷ n ∧ y' ÷ n = y ÷ n) as [Hcol Hline].
  { repeat case_decide; injection Himage as Hmx Hmy;
      apply quot_rem_unique in Hmx as [? _]; try lia;
      apply quot_rem_unique in Hmy as [? _]; try lia; done. }
  rewrite Hcol, Hline in *.
  repeat case_decide; injection Himage as Hmx Hmy; lia.
Qed.

End rotate_panel_square.

(** X12.  Rotate-panel on square panels, every registered angle being 0,
    90, 180 or 270: each pixel stays on its panel, and the pixels of the
    matrix are permuted, so that every pixel of the matrix is written for
    exactly one visible pixel. *)
Theorem X12_rotate_panel_turns_square_panels
    (self0 self : RotatePanelPixelMapper.t)
    (s : RotatePanelPixelMapper.statics) (chain parallel : Z)
    (param : option string) (ok : bool) (out : list diagnostic) (n : Z) :
  RotatePanelPixelMapper.SetParameters self0 chain parallel param
    = Some (ok, self, out) →
  0 < chain → 0 < parallel → 0 < n →
  chain * n ≤ Int.INT_MAX → parallel * n ≤ Int.INT_MAX →
  chain * parallel ≤ Int.INT_MAX →
  RotatePanelPixelMapper.panel_cols_ s = None
    ∨ RotatePanelPixelMapper.panel_cols_ s = Some n →
  RotatePanelPixelMapper.panel_rows_ s = None
    ∨ RotatePanelPixelMapper.panel_rows_ s = Some n →
  (∀ panel angle : Z,
     RotatePanelPixelMapper.panels_ self !! panel = Some angle →
     angle ∈ [0; 90; 180; 270]) →
  let f := λ x y, snd <$> RotatePanelPixelMapper.MapVisibleToMatrix self s
                            (chain * n) (parallel * n) x y in
  one_to_one f (chain * n) (parallel * n) (chain * n) (parallel * n)
  ∧ ∀ x y : Z, 0 ≤ x < chain * n → 0 ≤ y < parallel * n →
      ∃ mx my : Z,
        f x y = Some (Written mx my) ∧ mx ÷ n = x ÷ n ∧ my ÷ n = y ÷ n.
Proof.
  intros Hset Hc Hp Hn Hw Hh Hcount Hcols Hrows Hangles f.
  destruct (rotate_panel_configured _ _ _ _ _ _ _ Hset)
    as (_ & Hchain & Hparallel).
  pose proof (rotate_panel_square_maps self s chain parallel n Hchain
                Hparallel Hc Hp Hn Hw Hh Hcount Hcols Hrows Hangles)
    as Hmaps.
  cbn zeta in Hmaps. split.
  - apply one_to_one_intro;
      [by apply rotate_panel_square_never_overlaps |].
    intros mx my Hmx Hmy. unfold f.
    destruct (panel_of_coordinate chain n mx Hn Hmx) as [Hnx Ha].
    destruct (panel_of_coordinate parallel n my Hn Hmy) as [Hny Hb].
    set (nx := mx ÷ n) in *. set (a := mx - n * nx) in *.
    set (ny := my ÷ n) in *. set (b := my - n * ny) in *.
    set (angle := default 0 (RotatePanelPixelMapper.panels_ self
                               !! (ny * chain + nx))).
    set (px := if decide (angle = 90) then b
               else if decide (angle = 180) then n - 1 - a
               else if decide (angle = 270) then n - 1 - b else a).
    set (py := if decide (angle = 90) then n - 1 - a
               else if decide (angle = 180) then n - 1 - b
               else if decide (angle = 270) then a else b).
    assert (Hpx : 0 ≤ px < n) by (unfold px; repeat case_decide; lia).
    assert (Hpy : 0 ≤ py < n) by (unfold py; repeat case_decide; lia).
    assert (Hqx : (n * nx + px) ÷ n = nx) by (apply quot_mul_add; lia).
    assert (Hqy : (n * ny + py) ÷ n = ny) by (apply quot_mul_add; lia).
    exists (n * nx + px), (n * ny + py). split; [nia |].
    rewrite Hmaps by nia. rewrite Hqx, Hqy. fold angle.
    unfold px, py. repeat case_decide; do 2 f_equal; lia.
  - intros x y Hx Hy. unfold f. rewrite Hmaps by done.
    destruct (panel_of_coordinate chain n x Hn Hx) as [Hnx Hpx].
    destruct (panel_of_coordinate parallel n y Hn Hy) as [Hny Hpy].
    repeat case_decide; do 2 eexists; (split; [reflexivity |]);
      rewrite !(Z.mul_comm (_ ÷ n) n); split; apply quot_mul_add; lia.
Qed.

Lemma X12_rotate_panel_turns_square_panels_witness :
  let self :=
    {| RotatePanelPixelMapper.chain_ := 2;
       RotatePanelPixelMapper.parallel_ := 1;
       RotatePanelPixelMapper.panels_ := <[1 := 90]> ∅ |} in
  let f := λ x y, snd <$> RotatePanelPixelMapper.MapVisibleToMatrix self
                            RotatePanelPixelMapper.uninitialised
                            (2 * 32) (1 * 32) x y in
  one_to_one f (2 * 32) (1 * 32) (2 * 32) (1 * 32)
  ∧ ∀ x y : Z, 0 ≤ x < 2 * 32 → 0 ≤ y < 1 * 32 →
      ∃ mx my : Z,
        f x y = Some (Written mx my) ∧ mx ÷ 32 = x ÷ 32 ∧ my ÷ 32 = y ÷ 32.
Proof.
  apply (X12_rotate_panel_turns_square_panels
           {| RotatePanelPixelMapper.chain_ := 0;
              RotatePanelPixelMapper.parallel_ := 0;
              RotatePanelPixelMapper.panels_ := ∅ |}
           _ RotatePanelPixelMapper.uninitialised 2 1 (Some "1|90") true []
           32).
  - reflexivity.
  - lia.
  - lia.
  - lia.
  - unfold Int.INT_MAX. lia.
  - unfold Int.INT_MAX. lia.
  - unfold Int.INT_MAX. lia.
  - left. reflexivity.
  - left. reflexivity.
  - intros panel angle. simpl.
    intros [[_ <-] | [_ Hempty]]%lookup_insert_Some;
      [repeat constructor | by rewrite lookup_empty in Hempty].
Defined.

(** X13.  Rotate-panel, whatever the shape of the panels: a pixel on a
    panel registered with another angle than 0, 90, 180 and 270 (such as
    the multiples of 90 from 360 on, which [SetParameters] stores) takes no
    branch of the [switch], and the outputs are left unwritten. *)
Theorem X13_rotate_panel_other_angles_write_nothing
    (self0 self : RotatePanelPixelMapper.t)
    (s : RotatePanelPixelMapper.statics) (chain parallel : Z)
    (param : option string) (ok : bool) (out : list diagnostic)
    (pw ph x y angle : Z) :
  RotatePanelPixelMapper.SetParameters self0 chain parallel param
    = Some (ok, self, out) →
  0 < chain → 0 < parallel → 0 < pw → 0 < ph →
  chain * pw ≤ Int.INT_MAX → parallel * ph ≤ Int.INT_MAX →
  chain * parallel ≤ Int.INT_MAX →
  RotatePanelPixelMapper.panel_cols_ s = None
    ∨ RotatePanelPixelMapper.panel_cols_ s = Some pw →
  RotatePanelPixelMapper.panel_rows_ s = None
    ∨ RotatePanelPixelMapper.panel_rows_ s = Some ph →
  0 ≤ x < chain * pw → 0 ≤ y < parallel * ph →
  RotatePanelPixelMapper.panels_ self !! (y ÷ ph * chain + x ÷ pw)
    = Some angle →
  angle ∉ [0; 90; 180; 270] →
  RotatePanelPixelMapper.MapVisibleToMatrix self s
    (chain * pw) (parallel * ph) x y
  = Some ({| RotatePanelPixelMapper.panel_cols_ := Some pw;
             RotatePanelPixelMapper.panel_rows_ := Some ph |}, NotWritten).
Proof.
  intros Hset Hc Hp Hpw Hph Hw Hh Hcount Hcols Hrows Hx Hy Hangle Hnone.
  destruct (rotate_panel_configured _ _ _ _ _ _ _ Hset)
    as (_ & Hchain & Hparallel).
  by apply (rotate_panel_no_case self s chain parallel pw ph x y) with angle.
Qed.

Lemma X13_rotate_panel_other_angles_write_nothing_witness :
  RotatePanelPixelMapper.MapVisibleToMatrix
    {| RotatePanelPixelMapper.chain_ := 2;
       RotatePanelPixelMapper.parallel_ := 1;
       RotatePanelPixelMapper.panels_ := <[1 := 450]> ∅ |}
    RotatePanelPixelMapper.uninitialised (2 * 64) (1 * 32) 70 3
  = Some ({| RotatePanelPixelMapper.panel_cols_ := Some 64;
             RotatePanelPixelMapper.panel_rows_ := Some 32 |}, NotWritten).
Proof.
  apply (X13_rotate_panel_other_angles_write_nothing
           {| RotatePanelPixelMapper.chain_ := 0;
              RotatePanelPixelMapper.parallel_ := 0;
              RotatePanelPixelMapper.panels_ := ∅ |}
           _ RotatePanelPixelMapper.uninitialised 2 1 (Some "1|450") true []
           64 32 70 3 450).
  - reflexivity.
  - lia.
  - lia.
  - lia.
  - lia.
  - unfold Int.INT_MAX. lia.
  - unfold Int.INT_MAX. lia.
  - unfold Int.INT_MAX. lia.
  - left. reflexivity.
  - left. reflexivity.
  - lia.
  - lia.
  - reflexivity.
  - intros Hin. not_in_list Hin.
Defined.

(** ** Rotate-panel and Reorder: what any parameter string leaves in the
    table *)

Lemma table_extended_refl (max : Z) (allowed : Z → Prop) (table : gmap Z Z) :
  table_extended max allowed table table.
Proof. intros panel. by left. Qed.

Lemma table_extended_insert (max : Z) (allowed : Z → Prop)
    (old new : gmap Z Z) (panel value : Z) :
  0 ≤ panel ≤ max → allowed value →
  table_extended max allowed (<[panel := value]> old) new →
  table_extended max allowed old new.
Proof.
  intros Hpanel Hvalue Hnew k.
  destruct (Hnew k) as [Hk | Hk]; [| by right].
  destruct (decide (k = panel)) as [-> | Hne].
  - right. split; [done |]. exists value.
    by rewrite Hk, lookup_insert_eq.
  - left. by rewrite Hk, lookup_insert_ne.
Qed.

Lemma digit_value_bounds (c : ascii) :
  CString.isdigit c = true → 0 ≤ CString.digit_value c ≤ 9.
Proof.
  destruct c as [[] [] [] [] [] [] [] []]; try discriminate;
    intros _; vm_compute; split; discriminate.
Qed.

Lemma digits_nonneg (s : string) (acc : Z) :
  0 ≤ acc → 0 ≤ (CString.digits acc s).1.
Proof.
  revert acc. induction s as [| c s IH]; intros acc Hacc; simpl; [done |].
  destruct (CString.isdigit c) eqn:Hc; [| done].
  apply IH. pose proof (digit_value_bounds c Hc). lia.
Qed.

(** [atoi] of a string of digits is not negative. *)
Lemma atoi_digits_nonneg (s : string) (v : Z) :
  CString.all_digits s = true → CString.atoi s = Some v → 0 ≤ v.
Proof.
  destruct s as [| c r]; [by intros _ [= <-] |].
  simpl. intros [Hc _]%andb_true_iff.
  pose proof (digits_nonneg r (10 * 0 + CString.digit_value c)) as Hnonneg.
  pose proof (digit_value_bounds c Hc) as Hvalue.
  unfold CString.atoi, CString.strtol.
  destruct c as [[] [] [] [] [] [] [] []]; try discriminate; simpl;
    simpl in Hnonneg;
    destruct (CString.digits _ r) as [w rest];
    intros [-> _]%of_Z_inv; apply Hnonneg; vm_compute; discriminate.
Qed.

Lemma sub_value (a b v : Z) : a -ᵢ b = Some v → v = a - b.
Proof. int_unfold. by intros [-> _]%of_Z_inv. Qed.

Lemma mul_value (a b v : Z) : a *ᵢ b = Some v → v = a * b.
Proof. int_unfold. by intros [-> _]%of_Z_inv. Qed.

Lemma rem_value (a b v : Z) : a %ᵢ b = Some v → v = Z.rem a b.
Proof.
  int_unfold. case_decide; [done |].
  destruct (Int.of_Z (a ÷ b)); simpl; [| done]. by intros [= <-].
Qed.

Lemma rotate_panel_pair_loop_table (count : Z) (tokens2 : list string) :
  ∀ (i : Z) (l l' : parse_locals),
    0 ≤ i → (Z.rem i 2 ≠ 0 → 0 ≤ first l ≤ count - 1) →
    RotatePanelPixelMapper.pair_loop count tokens2 i l = Some l' →
    table_extended (count - 1) (λ angle, 0 ≤ angle ∧ Z.rem angle 90 = 0)
      (panels l) (panels l').
Proof.
  induction tokens2 as [| token2 rest IH]; intros i l l' Hi Hfirst; simpl.
  { intros [= <-]. apply table_extended_refl. }
  destruct (CString.all_digits token2) eqn:Hdigits; simpl;
    [| intros [= <-]; apply table_extended_refl].
  case_decide as Heven.
  - destruct (CString.atoi token2) as [index|] eqn:Hindex; simpl; [| done].
    destruct (count -ᵢ 1) as [max|] eqn:Hmax; simpl; [| done].
    apply sub_value in Hmax as ->.
    case_decide; [intros [= <-]; apply table_extended_refl |].
    intros Hrest. apply IH in Hrest; [done | lia |]. simpl. intros _.
    pose proof (atoi_digits_nonneg _ _ Hdigits Hindex). lia.
  - destruct (CString.atoi token2) as [angle|] eqn:Hangle; simpl; [| done].
    destruct (angle %ᵢ 90) as [r|] eqn:Hr; simpl; [| done].
    apply rem_value in Hr as ->.
    pose proof (next_is_even i Hi Heven).
    case_decide as Hrem; intros Hrest;
      (apply IH in Hrest; [| lia | done]); [done |].
    apply (table_extended_insert _ _ _ _ (first l) angle); [auto | | done].
    pose proof (atoi_digits_nonneg _ _ Hdigits Hangle). lia.
Qed.

Lemma reorder_pair_loop_table (count : Z) (tokens2 : list string) :
  ∀ (i : Z) (l l' : parse_locals),
    0 ≤ i → (Z.rem i 2 ≠ 0 → 0 ≤ first l ≤ count - 1) →
    ReorderPixelMapper.pair_loop count tokens2 i l = Some l' →
    table_extended (count - 1) (λ to, 0 ≤ to ≤ count - 1)
      (panels l) (panels l').
Proof.
  induction tokens2 as [| token2 rest IH]; intros i l l' Hi Hfirst; simpl.
  { intros [= <-]. apply table_extended_refl. }
  destruct (CString.all_digits token2) eqn:Hdigits; simpl;
    [| intros [= <-]; apply table_extended_refl].
  case_decide as Heven.
  - destruct (CString.atoi token2) as [index|] eqn:Hindex; simpl; [| done].
    destruct (count -ᵢ 1) as [max|] eqn:Hmax; simpl; [| done].
    apply sub_value in Hmax as ->.
    case_decide; [intros [= <-]; apply table_extended_refl |].
    intros Hrest. apply IH in Hrest; [done | lia |]. simpl. intros _.
    pose proof (atoi_digits_nonneg _ _ Hdigits Hindex). lia.
  - destruct (CString.atoi token2) as [to|] eqn:Hto; simpl; [| done].
    destruct (count -ᵢ 1) as [max|] eqn:Hmax; simpl; [| done].
    apply sub_value in Hmax as ->.
    pose proof (next_is_even i Hi Heven).
    case_decide; [intros [= <-]; apply table_extended_refl |].
    intros Hrest. apply IH in Hrest; [| lia | done].
    apply (table_extended_insert _ _ _ _ (first l) to); [auto | | done].
    pose proof (atoi_digits_nonneg _ _ Hdigits Hto). lia.
Qed.

Lemma table_extended_trans (max : Z) (allowed : Z → Prop)
    (a b c : gmap Z Z) :
  table_extended max allowed a b → table_extended max allowed b c →
  table_extended max allowed a c.
Proof.
  intros Hab Hbc panel.
  destruct (Hbc panel) as [Hc | Hc]; [| by right].
  rewrite Hc. apply Hab.
Qed.

Lemma rotate_panel_item_loop_table (count : Z) (tokens1 : list string) :
  ∀ l l' : parse_locals,
    RotatePanelPixelMapper.item_loop count tokens1 l = Some l' →
    table_extended (count - 1) (λ angle, 0 ≤ angle ∧ Z.rem angle 90 = 0)
      (panels l) (panels l').
Proof.
  induction tokens1 as [| token1 rest IH]; intros l l'; simpl.
  { intros [= <-]. apply table_extended_refl. }
  destruct (RotatePanelPixelMapper.pair_loop _ _ _ _) as [l1|] eqn:Hpair;
    simpl; [| done].
  intros Hrest. apply rotate_panel_pair_loop_table in Hpair; [| done ..].
  eapply table_extended_trans; [done | by apply IH].
Qed.

Lemma reorder_item_loop_table (count : Z) (tokens1 : list string) :
  ∀ l l' : parse_locals,
    ReorderPixelMapper.item_loop count tokens1 l = Some l' →
    table_extended (count - 1) (λ to, 0 ≤ to ≤ count - 1)
      (panels l) (panels l').
Proof.
  induction tokens1 as [| token1 rest IH]; intros l l'; simpl.
  { intros [= <-]. apply table_extended_refl. }
  destruct (ReorderPixelMapper.pair_loop _ _ _ _) as [l1|] eqn:Hpair;
    simpl; [| done].
  intros Hrest. apply reorder_pair_loop_table in Hpair; [| done ..].
  eapply table_extended_trans; [done | by apply IH].
Qed.

(** X14.  Whatever the parameter string of Rotate-panel is, [SetParameters]
    leaves every entry of the table as it was or replaces it by an entry
    for a panel number between 0 and chain * parallel - 1 whose angle is a
    multiple of 90 that is not negative; no entry is removed. *)
Theorem X14_rotate_panel_table_entries
    (self self' : RotatePanelPixelMapper.t) (chain parallel : Z)
    (param : option string) (ok : bool) (out : list diagnostic) :
  RotatePanelPixelMapper.SetParameters self chain parallel param
    = Some (ok, self', out) →
  table_extended (chain * parallel - 1)
    (λ angle, 0 ≤ angle ∧ Z.rem angle 90 = 0)
    (RotatePanelPixelMapper.panels_ self)
    (RotatePanelPixelMapper.panels_ self').
Proof.
  unfold RotatePanelPixelMapper.SetParameters. destruct param as [p|].
  - destruct (chain *ᵢ parallel) as [count|] eqn:Hcount; simpl; [| done].
    apply mul_value in Hcount as ->.
    destruct (RotatePanelPixelMapper.item_loop _ _ _) as [l|] eqn:Hloop;
      simpl; [| done].
    intros [= <- <- <-]. simpl.
    by apply rotate_panel_item_loop_table in Hloop.
  - intros [= <- <- <-]. apply table_extended_refl.
Qed.

Lemma X14_rotate_panel_table_entries_witness :
  table_extended (2 * 2 - 1) (λ angle, 0 ≤ angle ∧ Z.rem angle 90 = 0)
    (<[2 := 90]> ∅) (<[3 := 180]> (<[0 := 270]> (<[2 := 90]> ∅))).
Proof.
  exact (X14_rotate_panel_table_entries
           {| RotatePanelPixelMapper.chain_ := 0;
              RotatePanelPixelMapper.parallel_ := 0;
              RotatePanelPixelMapper.panels_ := <[2 := 90]> ∅ |}
           {| RotatePanelPixelMapper.chain_ := 2;
              RotatePanelPixelMapper.parallel_ := 2;
              RotatePanelPixelMapper.panels_ :=
                <[3 := 180]> (<[0 := 270]> (<[2 := 90]> ∅)) |}
           2 2 (Some "0|270,1|45,9|90,3|180|x")
           true
           [invalid_rotation_value "Rotate-panel" 45;
            panel_index_too_high "Rotate-panel" 9 3;
            found_non_digit "Rotate-panel" "x"]
           eq_refl).
Defined.

(** X15.  Whatever the parameter string of Reorder is, [SetParameters]
    leaves every entry of the table as it was or replaces it by an entry
    that sends a panel number between 0 and chain * parallel - 1 to such a
    panel number; no entry is removed. *)
Theorem X15_reorder_table_entries
    (self self' : ReorderPixelMapper.t) (chain parallel : Z)
    (param : option string) (ok : bool) (out : list diagnostic) :
  ReorderPixelMapper.SetParameters self chain parallel param
    = Some (ok, self', out) →
  table_extended (chain * parallel - 1)
    (λ to, 0 ≤ to ≤ chain * parallel - 1)
    (ReorderPixelMapper.panels_ self) (ReorderPixelMapper.panels_ self').
Proof.
  unfold ReorderPixelMapper.SetParameters. destruct param as [p|].
  - destruct (chain *ᵢ parallel) as [count|] eqn:Hcount; simpl; [| done].
    apply mul_value in Hcount as ->.
    destruct (ReorderPixelMapper.item_loop _ _ _) as [l|] eqn:Hloop;
      simpl; [| done].
    intros [= <- <- <-]. simpl.
    by apply reorder_item_loop_table in Hloop.
  - intros [= <- <- <-]. apply table_extended_refl.
Qed.

Lemma X15_reorder_table_entries_witness :
  table_extended (2 * 2 - 1) (λ to, 0 ≤ to ≤ 2 * 2 - 1)
    (<[2 := 1]> ∅) (<[3 := 0]> (<[0 := 3]> (<[2 := 1]> ∅))).
Proof.
  exact (X15_reorder_table_entries
           {| ReorderPixelMapper.chain_ := 0;
              ReorderPixelMapper.parallel_ := 0;
              ReorderPixelMapper.panels_ := <[2 := 1]> ∅ |}
           {| ReorderPixelMapper.chain_ := 2;
              ReorderPixelMapper.parallel_ := 2;
              ReorderPixelMapper.panels_ :=
                <[3 := 0]> (<[0 := 3]> (<[2 := 1]> ∅)) |}
           2 2 (Some "0|3,1|4,9|0,3|0|x")
           true
           [panel_index_too_high "Reorder" 4 3;
            panel_index_too_high "Reorder" 9 3;
            found_non_digit "Reorder" "x"]
           eq_refl).
Defined.

(** X16.  Reorder with parallel at least 2: a pixel on a panel with the
    registered destination [to] keeps its position on the panel and is
    written to the panel in column [to % (parallel - 1)] and row
    [to / (parallel - 1)].  That place is inside the matrix exactly when
    this column and row exist, and it is the panel number [to], counted
    like the panel the pixel comes from, exactly when chain is
    parallel - 1 or [to] is below parallel - 1. *)
Theorem X16_reorder_destination_panel
    (self0 self : ReorderPixelMapper.t) (s : ReorderPixelMapper.statics)
    (chain parallel : Z) (param : option string) (ok : bool)
    (out : list diagnostic) (pw ph x y to : Z) :
  ReorderPixelMapper.SetParameters self0 chain parallel param
    = Some (ok, self, out) →
  0 < chain → 2 ≤ parallel → 0 < pw → 0 < ph →
  chain * pw ≤ Int.INT_MAX → parallel * ph ≤ Int.INT_MAX →
  chain * parallel ≤ Int.INT_MAX →
  parallel * pw ≤ Int.INT_MAX → chain * parallel * ph ≤ Int.INT_MAX →
  ReorderPixelMapper.panel_cols_ s = None
    ∨ ReorderPixelMapper.panel_cols_ s = Some pw →
  ReorderPixelMapper.panel_rows_ s = None
    ∨ ReorderPixelMapper.panel_rows_ s = Some ph →
  0 ≤ x < chain * pw → 0 ≤ y < parallel * ph →
  ReorderPixelMapper.panels_ self !! (y ÷ ph * chain + x ÷ pw) = Some to →
  0 ≤ to ≤ chain * parallel - 1 →
  ∃ (s' : ReorderPixelMapper.statics) (mx my : Z),
    ReorderPixelMapper.MapVisibleToMatrix self s
      (chain * pw) (parallel * ph) x y = Some (s', Written mx my)
    ∧ mx ÷ pw = Z.rem to (parallel - 1) ∧ my ÷ ph = to ÷ (parallel - 1)
    ∧ mx - pw * (mx ÷ pw) = x - pw * (x ÷ pw)
    ∧ my - ph * (my ÷ ph) = y - ph * (y ÷ ph)
    ∧ (in_matrix (chain * pw) (parallel * ph) (Written mx my)
       ↔ Z.rem to (parallel - 1) < chain ∧ to ÷ (parallel - 1) < parallel)
    ∧ (my ÷ ph * chain + mx ÷ pw = to
       ↔ chain = parallel - 1 ∨ to < parallel - 1).
Proof.
  intros Hset Hc Hp Hpw Hph Hw Hh Hcount Hpw' Hph' Hcols Hrows Hx Hy Hto
    Hrange.
  destruct (reorder_configured _ _ _ _ _ _ _ Hset) as (_ & Hchain & Hpar).
  pose proof (Z.rem_bound_pos to (parallel - 1) ltac:(lia) ltac:(lia))
    as Hrem.
  pose proof (quot_bounds to (parallel - 1) ltac:(lia) ltac:(lia)) as Hquot.
  pose proof (quot_le to (parallel - 1) ltac:(lia) ltac:(lia)) as Hle.
  pose proof (rem_eq to (parallel - 1) ltac:(lia)) as Hrem_eq.
  destruct (panel_of_coordinate chain pw x Hpw Hx) as [Hnx Hpx].
  destruct (panel_of_coordinate parallel ph y Hph Hy) as [Hny Hpy].
  set (col := Z.rem to (parallel - 1)) in *.
  set (row := to ÷ (parallel - 1)) in *.
  set (px := x - pw * (x ÷ pw)) in *.
  set (py := y - ph * (y ÷ ph)) in *.
  assert (Hqx : (col * pw + px) ÷ pw = col)
    by (rewrite (Z.mul_comm col); apply quot_mul_add; lia).
  assert (Hqy : (row * ph + py) ÷ ph = row)
    by (rewrite (Z.mul_comm row); apply quot_mul_add; lia).
  exists {| ReorderPixelMapper.panel_cols_ := Some pw;
            ReorderPixelMapper.panel_rows_ := Some ph |},
    (col * pw + px), (row * ph + py).
  split.
  { assert (col * pw ≤ (parallel - 1) * pw)
      by (apply Z.mul_le_mono_nonneg_r; lia).
    assert (row * ph ≤ (chain * parallel - 1) * ph)
      by (apply Z.mul_le_mono_nonneg_r; lia).
    apply (reorder_destination self s chain parallel pw ph x y);
      try done; try lia; fold col row; lia. }
  rewrite Hqx, Hqy.
  split; [done |]. split; [done |]. split; [lia |]. split; [lia |].
  assert (Hcol0 : 0 ≤ col * pw) by (apply Z.mul_nonneg_nonneg; lia).
  assert (Hrow0 : 0 ≤ row * ph) by (apply Z.mul_nonneg_nonneg; lia).
  split.
  - simpl. split.
    + intros [[_ Hmx] [_ Hmy]]. split.
      * apply (Z.mul_lt_mono_pos_r pw); lia.
      * apply (Z.mul_lt_mono_pos_r ph); lia.
    + intros [Hcol Hrow].
      assert (col * pw ≤ (chain - 1) * pw)
        by (apply Z.mul_le_mono_nonneg_r; lia).
      assert (row * ph ≤ (parallel - 1) * ph)
        by (apply Z.mul_le_mono_nonneg_r; lia).
      lia.
  - assert (Hfirst : row = 0 ↔ to < parallel - 1).
    { split.
      - intros Hr. rewrite Hr in Hquot. lia.
      - intros Hlt. destruct (decide (row = 0)) as [| Hne]; [done |].
        assert ((parallel - 1) * 1 ≤ (parallel - 1) * row)
          by (apply Z.mul_le_mono_nonneg_l; lia).
        lia. }
    split.
    + intros Heq.
      assert (Hzero : row * (chain - (parallel - 1)) = 0) by lia.
      apply Z.mul_eq_0 in Hzero as [Hzero | Hzero];
        [right; by apply Hfirst | left; lia].
    + intros [Hsame | Hlt]; [rewrite Hsame; lia |].
      apply Hfirst in Hlt. rewrite Hlt in Hrem_eq. lia.
Qed.

Lemma X16_reorder_destination_panel_witness :
  ∃ (s' : ReorderPixelMapper.statics) (mx my : Z),
    ReorderPixelMapper.MapVisibleToMatrix
      {| ReorderPixelMapper.chain_ := 2; ReorderPixelMapper.parallel_ := 2;
         ReorderPixelMapper.panels_ := <[0 := 3]> ∅ |}
      ReorderPixelMapper.uninitialised (2 * 32) (2 * 16) 5 7
    = Some (s', Written mx my)
    ∧ mx ÷ 32 = Z.rem 3 (2 - 1) ∧ my ÷ 16 = 3 ÷ (2 - 1)
    ∧ mx - 32 * (mx ÷ 32) = 5 - 32 * (5 ÷ 32)
    ∧ my - 16 * (my ÷ 16) = 7 - 16 * (7 ÷ 16)
    ∧ (in_matrix (2 * 32) (2 * 16) (Written mx my)
       ↔ Z.rem 3 (2 - 1) < 2 ∧ 3 ÷ (2 - 1) < 2)
    ∧ (my ÷ 16 * 2 + mx ÷ 32 = 3 ↔ 2 = 2 - 1 ∨ 3 < 2 - 1).
Proof.
  apply (X16_reorder_destination_panel
           {| ReorderPixelMapper.chain_ := 0;
              ReorderPixelMapper.parallel_ := 0;
              ReorderPixelMapper.panels_ := ∅ |}
           _ ReorderPixelMapper.uninitialised 2 2 (Some "0|3") true []
           32 16 5 7 3).
  - reflexivity.
  - lia.
  - lia.
  - lia.
  - lia.
  - unfold Int.INT_MAX. lia.
  - unfold Int.INT_MAX. lia.
  - unfold Int.INT_MAX. lia.
  - unfold Int.INT_MAX. lia.
  - unfold Int.INT_MAX. lia.
  - left. reflexivity.
  - left. reflexivity.
  - lia.
  - lia.
  - reflexivity.
  - lia.
Defined.

(** ** The registry: its entries and the list of names *)

Lemma string_le_trans (s1 s2 s3 : string) :
  Registry.string_le s1 s2 → Registry.string_le s2 s3 →
  Registry.string_le s1 s3.
Proof.
  unfold Registry.string_le, String.leb. revert s2 s3.
  induction s1 as [| c1 r1 IH]; intros [| c2 r2] [| c3 r3]; simpl; try done.
  unfold Ascii.compare.
  destruct (N.compare_spec (N_of_ascii c1) (N_of_ascii c2)) as [H12|H12|H12],
    (N.compare_spec (N_of_ascii c2) (N_of_ascii c3)) as [H23|H23|H23],
    (N.compare_spec (N_of_ascii c1) (N_of_ascii c3)) as [H13|H13|H13];
    try done; try lia; apply IH.
Qed.

#[local] Instance string_le_transitive : Transitive Registry.string_le.
Proof. intros s1 s2 s3. apply string_le_trans. Qed.

#[local] Instance string_le_antisymm : AntiSymm (=) Registry.string_le.
Proof. intros s1 s2. apply String.leb_antisym. Qed.

#[local] Instance key_le_total : Total Registry.key_le.
Proof. intros a b. apply String.leb_total. Qed.

(** The keys of a registry in the order of the iteration. *)
Lemma sorted_keys (m : Registry.MapperByName) :
  Sorted Registry.string_le
    (merge_sort Registry.key_le (map_to_list m)).*1
  ∧ NoDup (merge_sort Registry.key_le (map_to_list m)).*1
  ∧ ∀ key, key ∈ (merge_sort Registry.key_le (map_to_list m)).*1
           ↔ is_Some (m !! key).
Proof.
  assert (Hperm : (merge_sort Registry.key_le (map_to_list m)).*1
                  ≡ₚ (map_to_list m).*1)
    by (apply fmap_Permutation, merge_sort_Permutation).
  split; [| split].
  - apply (Sorted_fmap _ Registry.key_le); [done |].
    apply (Sorted_merge_sort _).
  - rewrite Hperm. apply NoDup_fst_map_to_list.
  - intros key. rewrite Hperm, list_elem_of_fmap. split.
    + intros ([k mapper] & -> & Hin%elem_of_map_to_list). by eexists.
    + intros [mapper Hin]. exists (key, mapper).
      split; [done | by apply elem_of_map_to_list].
Qed.

(** Two registries with the same keys are iterated in the same order. *)
Lemma sorted_keys_unique (m m' : Registry.MapperByName) :
  (∀ key, is_Some (m !! key) ↔ is_Some (m' !! key)) →
  (merge_sort Registry.key_le (map_to_list m)).*1
  = (merge_sort Registry.key_le (map_to_list m')).*1.
Proof.
  intros Hkeys.
  destruct (sorted_keys m) as (Hsorted & Hnodup & Hin).
  destruct (sorted_keys m') as (Hsorted' & Hnodup' & Hin').
  apply (Sorted_unique Registry.string_le); try done.
  apply NoDup_Permutation; try done.
  intros key. by rewrite Hin, Hin', Hkeys.
Qed.

(** The list of names is read off the keys in their order. *)
Lemma names_by_key (raw : Registry.raw_memory)
    (singleton : option Registry.MapperByName) :
  Registry.GetAvailablePixelMappers raw singleton
  = (λ key, default "" (GetName <$> Registry.GetMapperMap raw singleton
                                      !! key))
    <$> (merge_sort Registry.key_le
           (map_to_list (Registry.GetMapperMap raw singleton))).*1.
Proof.
  unfold Registry.GetAvailablePixelMappers. cbn zeta.
  rewrite <- list_fmap_compose. apply Forall_fmap_ext, Forall_forall.
  intros [key mapper] Hin. simpl.
  rewrite merge_sort_Permutation in Hin.
  apply elem_of_map_to_list in Hin. by rewrite Hin.
Qed.

(** What [FindPixelMapper] does, by the entry it finds. *)
Lemma find_outcome (raw : Registry.raw_memory)
    (singleton singleton' : option Registry.MapperByName) (name : string)
    (chain parallel : Z) (param : option string) (found : option string)
    (out : list diagnostic) :
  Registry.FindPixelMapper raw singleton name chain parallel param
    = Some (singleton', found, out) →
  let registry := Registry.GetMapperMap raw singleton in
  registry !! CString.lower name = None
  ∧ singleton' = Some registry ∧ found = None
  ∧ out = [no_such_mapper name]
  ∨ ∃ (mapper mapper' : PixelMapper) (ok : bool),
      registry !! CString.lower name = Some mapper
      ∧ SetParameters mapper chain parallel param = Some (ok, mapper', out)
      ∧ singleton' = Some (<[CString.lower name := mapper']> registry)
      ∧ found = (if ok then Some (CString.lower name) else None).
Proof.
  unfold Registry.FindPixelMapper. cbn zeta.
  destruct (Registry.GetMapperMap raw singleton !! CString.lower name)
    as [mapper|] eqn:Hentry.
  - destruct (SetParameters mapper chain parallel param)
      as [[[ok mapper'] out']|] eqn:Hset; simpl; [| done].
    intros Hfind. right. exists mapper, mapper', ok.
    destruct ok; simplify_eq; done.
  - intros [= <- <- <-]. by left.
Qed.

Lemma keyed_by_name_insert (registry : Registry.MapperByName)
    (key : string) (mapper : PixelMapper) :
  keyed_by_name registry → key = CString.lower (GetName mapper) →
  keyed_by_name (<[key := mapper]> registry).
Proof.
  intros Hkeyed -> key' mapper'.
  intros [[<- <-] | [_ Hold]]%lookup_insert_Some; [done | by apply Hkeyed].
Qed.

Lemma keyed_by_name_create (raw : Registry.raw_memory) :
  keyed_by_name (Registry.CreateMapperMap raw).
Proof.
  unfold Registry.CreateMapperMap, Registry.RegisterPixelMapperInternal.
  cbn zeta. repeat (apply keyed_by_name_insert; [| done]).
  intros key mapper Hempty. by rewrite lookup_empty in Hempty.
Qed.

Lemma keyed_by_name_find (raw : Registry.raw_memory)
    (singleton singleton' : option Registry.MapperByName) (name : string)
    (chain parallel : Z) (param : option string) (found : option string)
    (out : list diagnostic) :
  keyed_by_name (Registry.GetMapperMap raw singleton) →
  Registry.FindPixelMapper raw singleton name chain parallel param
    = Some (singleton', found, out) →
  ∃ registry', singleton' = Some registry' ∧ keyed_by_name registry'.
Proof.
  intros Hkeyed Hfind.
  destruct (find_outcome _ _ _ _ _ _ _ _ _ Hfind)
    as [(_ & -> & _) | (mapper & mapper' & ok & Hentry & Hset & -> & _)];
    (eexists; split; [done |]); [done |].
  apply keyed_by_name_insert; [done |].
  destruct (set_parameters_outcome _ _ _ _ _ _ _ Hset) as [-> _].
  by apply Hkeyed.
Qed.

(** X17.  Every entry of the registry is kept under the lower-cased name
    of its mapper: this holds for the registry that [CreateMapperMap]
    builds, and [RegisterPixelMapper] and [FindPixelMapper] keep it. *)
Theorem X17_registry_keyed_by_name (raw : Registry.raw_memory) :
  keyed_by_name (Registry.CreateMapperMap raw)
  ∧ (∀ singleton mapper registry',
       keyed_by_name (Registry.GetMapperMap raw singleton) →
       Registry.RegisterPixelMapper raw singleton mapper = Some registry' →
       keyed_by_name registry')
  ∧ (∀ singleton name chain parallel param singleton' found out,
       keyed_by_name (Registry.GetMapperMap raw singleton) →
       Registry.FindPixelMapper raw singleton name chain parallel param
         = Some (singleton', found, out) →
       ∃ registry', singleton' = Some registry' ∧ keyed_by_name registry').
Proof.
  split; [apply keyed_by_name_create |]. split.
  - intros singleton mapper registry' Hkeyed [= <-].
    by apply keyed_by_name_insert.
  - intros. by eapply keyed_by_name_find.
Qed.

Lemma X17_registry_keyed_by_name_witness :
  ∃ registry' : Registry.MapperByName,
    Some (<["mirror" :=
              Mirror {| MirrorPixelMapper.horizontal_ := false |}]>
            (Registry.CreateMapperMap stale_memory)) = Some registry'
    ∧ keyed_by_name registry'.
Proof.
  destruct (X17_registry_keyed_by_name stale_memory)
    as (Hcreate & _ & Hfind).
  exact (Hfind None "MIRROR" 1 1 (Some "V") _ (Some "mirror") []
           Hcreate eq_refl).
Defined.

Lemma Sorted_fmap_inv {A B : Type} (f : A → B) (R : relation B)
    (l : list A) :
  Sorted R (f <$> l) → Sorted (λ a b, R (f a) (f b)) l.
Proof.
  induction l as [| a l IH]; simpl; [constructor |].
  intros [Hl Hhd]%Sorted_inv. constructor; [by apply IH |].
  destruct l; simpl in *; constructor. by apply HdRel_inv in Hhd.
Qed.

(** X18.  [GetAvailablePixelMappers] on a registry whose entries are kept
    under their lower-cased names: the list has the name of every
    registered mapper once, in the order of the lower-cased names, and a
    name is in the list exactly when the registry holds, under the
    lower-cased name, a mapper whose name is spelled exactly so.  (Other
    spellings of upper and lower case reach the same entry through
    [FindPixelMapper] without being in the list.) *)
Theorem X18_available_names (raw : Registry.raw_memory)
    (singleton : option Registry.MapperByName) :
  keyed_by_name (Registry.GetMapperMap raw singleton) →
  let names := Registry.GetAvailablePixelMappers raw singleton in
  NoDup names
  ∧ Sorted (λ a b, Registry.string_le (CString.lower a) (CString.lower b))
      names
  ∧ ∀ name : string,
      name ∈ names
      ↔ ∃ mapper : PixelMapper,
          Registry.GetMapperMap raw singleton !! CString.lower name
            = Some mapper
          ∧ GetName mapper = name.
Proof.
  intros Hkeyed names.
  set (registry := Registry.GetMapperMap raw singleton) in *.
  destruct (sorted_keys registry) as (Hsorted & Hnodup & _).
  assert (Hkeys : (merge_sort Registry.key_le (map_to_list registry)).*1
                  = CString.lower <$> names).
  { unfold names, Registry.GetAvailablePixelMappers. cbn zeta.
    fold registry. rewrite <- list_fmap_compose.
    apply Forall_fmap_ext, Forall_forall. intros [key mapper] Hin. simpl.
    rewrite merge_sort_Permutation in Hin.
    apply elem_of_map_to_list in Hin. by apply Hkeyed. }
  rewrite Hkeys in Hsorted, Hnodup.
  split; [by apply NoDup_fmap_1 in Hnodup |].
  split; [by apply Sorted_fmap_inv |].
  intros name. unfold names, Registry.GetAvailablePixelMappers. cbn zeta.
  fold registry. rewrite list_elem_of_fmap. split.
  - intros ([key mapper] & -> & Hin). simpl.
    rewrite merge_sort_Permutation in Hin.
    apply elem_of_map_to_list in Hin.
    exists mapper. split; [| done].
    by rewrite <- (Hkeyed key mapper Hin).
  - intros (mapper & Hentry & <-).
    exists (CString.lower (GetName mapper), mapper). split; [done |].
    rewrite merge_sort_Permutation. by apply elem_of_map_to_list.
Qed.

Lemma X18_available_names_witness :
  Registry.GetAvailablePixelMappers stale_memory None
  = ["Mirror"; "Reorder"; "Rotate"; "Rotate-panel"; "Row-mapper";
     "U-mapper"; "V-mapper"]
  ∧ NoDup (Registry.GetAvailablePixelMappers stale_memory None)
  ∧ ("Rotate" ∈ Registry.GetAvailablePixelMappers stale_memory None
     ↔ ∃ mapper : PixelMapper,
         Registry.GetMapperMap stale_memory None !! CString.lower "Rotate"
           = Some mapper
         ∧ GetName mapper = "Rotate").
Proof.
  split; [reflexivity |].
  destruct (X18_available_names stale_memory None
              (keyed_by_name_create stale_memory))
    as (Hnodup & _ & Hfound).
  split; [exact Hnodup | exact (Hfound "Rotate")].
Defined.

(** X19.  A call of [FindPixelMapper], found or not, configured or
    refused, leaves the list of [GetAvailablePixelMappers] as it was. *)
Theorem X19_find_keeps_available_names (raw : Registry.raw_memory)
    (singleton singleton' : option Registry.MapperByName) (name : string)
    (chain parallel : Z) (param : option string) (found : option string)
    (out : list diagnostic) :
  Registry.FindPixelMapper raw singleton name chain parallel param
    = Some (singleton', found, out) →
  Registry.GetAvailablePixelMappers raw singleton'
  = Registry.GetAvailablePixelMappers raw singleton.
Proof.
  intros Hfind.
  destruct (find_outcome _ _ _ _ _ _ _ _ _ Hfind)
    as [(_ & -> & _) | (mapper & mapper' & ok & Hentry & Hset & -> & _)];
    [done |].
  destruct (set_parameters_outcome _ _ _ _ _ _ _ Hset) as [Hname _].
  rewrite !names_by_key. simpl.
  set (registry := Registry.GetMapperMap raw singleton) in *.
  rewrite (sorted_keys_unique (<[CString.lower name := mapper']> registry)
             registry).
  - apply Forall_fmap_ext, Forall_forall. intros key _.
    destruct (decide (key = CString.lower name)) as [-> | Hne].
    + rewrite lookup_insert_eq, Hentry. simpl. by rewrite Hname.
    + by rewrite lookup_insert_ne.
  - intros key. rewrite lookup_insert_is_Some. split.
    + intros [<- | [_ Hkey]]; [by eexists | done].
    + intros Hkey.
      destruct (decide (CString.lower name = key)); [by left | by right].
Qed.

Lemma X19_find_keeps_available_names_witness :
  Registry.GetAvailablePixelMappers stale_memory
    (Some (<["rotate" := Rotate {| RotatePixelMapper.angle_ := 90 |}]>
             (Registry.CreateMapperMap stale_memory)))
  = Registry.GetAvailablePixelMappers stale_memory None.
Proof.
  apply (X19_find_keeps_available_names stale_memory None _ "ROTATE" 1 1
           (Some "90") (Some "rotate") []).
  reflexivity.
Defined.

(** X20.  [FindPixelMapper] configures the registered object itself.  No
    entry but the one of the lower-cased name is touched; a call that
    returns NULL leaves the whole registry as it was; a call that returns
    a mapper returns the entry of the lower-cased name, which now holds
    what [SetParameters] made of the object found there. *)
Theorem X20_find_configures_registered_object (raw : Registry.raw_memory)
    (singleton singleton' : option Registry.MapperByName) (name : string)
    (chain parallel : Z) (param : option string) (found : option string)
    (out : list diagnostic) :
  Registry.FindPixelMapper raw singleton name chain parallel param
    = Some (singleton', found, out) →
  let registry := Registry.GetMapperMap raw singleton in
  ∃ registry' : Registry.MapperByName,
    singleton' = Some registry'
    ∧ (∀ key, key ≠ CString.lower name → registry' !! key = registry !! key)
    ∧ (found = None → registry' = registry)
    ∧ (∀ key, found = Some key →
         key = CString.lower name
         ∧ ∃ mapper mapper' : PixelMapper,
             registry !! key = Some mapper
             ∧ SetParameters mapper chain parallel param
               = Some (true, mapper', out)
             ∧ registry' !! key = Some mapper').
Proof.
  intros Hfind. cbn zeta.
  destruct (find_outcome _ _ _ _ _ _ _ _ _ Hfind)
    as [(_ & -> & -> & _)
       | (mapper & mapper' & ok & Hentry & Hset & -> & ->)];
    eexists; (split; [done |]).
  - split; [done |]. split; [done |]. intros key [=].
  - split; [intros key Hne; by rewrite lookup_insert_ne |].
    destruct ok.
    + split; [done |]. intros key [= <-]. split; [done |].
      exists mapper, mapper'. by rewrite lookup_insert_eq.
    + destruct (set_parameters_outcome _ _ _ _ _ _ _ Hset) as [_ Hsame].
      destruct (Hsame eq_refl) as [-> _].
      split; [intros _; by apply insert_id | intros key [=]].
Qed.

Lemma X20_find_configures_registered_object_witness :
  let registry := Registry.GetMapperMap stale_memory None in
  ∃ registry' : Registry.MapperByName,
    Some (<["u-mapper" :=
              UArrangement {| UArrangementMapper.parallel_ := 2 |}]>
            registry) = Some registry'
    ∧ (∀ key, key ≠ CString.lower "U-Mapper" →
         registry' !! key = registry !! key)
    ∧ (Some "u-mapper" = None → registry' = registry)
    ∧ (∀ key, Some "u-mapper" = Some key →
         key = CString.lower "U-Mapper"
         ∧ ∃ mapper mapper' : PixelMapper,
             registry !! key = Some mapper
             ∧ SetParameters mapper 4 2 None = Some (true, mapper', [])
             ∧ registry' !! key = Some mapper').
Proof.
  exact (X20_find_configures_registered_object stale_memory None _
           "U-Mapper" 4 2 None (Some "u-mapper") [] eq_refl).
Defined.

(** X21.  A mapper passed to [RegisterPixelMapper] is the object that a
    later [FindPixelMapper] with its name, in any spelling of upper and
    lower case, configures and returns; a built-in mapper of that name is
    no longer reached. *)
Theorem X21_registered_mapper_is_found (raw : Registry.raw_memory)
    (singleton : option Registry.MapperByName) (mapper : PixelMapper)
    (registry : Registry.MapperByName) (name : string)
    (chain parallel : Z) (param : option string) :
  Registry.RegisterPixelMapper raw singleton mapper = Some registry →
  CString.lower name = CString.lower (GetName mapper) →
  Registry.FindPixelMapper raw (Some registry) name chain parallel param
  = '(ok, mapper', out) ← SetParameters mapper chain parallel param;
    Some (Some (<[CString.lower name := mapper']> registry),
          (if ok : bool then Some (CString.lower name) else None), out).
Proof.
  intros [= <-] Hname.
  unfold Registry.FindPixelMapper, Registry.RegisterPixelMapperInternal.
  cbn zeta.
  assert (Hmap : ∀ r, Registry.GetMapperMap raw (Some r) = r) by done.
  rewrite !Hmap, Hname, lookup_insert_eq.
  destruct (SetParameters mapper chain parallel param)
    as [[[[] mapper'] out]|]; reflexivity.
Qed.

Lemma X21_registered_mapper_is_found_witness :
  Registry.FindPixelMapper stale_memory
    (Some (<["rotate" := Rotate {| RotatePixelMapper.angle_ := 90 |}]>
             (Registry.CreateMapperMap stale_memory)))
    "ROTATE" 1 1 None
  = '(ok, mapper', out) ←
      SetParameters (Rotate {| RotatePixelMapper.angle_ := 90 |}) 1 1 None;
    Some (Some (<[CString.lower "ROTATE" := mapper']>
                  (<["rotate" :=
                       Rotate {| RotatePixelMapper.angle_ := 90 |}]>
                     (Registry.CreateMapperMap stale_memory))),
          (if ok : bool then Some (CString.lower "ROTATE") else None), out).
Proof.
  apply (X21_registered_mapper_is_found stale_memory None
           (Rotate {| RotatePixelMapper.angle_ := 90 |})).
  - reflexivity.
  - reflexivity.
Defined.

(** ** Row-mapper: the panels that stay dark *)

(** X22.  Which pixels of the matrix the Row-mapper uses.  Count the
    pixels of a matrix row through all the rows of panels, one after the
    other: the pixel at position [p] of this long row is written for some
    visible pixel exactly when [p] lies in the window of the visible width
    that starts at 0 in the normal and the horizontal mode and one panel
    width later in the vertical mode.  So the horizontal mode leaves the
    last two panels of the last row dark, the vertical mode the first
    panel of the first row and the last panel of the last row. *)
Theorem X22_row_reached_pixels (self0 self : RowArrangementMapper.t)
    (chain parallel : Z) (param : option string) (out : list diagnostic)
    (pw ph vw vh mx my : Z) :
  RowArrangementMapper.SetParameters self0 chain parallel param
    = Some (true, self, out) →
  0 < chain → 0 < pw → 0 < ph →
  chain * pw * parallel ≤ Int.INT_MAX → parallel * ph ≤ Int.INT_MAX →
  RowArrangementMapper.GetSizeMapping self (chain * pw) (parallel * ph)
    = Some (true, (vw, vh), []) →
  0 ≤ mx < chain * pw → 0 ≤ my < parallel * ph →
  let position := my ÷ ph * (chain * pw) + mx in
  let start := row_shift (RowArrangementMapper.mode_ self) pw in
  vw = chain * pw * parallel
       - row_hidden (RowArrangementMapper.mode_ self) pw
  ∧ ((∃ x y : Z,
        (0 ≤ x < vw ∧ 0 ≤ y < vh)
        ∧ RowArrangementMapper.MapVisibleToMatrix self
            (chain * pw) (parallel * ph) x y = Some (Written mx my))
     ↔ start ≤ position < start + vw).
Proof.
  intros Hset Hc Hpw Hph Hw Hh Hsize Hmx Hmy position start.
  destruct (row_configured _ _ _ _ _ _ Hset) as (Hp & Hchain & Hparallel).
  pose proof (row_maps self chain parallel pw ph Hchain Hparallel
                Hc Hp Hpw Hph Hw Hh) as Hmaps.
  cbn zeta in Hmaps. fold start in Hmaps.
  rewrite (row_visible_size self chain parallel pw ph) in Hsize by done.
  injection Hsize as <- <-. split; [done |].
  assert (Hstart : 0 ≤ start)
    by (unfold start, row_shift;
        destruct (RowArrangementMapper.mode_ self); lia).
  assert (Hmw : 0 < chain * pw) by (apply Z.mul_pos_pos; lia).
  destruct (panel_of_coordinate parallel ph my Hph Hmy) as [Hrow Hin].
  split.
  - intros (x & y & [Hx Hy] & Hmap). rewrite Hmaps in Hmap by done.
    injection Hmap as Hcol Hline.
    pose proof (quot_bounds (x + start) (chain * pw) ltac:(lia) Hmw)
      as Hquot.
    assert (Hq : my ÷ ph = (x + start) ÷ (chain * pw)).
    { rewrite <- Hline, (Z.mul_comm _ ph). apply quot_mul_add; lia. }
    rewrite rem_eq in Hcol by lia.
    unfold position. rewrite Hq. lia.
  - intros Hposition.
    assert (Hq : position ÷ (chain * pw) = my ÷ ph).
    { unfold position. rewrite (Z.mul_comm (my ÷ ph)).
      apply quot_mul_add; lia. }
    exists (position - start), (my - ph * (my ÷ ph)).
    split; [lia |]. rewrite Hmaps by lia.
    replace (position - start + start) with position by lia.
    rewrite rem_eq by lia. rewrite Hq. unfold position.
    do 2 f_equal; lia.
Qed.

Lemma X22_row_reached_pixels_witness :
  let self :=
    {| RowArrangementMapper.chain_ := 2;
       RowArrangementMapper.parallel_ := 3;
       RowArrangementMapper.mode_ := RowArrangementMapper.band_vertical |} in
  let position := 5 ÷ 16 * (2 * 32) + 7 in
  let start := row_shift (RowArrangementMapper.mode_ self) 32 in
  128 = 2 * 32 * 3 - row_hidden (RowArrangementMapper.mode_ self) 32
  ∧ ((∃ x y : Z,
        (0 ≤ x < 128 ∧ 0 ≤ y < 16)
        ∧ RowArrangementMapper.MapVisibleToMatrix self
            (2 * 32) (3 * 16) x y = Some (Written 7 5))
     ↔ start ≤ position < start + 128).
Proof.
  apply (X22_row_reached_pixels
           {| RowArrangementMapper.chain_ := 0;
              RowArrangementMapper.parallel_ := 0;
              RowArrangementMapper.mode_ := RowArrangementMapper.normal |}
           _ 2 3 (Some "v") [] 32 16 128 16 7 5).
  - reflexivity.
  - lia.
  - lia.
  - lia.
  - unfold Int.INT_MAX. lia.
  - unfold Int.INT_MAX. lia.
  - reflexivity.
  - lia.
  - lia.
Defined.

(** ** A chain or a number of parallel chains of zero *)

Lemma div_by_zero `{Int.Operand A} (a : A) : a /ᵢ 0 = None.
Proof. unfold Int.div. by destruct (Int.eval a). Qed.

Lemma rem_by_zero `{Int.Operand A} (a : A) : a %ᵢ 0 = None.
Proof. unfold Int.rem. by destruct (Int.eval a). Qed.

(** X23.  A chain or a number of parallel chains of zero that
    [SetParameters] accepts, and the division by it.  The V-mapper accepts
    a zero chain and a zero parallel, the U-mapper a zero parallel (with
    an even chain of at least 2), the Row-mapper a zero chain (with
    parallel at least 2 and a NULL parameter): for each, [GetSizeMapping]
    and [MapVisibleToMatrix] are then undefined for all their arguments.
    [SetParameters] of Rotate-panel and Reorder with a zero chain, when it
    returns, returns true, and the call of [MapVisibleToMatrix] that
    initialises the panel size is then undefined. *)
Theorem X23_zero_chain_or_parallel_is_accepted (mw mh x y : Z)
    (param : option string) :
  (∀ (self : VerticalMapper.t) (chain parallel : Z),
     chain = 0 ∨ parallel = 0 →
     ∃ self' : VerticalMapper.t,
       VerticalMapper.SetParameters self chain parallel param
         = Some (true, self', [])
       ∧ VerticalMapper.GetSizeMapping self' mw mh = None
       ∧ VerticalMapper.MapVisibleToMatrix self' mw mh x y = None)
  ∧ (∀ (self : UArrangementMapper.t) (chain : Z),
       2 ≤ chain ≤ Int.INT_MAX → Z.rem chain 2 = 0 →
       ∃ self' : UArrangementMapper.t,
         UArrangementMapper.SetParameters self chain 0 param
           = Some (true, self', [])
         ∧ UArrangementMapper.GetSizeMapping self' mw mh = None
         ∧ UArrangementMapper.MapVisibleToMatrix self' mw mh x y = None)
  ∧ (∀ (self : RowArrangementMapper.t) (parallel : Z),
       2 ≤ parallel →
       ∃ self' : RowArrangementMapper.t,
         RowArrangementMapper.SetParameters self 0 parallel None
           = Some (true, self', [])
         ∧ RowArrangementMapper.GetSizeMapping self' mw mh = None
         ∧ RowArrangementMapper.MapVisibleToMatrix self' mw mh x y = None)
  ∧ (∀ (self self' : RotatePanelPixelMapper.t) (parallel : Z) (ok : bool)
       (out : list diagnostic),
       RotatePanelPixelMapper.SetParameters self 0 parallel param
         = Some (ok, self', out) →
       ok = true
       ∧ RotatePanelPixelMapper.MapVisibleToMatrix self'
           RotatePanelPixelMapper.uninitialised mw mh x y = None)
  ∧ (∀ (self self' : ReorderPixelMapper.t) (parallel : Z) (ok : bool)
       (out : list diagnostic),
       ReorderPixelMapper.SetParameters self 0 parallel param
         = Some (ok, self', out) →
       ok = true
       ∧ ReorderPixelMapper.MapVisibleToMatrix self'
           ReorderPixelMapper.uninitialised mw mh x y = None).
Proof.
  split; [| split; [| split; [| split]]].
  - intros self chain parallel Hzero. eexists. split; [reflexivity |].
    unfold VerticalMapper.GetSizeMapping, VerticalMapper.MapVisibleToMatrix.
    simpl. destruct Hzero as [-> | ->]; rewrite ?div_by_zero; simpl.
    + done.
    + split.
      * by destruct (mw *ᵢ 0 /ᵢ chain).
      * by destruct (mw /ᵢ chain).
  - intros self chain Hchain Heven.
    pose proof (quot_bounds chain 2 ltac:(lia) ltac:(lia)).
    exists {| UArrangementMapper.parallel_ := 0 |}. split.
    + unfold UArrangementMapper.SetParameters.
      rewrite decide_False by lia. int_eval range. rewrite Heven.
      reflexivity.
    + unfold UArrangementMapper.GetSizeMapping,
        UArrangementMapper.MapVisibleToMatrix. simpl.
      rewrite ?div_by_zero, ?rem_by_zero. split; [| done].
      destruct (mw /ᵢ 64 *ᵢ 32); simpl; [| done].
      by destruct (2 *ᵢ mh).
  - intros self parallel Hparallel. eexists. split.
    + unfold RowArrangementMapper.SetParameters.
      rewrite decide_False by lia. reflexivity.
    + unfold RowArrangementMapper.GetSizeMapping,
        RowArrangementMapper.MapVisibleToMatrix. simpl.
      rewrite ?div_by_zero. split; [done |].
      by destruct (mh /ᵢ parallel).
  - intros self self' parallel ok out Hset.
    apply rotate_panel_configured in Hset as (-> & Hchain & _).
    split; [done |].
    unfold RotatePanelPixelMapper.MapVisibleToMatrix. simpl.
    by rewrite Hchain, ?div_by_zero.
  - intros self self' parallel ok out Hset.
    apply reorder_configured in Hset as (-> & Hchain & _).
    split; [done |].
    unfold ReorderPixelMapper.MapVisibleToMatrix. simpl.
    by rewrite Hchain, ?div_by_zero.
Qed.

Lemma X23_zero_chain_or_parallel_is_accepted_witness :
  (∃ self' : VerticalMapper.t,
     VerticalMapper.SetParameters
       (VerticalMapper.new (Registry.raw_vertical stale_memory)) 0 1 None
       = Some (true, self', [])
     ∧ VerticalMapper.GetSizeMapping self' 64 32 = None
     ∧ VerticalMapper.MapVisibleToMatrix self' 64 32 0 0 = None)
  ∧ (∃ self' : UArrangementMapper.t,
       UArrangementMapper.SetParameters UArrangementMapper.new 2 0 None
         = Some (true, self', [])
       ∧ UArrangementMapper.GetSizeMapping self' 64 32 = None
       ∧ UArrangementMapper.MapVisibleToMatrix self' 64 32 0 0 = None)
  ∧ (∃ self' : RowArrangementMapper.t,
       RowArrangementMapper.SetParameters
         (RowArrangementMapper.new (Registry.raw_row stale_memory)) 0 2 None
         = Some (true, self', [])
       ∧ RowArrangementMapper.GetSizeMapping self' 64 32 = None
       ∧ RowArrangementMapper.MapVisibleToMatrix self' 64 32 0 0 = None)
  ∧ RotatePanelPixelMapper.MapVisibleToMatrix
      {| RotatePanelPixelMapper.chain_ := 0;
         RotatePanelPixelMapper.parallel_ := 1;
         RotatePanelPixelMapper.panels_ := ∅ |}
      RotatePanelPixelMapper.uninitialised 64 32 0 0 = None
  ∧ ReorderPixelMapper.MapVisibleToMatrix
      {| ReorderPixelMapper.chain_ := 0;
         ReorderPixelMapper.parallel_ := 1;
         ReorderPixelMapper.panels_ := ∅ |}
      ReorderPixelMapper.uninitialised 64 32 0 0 = None.
Proof.
  destruct (X23_zero_chain_or_parallel_is_accepted 64 32 0 0 None)
    as (Hvertical & Hu & Hrow & Hrotate_panel & Hreorder).
  split; [apply Hvertical; by left |].
  split; [apply Hu; [unfold Int.INT_MAX; lia | reflexivity] |].
  split; [apply Hrow; lia |].
  split.
  - exact (proj2 (Hrotate_panel
             (RotatePanelPixelMapper.new
                (Registry.raw_rotate_panel stale_memory))
             _ 1 true [] eq_refl)).
  - exact (proj2 (Hreorder
             (ReorderPixelMapper.new (Registry.raw_reorder stale_memory))
             _ 1 true [] eq_refl)).
Defined.

(** ** The registry: configurations add up *)

(** X24.  The objects of the registry live as long as the process, and
    [SetParameters] of Rotate-panel and Reorder never empties the table:
    a call of [FindPixelMapper] for one of them succeeds and leaves every
    entry that an earlier call has stored, unless the new parameter string
    stores an entry for the same panel.  For the other mappers the entry
    keeps its class. *)
Theorem X24_find_adds_to_the_panel_table (raw : Registry.raw_memory)
    (singleton singleton' : option Registry.MapperByName) (name : string)
    (chain parallel : Z) (param : option string) (found : option string)
    (out : list diagnostic) (mapper : PixelMapper) :
  Registry.GetMapperMap raw singleton !! CString.lower name = Some mapper →
  Registry.FindPixelMapper raw singleton name chain parallel param
    = Some (singleton', found, out) →
  ∃ (registry' : Registry.MapperByName) (mapper' : PixelMapper),
    singleton' = Some registry'
    ∧ registry' !! CString.lower name = Some mapper'
    ∧ match mapper, mapper' with
      | RotatePanel m, RotatePanel m' =>
          found = Some (CString.lower name)
          ∧ table_extended (chain * parallel - 1)
              (λ angle, 0 ≤ angle ∧ Z.rem angle 90 = 0)
              (RotatePanelPixelMapper.panels_ m)
              (RotatePanelPixelMapper.panels_ m')
      | Reorder m, Reorder m' =>
          found = Some (CString.lower name)
          ∧ table_extended (chain * parallel - 1)
              (λ to, 0 ≤ to ≤ chain * parallel - 1)
              (ReorderPixelMapper.panels_ m)
              (ReorderPixelMapper.panels_ m')
      | _, _ => GetName mapper' = GetName mapper
      end.
Proof.
  intros Hentry Hfind.
  destruct (find_outcome _ _ _ _ _ _ _ _ _ Hfind)
    as [(Hnone & _) | (mapper0 & mapper' & ok & Hentry' & Hset & -> & ->)];
    cbn zeta in *; [congruence |].
  assert (mapper0 = mapper) as -> by congruence.
  exists (<[CString.lower name := mapper']>
            (Registry.GetMapperMap raw singleton)), mapper'.
  split; [done |]. split; [apply lookup_insert_eq |].
  destruct (set_parameters_outcome _ _ _ _ _ _ _ Hset) as [Hname _].
  destruct mapper as [m | m | m | m | m | m | m]; simpl in Hset.
  - by destruct mapper'.
  - unfold RotatePanelPixelMapper.SetParameters in Hset.
    destruct param as [p|]; simpl in Hset.
    + destruct (chain *ᵢ parallel) as [count|] eqn:Hcount;
        simpl in Hset; [| done].
      apply mul_value in Hcount as ->.
      destruct (RotatePanelPixelMapper.item_loop _ _ _) as [l|] eqn:Hloop;
        simpl in Hset; [| done].
      injection Hset as <- <- <-. split; [done |]. simpl.
      by apply rotate_panel_item_loop_table in Hloop.
    + injection Hset as <- <- <-. split; [done |].
      apply table_extended_refl.
  - unfold ReorderPixelMapper.SetParameters in Hset.
    destruct param as [p|]; simpl in Hset.
    + destruct (chain *ᵢ parallel) as [count|] eqn:Hcount;
        simpl in Hset; [| done].
      apply mul_value in Hcount as ->.
      destruct (ReorderPixelMapper.item_loop _ _ _) as [l|] eqn:Hloop;
        simpl in Hset; [| done].
      injection Hset as <- <- <-. split; [done |]. simpl.
      by apply reorder_item_loop_table in Hloop.
    + injection Hset as <- <- <-. split; [done |].
      apply table_extended_refl.
  - by destruct mapper'.
  - by destruct mapper'.
  - by destruct mapper'.
  - by destruct mapper'.
Qed.

Lemma X24_find_adds_to_the_panel_table_witness :
  ∃ (registry' : Registry.MapperByName) (mapper' : PixelMapper),
    Some (<["rotate-panel" :=
              RotatePanel
                {| RotatePanelPixelMapper.chain_ := 2;
                   RotatePanelPixelMapper.parallel_ := 1;
                   RotatePanelPixelMapper.panels_ :=
                     <[1 := 180]> (<[0 := 90]> ∅) |}]>
            (<["rotate-panel" :=
                 RotatePanel
                   {| RotatePanelPixelMapper.chain_ := 2;
                      RotatePanelPixelMapper.parallel_ := 1;
                      RotatePanelPixelMapper.panels_ := <[0 := 90]> ∅ |}]>
               (Registry.CreateMapperMap stale_memory)))
    = Some registry'
    ∧ registry' !! CString.lower "Rotate-Panel" = Some mapper'
    ∧ match mapper' with
      | RotatePanel m' =>
          Some "rotate-panel" = Some (CString.lower "Rotate-Panel")
          ∧ table_extended (2 * 1 - 1)
              (λ angle, 0 ≤ angle ∧ Z.rem angle 90 = 0)
              (<[0 := 90]> ∅) (RotatePanelPixelMapper.panels_ m')
      | _ => GetName mapper' = "Rotate-panel"
      end.
Proof.
  exact (X24_find_adds_to_the_panel_table stale_memory
           (Some (<["rotate-panel" :=
                      RotatePanel
                        {| RotatePanelPixelMapper.chain_ := 2;
                           RotatePanelPixelMapper.parallel_ := 1;
                           RotatePanelPixelMapper.panels_ :=
                             <[0 := 90]> ∅ |}]>
                    (Registry.CreateMapperMap stale_memory)))
           _ "Rotate-Panel" 2 1 (Some "1|180") (Some "rotate-panel") []
           _ eq_refl eq_refl).
Defined.

(** ** Rotate-panel and Reorder: a parameter string of any items *)











Lemma digits_representable_app (items items' : list string) :
  digits_representable (items ++ items') →
  digits_representable items ∧ digits_representable items'.
Proof.
  intros Hrep. split; intros item token Hin; apply Hrep;
    apply elem_of_app; auto.
Qed.








